(** * redforks/logging: AsyncLogWriter and fileLogWriter

    A shallow embedding of [async_log_writer.go] and of the file log
    writer, and the properties of the written specification proved (or
    refuted) on it.

    - [Async]: the asynchronous writer.  Every atomic operation of the Go
      code (an atomic load, store, add or compare-and-swap, a channel
      send or receive, a call of the inner writer) is one step of a small
      machine, so that other goroutines can be interleaved between any
      two of them.  A call that runs without interference is the machine
      iterated until it returns.
    - [Naming], [Glob], [FileLog]: the rotating file writer over a model
      of the file system. *)

From Stdlib Require Import ZArith String Ascii List Lia Bool.
From Stdlib Require Import Strings.Byte DecimalString.
From stdpp Require Import gmap strings list sorting.

Set Default Proof Using "Type".
Set Warnings "-clear-no-such-hyp".

(** ** Shared vocabulary *)

(** Go's [[]byte]. *)
Abbreviation bytes := (list byte).

(** Go's [error] values that the code can observe. [ErrNotExist] is the
    one [os.IsNotExist] recognises; [ErrOther] stands for any other
    failure of the environment. *)
Inductive error :=
| ErrNotExist
| ErrInvalid
| ErrClosed
| ErrBadPattern
| ErrOther (code : nat).

(** The result pair [(n int, err error)] of an [io.Writer]. *)
Definition wresult : Type := Z * option error.

(** [len(p)] as an [int]. *)
Definition len (p : bytes) : Z := Z.of_nat (length p).

(** Two's complement wrap-around of [int32] arithmetic. *)
Definition wrap32 (z : Z) : Z := ((z + 2 ^ 31) mod 2 ^ 32 - 2 ^ 31)%Z.

(** [fmt.Sprintf("%d", z)]. *)
Definition itoa (z : Z) : string := NilZero.string_of_int (Z.to_int z).

(** ** The asynchronous writer *)

Module Async.

Local Open Scope Z_scope.

(** [fmt.Sprintf(`Too many logs, %d logs lost`, failed)] as a [[]byte]. *)
Definition notice (failed : Z) : bytes :=
  list_byte_of_string ("Too many logs, " +:+ itoa failed +:+ " logs lost").

(** A buffered Go channel of [[]byte]: its queue, its capacity, and
    whether [close] was called on it. *)
Record chan := Chan { buf : list bytes; cap : nat; chclosed : bool }.

Definition make_chan (n : nat) : chan := Chan [] n false.

(** [select { case ch <- v: ... default: ... }] *)
Inductive send_result := SendOk (c : chan) | SendFull | SendPanic.

Definition try_send (c : chan) (v : bytes) : send_result :=
  if chclosed c then SendPanic
  else if (length (buf c) <? cap c)%nat
       then SendOk (Chan (buf c ++ [v]) (cap c) (chclosed c))
       else SendFull.

(** [select { case v := <-ch: ... default: ... }].  A receive on a closed
    and empty channel is always ready (it yields the zero value). *)
Inductive recv_result := RecvOk (v : bytes) (c : chan) | RecvClosed | RecvEmpty.

Definition try_recv (c : chan) : recv_result :=
  match buf c with
  | v :: rest => RecvOk v (Chan rest (cap c) (chclosed c))
  | [] => if chclosed c then RecvClosed else RecvEmpty
  end.

Definition close_chan (c : chan) : option chan :=
  if chclosed c then None else Some (Chan (buf c) (cap c) true).

Section Writer.

(** The inner [io.Writer]: its state and its [Write] method. *)
Context {Sink : Type}.
Variable sink_write : Sink -> bytes -> Sink * wresult.

(** [type asyncLogWriter struct].  [exitCh] is only ever closed, so it
    is modelled by whether it has been closed. *)
Record asyncLogWriter := Writer {
  w : Sink;
  ch : chan;
  failed : Z;
  closed : Z;
  exitCh : bool
}.

Definition set_w (s : asyncLogWriter) (x : Sink) :=
  Writer x (ch s) (failed s) (closed s) (exitCh s).
Definition set_ch (s : asyncLogWriter) (c : chan) :=
  Writer (w s) c (failed s) (closed s) (exitCh s).
Definition set_failed (s : asyncLogWriter) (z : Z) :=
  Writer (w s) (ch s) z (closed s) (exitCh s).
Definition set_closed (s : asyncLogWriter) (z : Z) :=
  Writer (w s) (ch s) (failed s) z (exitCh s).
Definition set_exitCh (s : asyncLogWriter) (b : bool) :=
  Writer (w s) (ch s) (failed s) (closed s) b.

(** The writer has not been closed: the flag is clear and the queue
    open. *)
Definition is_open (s : asyncLogWriter) : Prop :=
  closed s = 0 /\ chclosed (ch s) = false.

(** [NewAsyncLogWriter]: the struct it builds.  The goroutine it starts
    is the drain task below, at [RRecv]. *)
Definition NewAsyncLogWriter (inner : Sink) : asyncLogWriter :=
  Writer inner (make_chan 500) 0 0 false.

(** What a step does, for the statements about what reaches the sink
    and what is emitted. *)
Inductive label :=
| Tau
| LEnqueue (p : bytes)
| LDrop
| LReset (k : Z)
| LCall (p : bytes)
| LBypass (p : bytes) (r : wresult)
| LRecv (p : bytes)
| LSink (p : bytes) (r : wresult)
| LDisable
| LDiscard (p : bytes)
| LSetClosed
| LCloseCh
| LWaited
| LExit.

Definition is_set_closed (l : label) : bool :=
  match l with LSetClosed => true | _ => false end.

Definition is_close_ch (l : label) : bool :=
  match l with LCloseCh => true | _ => false end.

(** How many labels of a trace satisfy [f]. *)
Definition count_if (f : label -> bool) (tr : list label) : nat :=
  length (List.filter f tr).

(** *** [Write]

    Program points of [asyncLogWriter.Write], one per atomic operation;
    the [failed] they carry is the local variable of line 57
    ([failed0] in [wstep]). *)
Inductive wpc :=
| WEntry                 (* 50: atomic.LoadInt32(&w.closed) *)
| WSink                  (* 51: return w.w.Write(p) *)
| WLoadFailed            (* 57: failed := atomic.LoadInt32(&w.failed) *)
| WSelect (failed : Z)   (* 58-59, 71-72: the select *)
| WCas (failed : Z)      (* 61: CompareAndSwapInt32(&w.failed, failed, 0) *)
| WReload (failed : Z)   (* 62-63: the inner failed, and its test *)
| WNotice (failed : Z)   (* 67: the call w.Write(...) *)
| WAwait                 (* 67: the callee runs *)
| WStoreDisabled         (* 79: atomic.StoreInt32(&w.failed, -1) *)
| WDrain                 (* 107-113: one round of drain's loop *)
| WReturn (r : wresult). (* a return statement *)

(** An activation of [Write]: its argument and where it is. *)
Record frame := Frame { arg : bytes; pc : wpc }.

Inductive status :=
| Running (st : list frame)
| Returned (r : wresult)
| Panicked.

Definition goto (fr : frame) (rest : list frame) (p : wpc) : status :=
  Running (Frame (arg fr) p :: rest).

(** [return] with [n = len(p)] and [err = nil], line 75. *)
Definition ret_n (fr : frame) : wpc := WReturn (len (arg fr), None).

Definition wstep (s : asyncLogWriter) (st : list frame)
  : asyncLogWriter * status * label :=
  match st with
  | [] => (s, Panicked, Tau)
  | fr :: rest =>
    match pc fr with
    | WEntry =>
        if closed s =? 1 then (s, goto fr rest WSink, Tau)
        else (s, goto fr rest WLoadFailed, Tau)
    | WSink =>
        let '(w', r) := sink_write (w s) (arg fr) in
        (set_w s w', goto fr rest (WReturn r), LBypass (arg fr) r)
    | WLoadFailed =>
        let failed0 := failed s in
        if negb (failed0 =? -1) then (s, goto fr rest (WSelect failed0), Tau)
        else (s, goto fr rest (ret_n fr), Tau)
    | WSelect failed0 =>
        match try_send (ch s) (arg fr) with
        | SendOk c =>
            if failed0 >? 0
            then (set_ch s c, goto fr rest (WCas failed0), LEnqueue (arg fr))
            else (set_ch s c, goto fr rest (ret_n fr), LEnqueue (arg fr))
        | SendFull =>
            (set_failed s (wrap32 (failed s + 1)),
             goto fr rest (ret_n fr), LDrop)
        | SendPanic => (s, Panicked, Tau)
        end
    | WCas failed0 =>
        if failed s =? failed0
        then (set_failed s 0, goto fr rest (WNotice failed0), LReset failed0)
        else (s, goto fr rest (WReload failed0), Tau)
    | WReload failed0 =>
        (* [failed1] is the [failed] declared inside the loop; it shadows
           the outer one, [failed0], which the next compare-and-swap
           uses again *)
        let failed1 := failed s in
        if failed1 =? -1 then (s, goto fr rest (ret_n fr), Tau)
        else (s, goto fr rest (WCas failed0), Tau)
    | WNotice failed0 =>
        (s, Running (Frame (notice failed0) WEntry :: Frame (arg fr) WAwait :: rest),
         LCall (notice failed0))
    | WAwait => (s, Panicked, Tau)
    | WStoreDisabled => (set_failed s (-1), goto fr rest WDrain, LDisable)
    | WDrain =>
        match try_recv (ch s) with
        | RecvOk v c => (set_ch s c, goto fr rest WDrain, LDiscard v)
        | RecvClosed => (s, goto fr rest WDrain, Tau)
        | RecvEmpty => (s, goto fr rest (ret_n fr), Tau)
        end
    | WReturn r =>
        match rest with
        | [] => (s, Returned r, Tau)
        | caller :: rest' =>
            match pc caller with
            | WAwait =>
                match snd r with
                | Some _ => (s, goto caller rest' WStoreDisabled, Tau)
                | None => (s, goto caller rest' (ret_n caller), Tau)
                end
            | _ => (s, Panicked, Tau)
            end
        end
    end
  end.

(** How a call ends. *)
Inductive outcome :=
| Done (s : asyncLogWriter) (r : wresult) (tr : list label)
| Panic.

(** A call that no other goroutine interferes with. [None]: more steps
    than [fuel]. *)
Fixpoint wrun (fuel : nat) (s : asyncLogWriter) (st : list frame)
    (tr : list label) : option outcome :=
  match fuel with
  | O => None
  | S fuel' =>
      match wstep s st with
      | (s', Running st', l) => wrun fuel' s' st' (tr ++ [l])
      | (s', Returned r, l) => Some (Done s' r (tr ++ [l]))
      | (_, Panicked, _) => Some Panic
      end
  end.

(** Enough steps for any call that returns: eleven when the queue is
    open, and the rounds of [drain] otherwise. *)
Definition write_fuel (s : asyncLogWriter) : nat := 16 + length (buf (ch s)).

Definition Write (s : asyncLogWriter) (p : bytes) : option outcome :=
  wrun (write_fuel s) s [Frame p WEntry] [].

(** *** The drain task, [run]

    It blocks at [RRecv] while the queue is empty and open, and is over
    at [RDone]. *)
Inductive rpc :=
| RRecv                  (* 95: for buf := range w.ch *)
| RWrite (buf : bytes)   (* 96: w.w.Write(buf) *)
| RStoreDisabled         (* 79: atomic.StoreInt32(&w.failed, -1) *)
| RDrain                 (* 107-113: one round of drain's loop *)
| RCloseExit             (* 102: close(w.exitCh) *)
| RDone.

(** [None]: the task cannot move (blocked on the queue, or over). *)
Definition rstep (s : asyncLogWriter) (p : rpc)
  : option (asyncLogWriter * rpc * label) :=
  match p with
  | RRecv =>
      match try_recv (ch s) with
      | RecvOk v c => Some (set_ch s c, RWrite v, LRecv v)
      | RecvClosed => Some (s, RCloseExit, Tau)
      | RecvEmpty => None
      end
  | RWrite v =>
      let '(w', r) := sink_write (w s) v in
      match snd r with
      | Some _ => Some (set_w s w', RStoreDisabled, LSink v r)
      | None => Some (set_w s w', RRecv, LSink v r)
      end
  | RStoreDisabled => Some (set_failed s (-1), RDrain, LDisable)
  | RDrain =>
      match try_recv (ch s) with
      | RecvOk v c => Some (set_ch s c, RDrain, LDiscard v)
      | RecvClosed => Some (s, RDrain, Tau)
      | RecvEmpty => Some (s, RCloseExit, Tau)
      end
  | RCloseExit => Some (set_exitCh s true, RDone, LExit)
  | RDone => None
  end.

(** The task on its own, for at most [fuel] steps or until it cannot
    move. *)
Fixpoint rrun (fuel : nat) (s : asyncLogWriter) (p : rpc) (tr : list label)
  : asyncLogWriter * rpc * list label :=
  match fuel with
  | O => (s, p, tr)
  | S fuel' =>
      match rstep s p with
      | Some (s', p', l) => rrun fuel' s' p' (tr ++ [l])
      | None => (s, p, tr)
      end
  end.

(** *** [Close] *)
Inductive cpc :=
| CCas       (* 86: CompareAndSwapInt32(&w.closed, 0, 1) *)
| CCloseCh   (* 87: close(w.ch) *)
| CWait.     (* 88: <-w.exitCh *)

Inductive cstatus :=
| CRunning (p : cpc)
| CReturned (err : option error)
| CPanicked.

(** A caller blocked at [CWait] stays there. *)
Definition cstep (s : asyncLogWriter) (c : cstatus)
  : asyncLogWriter * cstatus * label :=
  match c with
  | CRunning CCas =>
      if closed s =? 0 then (set_closed s 1, CRunning CCloseCh, LSetClosed)
      else (s, CReturned None, Tau)
  | CRunning CCloseCh =>
      match close_chan (ch s) with
      | Some c' => (set_ch s c', CRunning CWait, LCloseCh)
      | None => (s, CPanicked, Tau)
      end
  | CRunning CWait =>
      if exitCh s then (s, CReturned None, LWaited)
      else (s, CRunning CWait, Tau)
  | CReturned _ | CPanicked => (s, c, Tau)
  end.

(** *** Goroutines side by side

    One drain task, and any number of callers of [Write] and of
    [Close]; a schedule names the goroutine that takes each step. *)
Record config := Config {
  shared : asyncLogWriter;
  drain : rpc;
  producers : list status;
  closers : list cstatus
}.

Inductive pick := PDrain | PWrite (i : nat) | PClose (i : nat).

Definition pstep (s : asyncLogWriter) (t : status)
  : asyncLogWriter * status * label :=
  match t with
  | Running st => wstep s st
  | _ => (s, t, Tau)
  end.

Definition step (k : pick) (c : config) : config * label :=
  match k with
  | PDrain =>
      match rstep (shared c) (drain c) with
      | Some (s', p', l) => (Config s' p' (producers c) (closers c), l)
      | None => (c, Tau)
      end
  | PWrite i =>
      match producers c !! i with
      | Some t =>
          let '(s', t', l) := pstep (shared c) t in
          (Config s' (drain c) (<[i := t']> (producers c)) (closers c), l)
      | None => (c, Tau)
      end
  | PClose i =>
      match closers c !! i with
      | Some t =>
          let '(s', t', l) := cstep (shared c) t in
          (Config s' (drain c) (producers c) (<[i := t']> (closers c)), l)
      | None => (c, Tau)
      end
  end.

Fixpoint exec (sched : list pick) (c : config) (tr : list label)
  : config * list label :=
  match sched with
  | [] => (c, tr)
  | k :: sched' => let '(c', l) := step k c in exec sched' c' (tr ++ [l])
  end.

(** A fresh writer with its drain task, [ps] calls of [Write] and [nc]
    calls of [Close] about to start. *)
Definition start (inner : Sink) (ps : list bytes) (nc : nat) : config :=
  Config (NewAsyncLogWriter inner) RRecv
         (map (fun p => Running [Frame p WEntry]) ps)
         (replicate nc (CRunning CCas)).

(** *** Calls in sequence

    [Writes s ps] issues the calls one after the other, each running
    to its return before the next starts, and nothing else running. *)
Fixpoint Writes (s : asyncLogWriter) (ps : list bytes)
  : option (asyncLogWriter * list wresult) :=
  match ps with
  | [] => Some (s, [])
  | p :: ps' =>
      match Write s p with
      | Some (Done s' r _) =>
          match Writes s' ps' with
          | Some (s'', rs) => Some (s'', r :: rs)
          | None => None
          end
      | _ => None
      end
  end.

(** A call of [Write] that found the writer not closed (it is past line
    50), among other goroutines: between two of its steps the others may
    change the writer in any way. *)
Inductive queued_path (p : bytes) : asyncLogWriter -> list frame -> Prop :=
| qp_start s : queued_path p s [Frame p WLoadFailed]
| qp_step s st s' st' l :
    queued_path p s st -> wstep s st = (s', Running st', l) ->
    queued_path p s' st'
| qp_others s s' st : queued_path p s st -> queued_path p s' st.

(** What holds of a caller of [Close], by where it is. *)
Definition closer_ok (s : asyncLogWriter) (t : cstatus) : Prop :=
  match t with
  | CRunning CCas => True
  | CRunning CCloseCh => closed s = 1
  | CRunning CWait => closed s = 1 /\ chclosed (ch s) = true
  | CReturned r => r = None /\ closed s = 1
  | CPanicked => True
  end.

(** What every execution keeps, whatever the schedule. *)
Record invariant (c : config) (tr : list label) : Prop := Invariant {
  inv_closed :
    (closed (shared c) = 0 /\ count_if is_set_closed tr = 0%nat) \/
    (closed (shared c) = 1 /\ count_if is_set_closed tr = 1%nat);
  inv_chclosed :
    (chclosed (ch (shared c)) = false /\ count_if is_close_ch tr = 0%nat) \/
    (chclosed (ch (shared c)) = true /\ count_if is_close_ch tr = 1%nat /\
     closed (shared c) = 1);
  inv_closers : Forall (closer_ok (shared c)) (closers c);
  inv_exit : exitCh (shared c) = true <-> drain c = RDone;
  inv_waited :
    LWaited ∈ tr -> exitCh (shared c) = true /\ chclosed (ch (shared c)) = true;
  inv_drain :
    match drain c with
    | RDrain => LDisable ∈ tr
    | RCloseExit | RDone =>
        LDisable ∈ tr \/ (buf (ch (shared c)) = [] /\ chclosed (ch (shared c)) = true)
    | _ => True
    end
}.

(** The order of [Close] as the specification words it: the flag is set
    only after the queue was closed and the drain task is over. *)
Definition flag_set_last (c : config) : Prop :=
  closed (shared c) = 1 ->
  chclosed (ch (shared c)) = true /\ drain c = RDone.

End Writer.

(** The payloads of the calls of [Write] made from inside [Write]. *)
Definition calls_of (tr : list label) : list bytes :=
  omap (fun l => match l with LCall p => Some p | _ => None end) tr.

(** The number of drops counted. *)
Definition drops_of (tr : list label) : nat :=
  length (omap (fun l => match l with LDrop => Some tt | _ => None end) tr).

(** *** Inner writers and schedules for the examples *)

(** An inner writer that accepts everything and keeps it. *)
Definition keep_write (kept : list bytes) (p : bytes) : list bytes * wresult :=
  (kept ++ [p], (len p, None)).

(** An inner writer that fails every call. *)
Definition broken_write (kept : list bytes) (p : bytes) : list bytes * wresult :=
  (kept, (0, Some (ErrOther 5))).

(** One byte of payload. *)
Definition dot : bytes := ["."%byte].

(** [n] calls of [Write] that do not report, one after the other: each
    takes its four steps (lines 50, 57, the select, the return). *)
Definition calls_in_turn (first n : nat) : list pick :=
  flat_map (fun i => replicate 4 (PWrite i)) (seq first n).

(** 500 calls fill the queue and 3 more are dropped; the drain task takes
    one record out; call 503 loads the count 3 and queues its record;
    call 504 loads the count, finds the queue full and counts a fourth
    loss.  Call 503 is then about to try its compare-and-swap. *)
Definition overtaken : list pick :=
  calls_in_turn 0 503 ++ [PDrain] ++
  replicate 3 (PWrite 503) ++ replicate 3 (PWrite 504).

Definition overtaken_config : config :=
  fst (exec keep_write overtaken (start [] (replicate 505 dot) 0) []).

(** An activation for the argument [p] that is past the test of line 50
    without having taken the bypass, and whose return value, if it is
    about to return, is [(len(p), nil)]. *)
Definition past_entry (p : bytes) (fr : frame) : Prop :=
  arg fr = p /\
  match pc fr with
  | WEntry | WSink => False
  | WReturn r => r = (len p, None)
  | _ => True
  end.

(** What calls that accept everything and report nothing return:
    [(len(p), nil)] for each [p]. *)
Definition accepted (ps : list bytes) : list wresult :=
  map (fun p => (len p, None)) ps.

End Async.

(** ** File names and time stamps *)

Module Naming.

Local Open Scope string_scope.

(** The backward scan of [filepath.Ext]: [Some e] when the scan stops
    inside the string, at a dot ([e] is the text from that dot) or at a
    separator ([e] is empty); [None] when it runs off the front. *)
Fixpoint ext_scan (path : string) : option string :=
  match path with
  | EmptyString => None
  | String c rest =>
      match ext_scan rest with
      | Some e => Some e
      | None =>
          if Ascii.eqb c "/" then Some ""
          else if Ascii.eqb c "." then Some path
          else None
      end
  end.

(** [filepath.Ext]. *)
Definition Ext (path : string) : string := default "" (ext_scan path).

(** [fileLogWriter.splitLogFilename]. *)
Definition splitLogFilename (logfilename : string) : string * string :=
  let ext := Ext logfilename in
  (substring 0 (String.length logfilename - String.length ext) logfilename, ext).

(** What [Format] reads of a [time.Time]: the fields of the wall clock.
    Anything finer than a second is in [nsec]. *)
Record Time := MkTime {
  year : Z; month : Z; day : Z;
  hour : Z; minute : Z; second : Z;
  nsec : Z
}.

(** A time as Go's clock gives it, with a year of four digits. *)
Definition civil (t : Time) : Prop :=
  (0 <= year t < 10000 /\ 1 <= month t <= 12 /\ 1 <= day t <= 31 /\
   0 <= hour t < 24 /\ 0 <= minute t < 60 /\ 0 <= second t < 60)%Z.

(** The order of two times, to the second. *)
Definition cmp_then (c d : comparison) : comparison :=
  match c with Eq => d | _ => c end.

Definition time_compare (t1 t2 : Time) : comparison :=
  cmp_then (year t1 ?= year t2)%Z
  (cmp_then (month t1 ?= month t2)%Z
  (cmp_then (day t1 ?= day t2)%Z
  (cmp_then (hour t1 ?= hour t2)%Z
  (cmp_then (minute t1 ?= minute t2)%Z
            (second t1 ?= second t2)%Z)))).

(** The decimal digit of [x mod 10]. *)
Definition digit (x : Z) : ascii := ascii_of_nat (48 + Z.to_nat (x mod 10)).

(** [x] in exactly [width] digits, the least significant last. *)
Fixpoint zpad (width : nat) (x : Z) : string :=
  match width with
  | O => ""
  | S w => zpad w (x / 10) ++ String (digit x) ""
  end.

(** [appendInt] of package [time]: a minus sign for a negative number,
    then its digits, padded with zeros on the left up to [width]. *)
Definition appendInt (x : Z) (width : nat) : string :=
  let u := Z.abs x in
  (if (x <? 0)%Z then "-" else "") ++
  (if (u <? 10 ^ Z.of_nat width)%Z then zpad width u else itoa u).

(** [t.Format(`2006-01-02-150405`)]. *)
Definition Format (t : Time) : string :=
  appendInt (year t) 4 ++ "-" ++ appendInt (month t) 2 ++ "-" ++
  appendInt (day t) 2 ++ "-" ++
  appendInt (hour t) 2 ++ appendInt (minute t) 2 ++ appendInt (second t) 2.

(** [fileLogWriter.newBackupFilename], for the reading [now] of the
    clock. *)
Definition newBackupFilename (logfilename : string) (now : Time) : string :=
  let ext := Ext logfilename in
  substring 0 (String.length logfilename - String.length ext) logfilename ++
  "-" ++ Format now ++ ext.

(** The directory part of a cleaned path, as [filepath.Dir] gives it. *)
Fixpoint dir_scan (path : string) : option string :=
  match path with
  | EmptyString => None
  | String c rest =>
      match dir_scan rest with
      | Some d => Some (String c d)
      | None => if Ascii.eqb c "/" then Some "" else None
      end
  end.

Definition Dir (path : string) : string :=
  match dir_scan path with
  | None => "."
  | Some "" => "/"
  | Some d => d
  end.

End Naming.

(** ** Patterns of [filepath.Match] *)

Module Glob.

Local Open Scope char_scope.

Inductive token :=
| TStar
| TAny
| TLit (c : ascii)
| TClass (negated : bool) (ranges : list (ascii * ascii)).

(** Where the scan of a pattern is. *)
Inductive pstate :=
| PTop
| PEsc
| PClassStart
| PClassLo (negated : bool) (ranges : list (ascii * ascii))
| PClassLoEsc (negated : bool) (ranges : list (ascii * ascii))
| PClassAfterLo (negated : bool) (ranges : list (ascii * ascii)) (lo : ascii)
| PClassHi (negated : bool) (ranges : list (ascii * ascii)) (lo : ascii)
| PClassHiEsc (negated : bool) (ranges : list (ascii * ascii)) (lo : ascii).

(** The scan at the start of a range, or at the end of the class: the
    test for the closing bracket and then [getEsc]. *)
Definition class_lo (negated : bool) (ranges : list (ascii * ascii)) (c : ascii)
  : option (pstate * list token) :=
  if Ascii.eqb c "]" then
    match ranges with
    | [] => None
    | _ => Some (PTop, [TClass negated ranges])
    end
  else if Ascii.eqb c "-" then None
  else if Ascii.eqb c "\" then Some (PClassLoEsc negated ranges, [])
  else Some (PClassAfterLo negated ranges c, []).

(** One character of the pattern: the next state and the tokens that
    are complete; [None] is [ErrBadPattern]. *)
Definition pscan (st : pstate) (c : ascii) : option (pstate * list token) :=
  match st with
  | PTop =>
      if Ascii.eqb c "*" then Some (PTop, [TStar])
      else if Ascii.eqb c "?" then Some (PTop, [TAny])
      else if Ascii.eqb c "[" then Some (PClassStart, [])
      else if Ascii.eqb c "\" then Some (PEsc, [])
      else Some (PTop, [TLit c])
  | PEsc => Some (PTop, [TLit c])
  | PClassStart =>
      if Ascii.eqb c "^" then Some (PClassLo true [], [])
      else class_lo false [] c
  | PClassLo negated ranges => class_lo negated ranges c
  | PClassLoEsc negated ranges => Some (PClassAfterLo negated ranges c, [])
  | PClassAfterLo negated ranges lo =>
      if Ascii.eqb c "-" then Some (PClassHi negated ranges lo, [])
      else class_lo negated (ranges ++ [(lo, lo)]) c
  | PClassHi negated ranges lo =>
      if Ascii.eqb c "]" then None
      else if Ascii.eqb c "-" then None
      else if Ascii.eqb c "\" then Some (PClassHiEsc negated ranges lo, [])
      else Some (PClassLo negated (ranges ++ [(lo, c)]), [])
  | PClassHiEsc negated ranges lo =>
      Some (PClassLo negated (ranges ++ [(lo, c)]), [])
  end.

(** The pattern as tokens; a pattern that ends inside an escape or a
    class is malformed. *)
Fixpoint parse_from (st : pstate) (pattern : string) : option (list token) :=
  match pattern with
  | EmptyString => match st with PTop => Some [] | _ => None end
  | String c rest =>
      match pscan st c with
      | None => None
      | Some (st', toks) =>
          match parse_from st' rest with
          | None => None
          | Some more => Some (toks ++ more)
          end
      end
  end.

Definition parse (pattern : string) : option (list token) :=
  parse_from PTop pattern.

Definition in_range (c : ascii) (r : ascii * ascii) : bool :=
  (N_of_ascii (fst r) <=? N_of_ascii c)%N && (N_of_ascii c <=? N_of_ascii (snd r))%N.

(** A star takes any run of characters other than the separator. *)
Fixpoint star (k : string -> bool) (name : string) : bool :=
  k name ||
  match name with
  | EmptyString => false
  | String c rest => negb (Ascii.eqb c "/") && star k rest
  end.

Fixpoint matches (toks : list token) (name : string) : bool :=
  match toks with
  | [] => match name with EmptyString => true | _ => false end
  | TStar :: toks' => star (matches toks') name
  | TAny :: toks' =>
      match name with
      | EmptyString => false
      | String c rest => negb (Ascii.eqb c "/") && matches toks' rest
      end
  | TLit c :: toks' =>
      match name with
      | EmptyString => false
      | String d rest => Ascii.eqb c d && matches toks' rest
      end
  | TClass negated ranges :: toks' =>
      match name with
      | EmptyString => false
      | String d rest =>
          negb (Bool.eqb (existsb (in_range d) ranges) negated) &&
          matches toks' rest
      end
  end.

(** [filepath.Match]: [None] is [ErrBadPattern]. *)
Definition Match (pattern name : string) : option bool :=
  match parse pattern with
  | None => None
  | Some toks => Some (matches toks name)
  end.

(** The characters with a meaning in a pattern. *)
Definition is_meta (c : ascii) : bool :=
  Ascii.eqb c "*" || Ascii.eqb c "?" || Ascii.eqb c "[" || Ascii.eqb c "\".

Fixpoint plain (s : string) : bool :=
  match s with
  | EmptyString => true
  | String c rest => negb (is_meta c) && plain rest
  end.

(** The tokens of a text without such characters. *)
Fixpoint lits (s : string) : list token :=
  match s with
  | EmptyString => []
  | String c rest => TLit c :: lits rest
  end.

Fixpoint no_separator (s : string) : bool :=
  match s with
  | EmptyString => true
  | String c rest => negb (Ascii.eqb c "/") && no_separator rest
  end.

End Glob.

(** ** The file log writer *)

Module FileLog.

Import Naming.
Local Open Scope Z_scope.

(** *** The environment

    The calls of package [os], [io] and [gzip] that the writer makes. *)
Inductive op :=
| OpOpenFile            (* os.OpenFile(path, O_APPEND|O_CREATE|O_WRONLY, ...) *)
| OpMkdirAll
| OpWrite               (* f.Write *)
| OpStat                (* f.Stat *)
| OpClose               (* f.Close *)
| OpRename (new : string)
| OpCreate
| OpOpen
| OpCopy                (* io.Copy into the gzip encoder *)
| OpGzClose             (* dest.Close of the gzip encoder *)
| OpRemove.

(** A call that was made: on which path, and the error it returned. *)
Record event := Ev { ev_op : op; ev_path : string; ev_err : option error }.

(** The file system and what else the writer sees of the world: the
    files by path and the directories; [fails], the calls that the
    environment refuses (permissions, a full disk, ...) and with which
    error; [partial], how many bytes a refused copy has written; the
    readings of the clock still to come; what was written to standard
    error; and the calls made so far. *)
Record world := World {
  files : gmap string bytes;
  dirs : gset string;
  fails : op -> string -> option error;
  partial : nat;
  clock : nat -> Time;
  reads : nat;
  stderr : list error;
  events : list event
}.

Definition set_files (wd : world) (fs : gmap string bytes) : world :=
  World fs (dirs wd) (fails wd) (partial wd) (clock wd) (reads wd)
        (stderr wd) (events wd).
Definition set_dirs (wd : world) (ds : gset string) : world :=
  World (files wd) ds (fails wd) (partial wd) (clock wd) (reads wd)
        (stderr wd) (events wd).
Definition set_reads (wd : world) (n : nat) : world :=
  World (files wd) (dirs wd) (fails wd) (partial wd) (clock wd) n
        (stderr wd) (events wd).
Definition set_stderr (wd : world) (l : list error) : world :=
  World (files wd) (dirs wd) (fails wd) (partial wd) (clock wd) (reads wd)
        l (events wd).
Definition set_events (wd : world) (l : list event) : world :=
  World (files wd) (dirs wd) (fails wd) (partial wd) (clock wd) (reads wd)
        (stderr wd) l.

(** Computations in the world. *)
Definition io (A : Type) : Type := world -> A * world.

Definition ret {A} (a : A) : io A := fun wd => (a, wd).

Definition bind {A B} (m : io A) (k : A -> io B) : io B :=
  fun wd => let '(a, wd') := m wd in k a wd'.

Notation "x <- m ;; k" := (bind m (fun x => k))
  (at level 20, m at level 99, k at level 200, right associativity).
Notation "'call' m ;; k" := (bind m (fun _ => k))
  (at level 20, m at level 99, k at level 200, right associativity).
Notation "' pat <- m ;; k" := (bind m (fun x => match x with pat => k end))
  (at level 20, pat pattern, m at level 99, k at level 200,
   right associativity).

(** A call is made: the environment may refuse it; otherwise [natural]
    is the error the state of the file system calls for, if any. *)
Definition attempt (o : op) (path : string) (natural : option error)
  : io (option error) :=
  fun wd =>
    let e := match fails wd o path with
             | Some e => Some e
             | None => natural
             end in
    (e, set_events wd (events wd ++ [Ev o path e])).

Definition update (f : gmap string bytes -> gmap string bytes) : io unit :=
  fun wd => (tt, set_files wd (f (files wd))).

Definition lookup_file (path : string) : io (option bytes) :=
  fun wd => (files wd !! path, wd).

(** [*os.File]: the name it was opened with, and whether it is open. *)
Record handle := Handle { hname : string; hopen : bool }.

Definition missing_dir (path : string) : io (option error) :=
  fun wd => (if decide (Dir path ∈ dirs wd) then None else Some ErrNotExist, wd).

(** [os.OpenFile(path, os.O_APPEND|os.O_CREATE|os.O_WRONLY, ...)] *)
Definition os_OpenFile (path : string) : io (option handle * option error) :=
  nat_err <- missing_dir path ;;
  err <- attempt OpOpenFile path nat_err ;;
  match err with
  | Some e => ret (None, Some e)
  | None =>
      call update (fun fs => match fs !! path with
                             | Some _ => fs
                             | None => <[path := []]> fs
                             end) ;;
      ret (Some (Handle path true), None)
  end.

Definition os_MkdirAll (dir : string) : io (option error) :=
  err <- attempt OpMkdirAll dir None ;;
  match err with
  | Some e => ret (Some e)
  | None => fun wd => (None, set_dirs wd ({[dir]} ∪ dirs wd))
  end.

(** What is wrong with the file behind [h], if anything. A [nil] file
    gives [ErrInvalid], a closed one [ErrClosed]. *)
Definition handle_error (h : option handle) : io (option error) :=
  match h with
  | None => ret (Some ErrInvalid)
  | Some h =>
      if hopen h then
        c <- lookup_file (hname h) ;;
        ret (match c with Some _ => None | None => Some ErrInvalid end)
      else ret (Some ErrClosed)
  end.

Definition name_of (h : option handle) : string :=
  match h with Some h => hname h | None => "" end.

(** [f.Write(p)]: all of [p] is appended, or nothing is. *)
Definition file_Write (h : option handle) (p : bytes) : io wresult :=
  nat_err <- handle_error h ;;
  err <- attempt OpWrite (name_of h) nat_err ;;
  match err with
  | Some e => ret (0, Some e)
  | None =>
      call update (fun fs => <[name_of h := default [] (fs !! name_of h) ++ p]> fs) ;;
      ret (len p, None)
  end.

(** [f.Stat()], of which the size is used. *)
Definition file_Stat (h : option handle) : io (Z * option error) :=
  nat_err <- handle_error h ;;
  err <- attempt OpStat (name_of h) nat_err ;;
  match err with
  | Some e => ret (0, Some e)
  | None =>
      c <- lookup_file (name_of h) ;;
      ret (len (default [] c), None)
  end.

(** [f.Close()]: the file is closed afterwards, error or not, unless it
    was [nil] or closed already. *)
Definition file_Close (h : option handle) : io (option handle * option error) :=
  match h with
  | None => err <- attempt OpClose "" (Some ErrInvalid) ;; ret (None, err)
  | Some h0 =>
      if hopen h0 then
        err <- attempt OpClose (hname h0) None ;;
        ret (Some (Handle (hname h0) false), err)
      else
        err <- attempt OpClose (hname h0) (Some ErrClosed) ;;
        ret (h, err)
  end.

Definition absent (path : string) : io (option error) :=
  c <- lookup_file path ;;
  ret (match c with Some _ => None | None => Some ErrNotExist end).

(** [os.Rename(old, new)] *)
Definition os_Rename (old new : string) : io (option error) :=
  nat_err <- absent old ;;
  err <- attempt (OpRename new) old nat_err ;;
  match err with
  | Some e => ret (Some e)
  | None =>
      call update (fun fs => <[new := default [] (fs !! old)]> (delete old fs)) ;;
      ret None
  end.

(** [os.Create(path)]: the file is there and empty afterwards. *)
Definition os_Create (path : string) : io (option handle * option error) :=
  nat_err <- missing_dir path ;;
  err <- attempt OpCreate path nat_err ;;
  match err with
  | Some e => ret (None, Some e)
  | None =>
      call update (fun fs => <[path := []]> fs) ;;
      ret (Some (Handle path true), None)
  end.

(** [os.Open(path)] *)
Definition os_Open (path : string) : io (option handle * option error) :=
  nat_err <- absent path ;;
  err <- attempt OpOpen path nat_err ;;
  match err with
  | Some e => ret (None, Some e)
  | None => ret (Some (Handle path true), None)
  end.

(** [os.Remove(path)] *)
Definition os_Remove (path : string) : io (option error) :=
  nat_err <- absent path ;;
  err <- attempt OpRemove path nat_err ;;
  match err with
  | Some e => ret (Some e)
  | None => call update (fun fs => delete path fs) ;; ret None
  end.

(** [hal.Now()]: the next reading of the clock. *)
Definition hal_Now : io Time :=
  fun wd => (clock wd (reads wd), set_reads wd (S (reads wd))).

(** [logError] *)
Definition logError (e : error) : io unit :=
  fun wd => (tt, set_stderr wd (stderr wd ++ [e])).

(** [sort.Strings]: Go compares strings byte by byte, as [String.le]
    does. *)
Definition sort_Strings (l : list string) : list string :=
  merge_sort String.le l.

(** [filepath.Glob]: the paths that exist and match, or [ErrBadPattern].
    Errors of the file system are ignored by [Glob]; the environment
    cannot refuse it. *)
Definition filepath_Glob (pattern : string) : io (list string * option error) :=
  fun wd =>
    match Glob.parse pattern with
    | None => (([], Some ErrBadPattern), wd)
    | Some toks =>
        ((filter (fun name => Glob.matches toks name = true)
                 (map_to_list (files wd)).*1, None), wd)
    end.

Section Writer.

(** The gzip encoding of a file, in two parts: what the encoder has
    passed on when [io.Copy] returns, and what its [Close] adds. *)
Variable gzip_body gzip_tail : bytes -> bytes.

Definition gzip (c : bytes) : bytes := gzip_body c ++ gzip_tail c.

(** [io.Copy(gzip.NewWriter(f), src)]: a refused copy leaves a part of
    the body in [f]. *)
Definition gzip_Copy (f src : string) : io (option error) :=
  nat_err <- absent src ;;
  err <- attempt OpCopy src nat_err ;;
  c <- lookup_file src ;;
  match err with
  | Some e =>
      p <- (fun wd => (partial wd, wd)) ;;
      call update (fun fs => <[f := take p (gzip_body (default [] c))]> fs) ;;
      ret (Some e)
  | None =>
      call update (fun fs => <[f := gzip_body (default [] c)]> fs) ;;
      ret None
  end.

(** [dest.Close()] of the gzip encoder writing to [f], for the content
    [c] it was given. *)
Definition gzip_Close (f : string) (c : bytes) : io (option error) :=
  err <- attempt OpGzClose f None ;;
  match err with
  | Some e => ret (Some e)
  | None => call update (fun fs => <[f := gzip c]> fs) ;; ret None
  end.

(** [type fileLogWriter struct] *)
Record fileLogWriter := FileLogWriter {
  path : string;
  f : option handle;
  maxLen : Z;
  maxFiles : Z
}.

Definition set_f (w : fileLogWriter) (h : option handle) : fileLogWriter :=
  FileLogWriter (path w) h (maxLen w) (maxFiles w).

(** The goroutines the writer starts, to run later: the one of
    [recoverPartialCompressFiles] for a file, and the one of [Write]
    after a rotation. *)
Inductive task :=
| Recover (file : string)
| Rotated (bakFile fname : string).

#[global] Instance Recover_inj : Inj (=) (=) Recover.
Proof. intros x y H. by injection H. Qed.

(** [openLogFile] *)
Definition openLogFile (path : string) : io (option handle * option error) :=
  '(f, err) <- os_OpenFile path ;;
  match err with
  | Some ErrNotExist =>
      e <- os_MkdirAll (Dir path) ;;
      match e with
      | Some _ => ret (f, err)
      | None => os_OpenFile path
      end
  | _ => ret (f, err)
  end.

(** [safeClose] *)
Definition safeClose (h : option handle) : io unit :=
  '(_, err) <- file_Close h ;;
  match err with
  | Some e => logError e
  | None => ret tt
  end.

(** [fileLogWriter.compress]; the deferred calls run before each return
    that follows their [defer], last deferred first. *)
Definition compress (logFile : string) : io (option error) :=
  let gzfile := (logFile +:+ ".gz")%string in
  '(f, err) <- os_Create gzfile ;;
  match err with
  | Some e => ret (Some e)
  | None =>
      '(src, err) <- os_Open logFile ;;
      match err with
      | Some e => call safeClose f ;; ret (Some e)
      | None =>
          c <- lookup_file logFile ;;
          err <- gzip_Copy gzfile logFile ;;
          match err with
          | Some e => call safeClose src ;; call safeClose f ;; ret (Some e)
          | None =>
              err <- gzip_Close gzfile (default [] c) ;;
              match err with
              | Some e => call safeClose src ;; call safeClose f ;; ret (Some e)
              | None =>
                  err <- os_Remove logFile ;;
                  call safeClose src ;; call safeClose f ;; ret err
              end
          end
      end
  end.

(** [fileLogWriter.getBackFiles] *)
Definition getBackFiles (logfilename suffix : string)
  : io (list string * option error) :=
  let '(base, ext) := splitLogFilename logfilename in
  '(files, err) <- filepath_Glob (base +:+ "-*" +:+ ext +:+ suffix)%string ;;
  match err with
  | Some e => ret ([], Some e)
  | None => ret (sort_Strings files, None)
  end.

Definition getCompressedFiles (logfilename : string) :=
  getBackFiles logfilename ".gz".

Definition getUncompressedFiles (logfilename : string) :=
  getBackFiles logfilename "".

(** How the loop of [cleanOldBackupFiles] ends: [Panics] is the index
    out of range it runs into when [maxFiles] is negative. *)
Inductive cleaned := Cleaned (err : option error) | Panics.

(** The loop [for i := 0; i < len(files)-w.maxFiles; i++], from index
    [i] with [rest = files[i:]], for [n] more rounds. *)
Fixpoint remove_front (n : nat) (rest : list string) : io cleaned :=
  match n with
  | O => ret (Cleaned None)
  | S n' =>
      match rest with
      | [] => ret Panics
      | file :: rest' =>
          err <- os_Remove file ;;
          match err with
          | Some e => ret (Cleaned (Some e))
          | None => remove_front n' rest'
          end
      end
  end.

(** [fileLogWriter.cleanOldBackupFiles] *)
Definition cleanOldBackupFiles (w : fileLogWriter) (logfilename : string)
  : io cleaned :=
  '(files, err) <- getCompressedFiles logfilename ;;
  match err with
  | Some e => ret (Cleaned (Some e))
  | None =>
      remove_front (Z.to_nat (Z.of_nat (length files) - maxFiles w)) files
  end.

(** [fileLogWriter.recoverPartialCompressFiles]: the goroutines it
    starts. *)
Definition recoverPartialCompressFiles (path : string) : io (list task) :=
  '(unCompressed, err) <- getUncompressedFiles path ;;
  match err with
  | Some e => call logError e ;; ret []
  | None => ret (Recover <$> unCompressed)
  end.

(** [NewFileLogWriter] *)
Definition NewFileLogWriter (path : string) (maxLen maxFiles : Z)
  : io (option fileLogWriter * option error * list task) :=
  '(f, err) <- openLogFile path ;;
  match err with
  | Some e => ret (None, Some e, [])
  | None =>
      let r := FileLogWriter path f maxLen maxFiles in
      tasks <- recoverPartialCompressFiles path ;;
      ret (Some r, None, tasks)
  end.

(** [fileLogWriter.fileSize] *)
Definition fileSize (w : fileLogWriter) : io (Z * option error) :=
  '(size, err) <- file_Stat (f w) ;;
  match err with
  | Some e => ret (0, Some e)
  | None => ret (size, None)
  end.

(** [fileLogWriter.Write]: the writer afterwards, the result, and the
    goroutine started. *)
Definition Write (w : fileLogWriter) (p : bytes)
  : io (fileLogWriter * wresult * list task) :=
  '(n, err) <- file_Write (f w) p ;;
  match err with
  | Some e => ret (w, (n, Some e), [])
  | None =>
      '(size, err) <- fileSize w ;;
      match err with
      | Some e => ret (w, (n, Some e), [])
      | None =>
          if size >=? maxLen w then
            let fname := name_of (f w) in
            '(h, err) <- file_Close (f w) ;;
            let w := set_f w h in
            match err with
            | Some e => ret (w, (n, Some e), [])
            | None =>
                now <- hal_Now ;;
                let bakFile := newBackupFilename fname now in
                now <- hal_Now ;;
                err <- os_Rename fname (newBackupFilename fname now) ;;
                match err with
                | Some e => ret (w, (n, Some e), [])
                | None =>
                    '(h, err) <- openLogFile fname ;;
                    let w := set_f w h in
                    match err with
                    | Some e => ret (w, (n, Some e), [])
                    | None => ret (w, (n, None), [Rotated bakFile fname])
                    end
                end
            end
          else ret (w, (n, None), [])
      end
  end.

(** Calls of [Write] one after the other: the results, and the
    goroutines started. *)
Fixpoint Writes (w : fileLogWriter) (ps : list bytes)
  : io (fileLogWriter * list wresult * list task) :=
  match ps with
  | [] => ret (w, [], [])
  | p :: ps' =>
      '(w1, r, ts) <- Write w p ;;
      '(w2, rs, ts') <- Writes w1 ps' ;;
      ret (w2, r :: rs, ts ++ ts')
  end.

(** What a goroutine does when it runs. *)
Definition run_task (w : fileLogWriter) (t : task) : io unit :=
  match t with
  | Recover file =>
      err <- compress file ;;
      match err with
      | Some e => logError e
      | None => ret tt
      end
  | Rotated bakFile fname =>
      err <- compress bakFile ;;
      match err with
      | Some e => logError e
      | None =>
          r <- cleanOldBackupFiles w fname ;;
          match r with
          | Cleaned (Some e) => logError e
          | _ => ret tt
          end
      end
  end.

(** Goroutines run one after the other. *)
Fixpoint run_tasks (w : fileLogWriter) (ts : list task) : io unit :=
  match ts with
  | [] => ret tt
  | t :: ts' => call run_task w t ;; run_tasks w ts'
  end.

End Writer.

(** *** Worlds for the examples *)

(** Nothing is refused. *)
Definition no_fault (o : op) (path : string) : option error := None.

(** Only the sizes matter in the examples: "compression" leaves the
    bytes as they are. *)
Definition plain_body (c : bytes) : bytes := c.
Definition plain_tail (c : bytes) : bytes := [].

Definition to_bytes (s : string) : bytes := list_byte_of_string s.

(** A clock that stands still, and one that passes from 03:04:59 to
    03:05:00 between its first two readings. *)
Definition steady_clock (n : nat) : Time := MkTime 2024 1 2 3 4 5 0.

Definition turning_clock (n : nat) : Time :=
  match n with
  | O => MkTime 2024 1 2 3 4 59 999999000
  | _ => MkTime 2024 1 2 3 5 0 1000
  end.

Definition app_log : string := "/var/log/app.log".

(** The log file holds five bytes, and the writer rotates at ten. *)
Definition five_bytes (clk : nat -> Time) : world :=
  World {[ app_log := to_bytes "hello" ]} {[ "/var/log"%string ]}
        no_fault 0 clk 0 [] [].

Definition app_writer : fileLogWriter :=
  FileLogWriter app_log (Some (Handle app_log true)) 10 2.

(** Three compressed archives, an uncompressed one, and the log file. *)
Definition three_archives : world :=
  World {[ "/var/log/app-2024-01-03-000000.log.gz"%string := to_bytes "c";
           "/var/log/app-2024-01-01-000000.log.gz"%string := to_bytes "a";
           "/var/log/app-2024-01-02-000000.log.gz"%string := to_bytes "b";
           "/var/log/app-2024-01-02-030405.log"%string := to_bytes "left over";
           app_log := to_bytes "hello" ]}
        {[ "/var/log"%string ]} no_fault 0 steady_clock 0 [] [].

End FileLog.

(** ** What a trace of the asynchronous writer says *)

Module AsyncTrace.
Import Async.

Local Open Scope Z_scope.

(** The records sent on the queue, in the order of the sends. *)
Definition enqueued (tr : list label) : list bytes :=
  omap (fun l => match l with LEnqueue p => Some p | _ => None end) tr.

(** The records the drain task passed to the inner writer. *)
Definition written (tr : list label) : list bytes :=
  omap (fun l => match l with LSink p _ => Some p | _ => None end) tr.

(** The records [drain] took out of the queue and threw away. *)
Definition discarded (tr : list label) : list bytes :=
  omap (fun l => match l with LDiscard p => Some p | _ => None end) tr.

(** The arguments of all the calls of the inner writer: those of the
    drain task and those of the callers of [Write] on a closed writer. *)
Definition delivered (tr : list label) : list bytes :=
  omap (fun l => match l with
                 | LSink p _ | LBypass p _ => Some p
                 | _ => None
                 end) tr.

(** The counts that the successful compare-and-swaps of line 61 have
    taken out of the counter, and their sum. *)
Definition resets (tr : list label) : list Z :=
  omap (fun l => match l with LReset k => Some k | _ => None end) tr.

Definition reported (tr : list label) : Z := foldr Z.add 0 (resets tr).

Definition is_disable (l : label) : bool :=
  match l with LDisable => true | _ => false end.

(** The record the drain task has received and not yet written. *)
Definition in_flight (p : rpc) : list bytes :=
  match p with RWrite v => [v] | _ => [] end.

(** An activation of the call is inside [drain]. *)
Definition draining (t : status) : Prop :=
  match t with
  | Running st => exists fr, fr ∈ st /\ pc fr = WDrain
  | _ => False
  end.

(** The drain task is inside [handleInnerWriteError]. *)
Definition handling_error (p : rpc) : Prop := p = RStoreDisabled \/ p = RDrain.

Section Sink.

Context {Sink : Type}.
Variable sink_write : Sink -> bytes -> Sink * wresult.

(** The inner writer called for each of [ps] in turn: what it has
    become, and what it returned. *)
Fixpoint sink_run (inner : Sink) (ps : list bytes) : Sink * list wresult :=
  match ps with
  | [] => (inner, [])
  | p :: ps' =>
      let '(inner', r) := sink_write inner p in
      let '(inner'', rs) := sink_run inner' ps' in
      (inner'', r :: rs)
  end.

(** What a step labelled [l] has done to the queue, to the inner writer
    and to the drain task. *)
Definition step_effect (s s' : asyncLogWriter) (dr dr' : rpc) (l : label)
  : Prop :=
  match l with
  | LEnqueue p =>
      buf (ch s') = buf (ch s) ++ [p] /\ w s' = w s /\ dr' = dr
  | LRecv v =>
      buf (ch s) = v :: buf (ch s') /\ w s' = w s /\
      dr = RRecv /\ dr' = RWrite v
  | LSink v r =>
      buf (ch s') = buf (ch s) /\ sink_write (w s) v = (w s', r) /\
      dr = RWrite v /\ in_flight dr' = []
  | LDiscard v =>
      buf (ch s) = v :: buf (ch s') /\ w s' = w s /\ dr' = dr
  | LBypass p r =>
      buf (ch s') = buf (ch s) /\ sink_write (w s) p = (w s', r) /\ dr' = dr
  | _ =>
      buf (ch s') = buf (ch s) /\ w s' = w s /\ in_flight dr' = in_flight dr
  end.

(** What the queue keeps, whatever the schedule: the records written,
    the one in flight and the ones waiting are, in this order, among the
    records queued; they are all of them as long as none was discarded;
    none is discarded, and no caller is inside [drain], before the
    writer is disabled; and the inner writer has seen the calls the
    trace shows. *)
Record delivery (inner : Sink) (c : config) (tr : list label) : Prop :=
  Delivery {
  dl_sub :
    sublist (written tr ++ in_flight (drain c) ++ buf (ch (shared c)))
            (enqueued tr);
  dl_all :
    discarded tr = [] ->
    enqueued tr = written tr ++ in_flight (drain c) ++ buf (ch (shared c));
  dl_quiet :
    LDisable ∉ tr ->
    discarded tr = [] /\ Forall (fun t => ~ draining t) (producers c);
  dl_sink : w (shared c) = fst (sink_run inner (delivered tr))
}.

(** The loss counter accounts for every drop: while the writer is not
    disabled and the counter has not wrapped around, the drops counted
    are those still in the counter and those already reported. *)
Definition accounted (c : @config Sink) (tr : list label) : Prop :=
  LDisable ∉ tr -> Z.of_nat (drops_of tr) < 2 ^ 31 ->
  0 <= failed (shared c) /\ 0 <= reported tr /\
  Z.of_nat (drops_of tr) = failed (shared c) + reported tr.

(** The queue is closed while the drain task is inside
    [handleInnerWriteError]. *)
Definition error_after_close (c : @config Sink) : Prop :=
  chclosed (ch (shared c)) = true /\ exitCh (shared c) = false /\
  handling_error (drain c).

End Sink.

(** *** Schedules for the examples *)

(** One record is queued, [Close] closes the queue, and the drain task
    then finds that the inner writer fails. *)
Definition late_error : list pick :=
  replicate 4 (PWrite 0) ++ [PClose 0; PClose 0; PDrain; PDrain].

(** A call passes the test of line 50 and loads the counter, and
    [Close] closes the queue before the call sends. *)
Definition close_overtakes : list pick :=
  [PWrite 0; PWrite 0; PClose 0; PClose 0].

End AsyncTrace.

(** ** More worlds for the examples *)

Module FileWorlds.
Import Naming FileLog.

Local Open Scope Z_scope.

(** The environment lets no directory be made. *)
Definition no_mkdir (o : op) (path : string) : option error :=
  match o with OpMkdirAll => Some (ErrOther 13) | _ => None end.


(** The environment lets no file be renamed. *)
Definition no_rename (o : op) (path : string) : option error :=
  match o with OpRename _ => Some (ErrOther 18) | _ => None end.

(** No directory at all, and none can be made. *)
Definition bare (fl : op -> string -> option error) : world :=
  World ∅ ∅ fl 0 steady_clock 0 [] [].

(** The log file of [five_bytes], with what the environment refuses. *)
Definition five_bytes_with (fl : op -> string -> option error) : world :=
  World {[ app_log := to_bytes "hello" ]} {[ "/var/log"%string ]}
        fl 0 steady_clock 0 [] [].



(** A log file without extension, with a compressed archive of an
    earlier rotation next to it. *)
Definition bare_log : string := "/var/log/app".

Definition bare_archive : world :=
  World {[ "/var/log/app-2024-01-01-000000.gz"%string := to_bytes "zipped";
           bare_log := to_bytes "hello" ]}
        {[ "/var/log"%string ]} no_fault 0 steady_clock 0 [] [].

End FileWorlds.

(** * Properties *)

Lemma wrap32_small z : (- 2 ^ 31 <= z < 2 ^ 31)%Z -> wrap32 z = z.
Proof.
  intros H. unfold wrap32. rewrite Z.mod_small; lia.
Qed.

Module AsyncFacts.
Import Async.
Local Open Scope Z_scope.

(** Case analysis on the tests a step of a machine makes, in the
    hypothesis [H] that gives its result. *)
Ltac split_step H :=
  repeat match type of H with
         | context [if ?b then _ else _] => destruct b eqn:?
         | context [match ?x with _ => _ end] => destruct x eqn:?
         end;
  simplify_eq.

Section Facts.
Context {Sink : Type}.
Variable sink_write : Sink -> bytes -> Sink * wresult.

Abbreviation Write := (Write sink_write).
Abbreviation Writes := (Writes sink_write).
Abbreviation wstep := (wstep sink_write).
Abbreviation wrun := (wrun sink_write).
Abbreviation rstep := (rstep sink_write).
Abbreviation rrun := (rrun sink_write).
Abbreviation pstep := (pstep sink_write).
Abbreviation step := (step sink_write).
Abbreviation exec := (exec sink_write).

Implicit Types (s : @asyncLogWriter Sink) (p : bytes) (c : @config Sink).

Local Arguments Nat.ltb : simpl never.

Lemma Write_bypass s p :
  closed s = 1 ->
  Write s p =
    Some (Done (set_w s (fst (sink_write (w s) p))) (snd (sink_write (w s) p))
               [Tau; LBypass p (snd (sink_write (w s) p)); Tau]).
Proof.
  intros Hc. unfold Write, write_fuel. cbn. rewrite Hc. cbn.
  destruct (sink_write (w s) p) as [w' r]. reflexivity.
Qed.

Lemma Write_disabled s p :
  closed s <> 1 -> failed s = -1 ->
  Write s p = Some (Done s (len p, None) [Tau; Tau; Tau]).
Proof.
  intros Hc Hf. unfold Write, write_fuel. cbn.
  destruct (Z.eqb_spec (closed s) 1) as [|_]; [done|]. cbn.
  rewrite Hf. reflexivity.
Qed.

Lemma try_send_room (c : chan) p :
  chclosed c = false -> (length (buf c) < cap c)%nat ->
  try_send c p = SendOk (Chan (buf c ++ [p]) (cap c) false).
Proof.
  intros Hc Hr. unfold try_send. rewrite Hc.
  destruct (Nat.ltb_spec (length (buf c)) (cap c)); [done | lia].
Qed.

Lemma try_send_full (c : chan) p :
  chclosed c = false -> (cap c <= length (buf c))%nat ->
  try_send c p = SendFull.
Proof.
  intros Hc Hr. unfold try_send. rewrite Hc.
  destruct (Nat.ltb_spec (length (buf c)) (cap c)); [lia | done].
Qed.

Lemma Write_enqueue s p :
  closed s <> 1 -> failed s <> -1 -> failed s <= 0 ->
  chclosed (ch s) = false -> (length (buf (ch s)) < cap (ch s))%nat ->
  Write s p =
    Some (Done (set_ch s (Chan (buf (ch s) ++ [p]) (cap (ch s)) false))
               (len p, None) [Tau; Tau; LEnqueue p; Tau]).
Proof.
  intros Hc Hf Hle Ho Hr. unfold Write, write_fuel. cbn.
  destruct (Z.eqb_spec (closed s) 1) as [|_]; [done|]. cbn.
  destruct (Z.eqb_spec (failed s) (-1)) as [|_]; [done|]. cbn.
  rewrite (try_send_room _ _ Ho Hr).
  destruct (Z.gtb_spec (failed s) 0) as [|_]; [lia|]. reflexivity.
Qed.

Lemma Write_drop s p :
  closed s <> 1 -> failed s <> -1 ->
  chclosed (ch s) = false -> (cap (ch s) <= length (buf (ch s)))%nat ->
  Write s p =
    Some (Done (set_failed s (wrap32 (failed s + 1)))
               (len p, None) [Tau; Tau; LDrop; Tau]).
Proof.
  intros Hc Hf Ho Hr. unfold Write, write_fuel. cbn.
  destruct (Z.eqb_spec (closed s) 1) as [|_]; [done|]. cbn.
  destruct (Z.eqb_spec (failed s) (-1)) as [|_]; [done|]. cbn.
  rewrite (try_send_full _ _ Ho Hr). reflexivity.
Qed.

(** The call that finds a loss count [k > 0] and room in the queue: the
    data is queued, the count reset, and the notice sent through a second
    call, which queues it when there is room left and counts it as the
    first new loss otherwise. *)
Lemma Write_report s p k :
  closed s <> 1 -> failed s = k -> 0 < k ->
  chclosed (ch s) = false -> (length (buf (ch s)) < cap (ch s))%nat ->
  Write s p =
    Some (if (S (length (buf (ch s))) <? cap (ch s))%nat
          then Done (Writer (w s)
                       (Chan (buf (ch s) ++ [p; notice k]) (cap (ch s)) false)
                       0 (closed s) (exitCh s))
                    (len p, None)
                    [Tau; Tau; LEnqueue p; LReset k; LCall (notice k);
                     Tau; Tau; LEnqueue (notice k); Tau; Tau]
          else Done (Writer (w s)
                       (Chan (buf (ch s) ++ [p]) (cap (ch s)) false)
                       1 (closed s) (exitCh s))
                    (len p, None)
                    [Tau; Tau; LEnqueue p; LReset k; LCall (notice k);
                     Tau; Tau; LDrop; Tau; Tau]).
Proof.
  intros Hc Hf Hk Ho Hr. unfold Write, write_fuel. cbn.
  destruct (Z.eqb_spec (closed s) 1) as [|_]; [done|]. cbn.
  destruct (Z.eqb_spec (failed s) (-1)) as [|_]; [lia|]. cbn.
  rewrite (try_send_room _ _ Ho Hr).
  destruct (Z.gtb_spec (failed s) 0) as [_|]; [|lia]. cbn.
  rewrite Z.eqb_refl. cbn.
  destruct (Z.eqb_spec (closed s) 1) as [|_]; [done|]. cbn.
  unfold try_send. cbn. rewrite length_app, Nat.add_1_r.
  destruct (S (length (buf (ch s))) <? cap (ch s))%nat eqn:E; cbn.
  - rewrite <- Hf, <- app_assoc. reflexivity.
  - rewrite <- Hf. reflexivity.
Qed.

(** *** Calls in sequence *)

Lemma Writes_app s ps1 ps2 s1 rs1 :
  Writes s ps1 = Some (s1, rs1) ->
  Writes s (ps1 ++ ps2) =
    match Writes s1 ps2 with
    | Some (s2, rs2) => Some (s2, rs1 ++ rs2)
    | None => None
    end.
Proof.
  revert s s1 rs1. induction ps1 as [|p ps1 IH]; intros s s1 rs1 H.
  - cbn in H. simplify_eq. cbn. by destruct (Async.Writes _ s1 ps2) as [[? ?]|].
  - cbn [app Async.Writes] in *.
    destruct (Async.Write _ s p) as [[s' r tr|]|]; try done.
    destruct (Async.Writes _ s' ps1) as [[s'' rs]|] eqn:E; try done.
    simplify_eq. rewrite (IH _ _ _ E).
    by destruct (Async.Writes _ s1 ps2) as [[? ?]|].
Qed.

(** While there is room, a healthy writer queues every record. *)
Lemma Writes_fill ps : forall (inner : Sink) b cp cl ex,
  cl <> 1 -> (length b + length ps <= cp)%nat ->
  Writes (Writer inner (Chan b cp false) 0 cl ex) ps =
    Some (Writer inner (Chan (b ++ ps) cp false) 0 cl ex, accepted ps).
Proof.
  induction ps as [|p ps IH]; intros inner b cp cl ex Hcl Hlen.
  - cbn. by rewrite app_nil_r.
  - cbn [length] in Hlen. cbn [Async.Writes].
    rewrite Write_enqueue; cbn [closed failed ch chclosed buf cap];
      try done; try lia.
    unfold set_ch; cbn [w ch failed closed exitCh buf cap].
    rewrite IH; [| done | rewrite length_app; cbn; lia].
    by rewrite <- app_assoc.
Qed.

(** Once the queue is full and nothing is taken out of it, every record
    is dropped and counted. *)
Lemma Writes_overflow ps : forall (inner : Sink) b cp f cl ex,
  cl <> 1 -> (cp <= length b)%nat -> 0 <= f ->
  f + Z.of_nat (length ps) < 2 ^ 31 ->
  Writes (Writer inner (Chan b cp false) f cl ex) ps =
    Some (Writer inner (Chan b cp false) (f + Z.of_nat (length ps)) cl ex,
          accepted ps).
Proof.
  induction ps as [|p ps IH]; intros inner b cp f cl ex Hcl Hfull Hf Hlt.
  - cbn. by rewrite Z.add_0_r.
  - cbn [length] in Hlt. cbn [Async.Writes].
    rewrite Write_drop; cbn [closed failed ch chclosed buf cap];
      try done; try lia.
    unfold set_failed; cbn [w ch failed closed exitCh].
    rewrite wrap32_small by lia.
    rewrite IH; try done; try lia.
    cbn [accepted map length]. do 3 f_equal. lia.
Qed.

(** A disabled writer that is still open swallows every call. *)
Lemma Writes_disabled ps s :
  closed s <> 1 -> failed s = -1 -> Writes s ps = Some (s, accepted ps).
Proof.
  intros Hc Hf. induction ps as [|p ps IH]; [done|].
  cbn [Async.Writes]. rewrite Write_disabled by done. by rewrite IH.
Qed.

(** *** The drain task *)

(** [drain] on an open queue empties it and comes back; the task then
    closes [exitCh] and is over. *)
Lemma rrun_drain b : forall (inner : Sink) cp f cl ex extra tr,
  rrun (2 + length b + extra) (Writer inner (Chan b cp false) f cl ex) RDrain tr =
    (Writer inner (Chan [] cp false) f cl true, RDone,
     tr ++ map LDiscard b ++ [Tau; LExit]).
Proof.
  induction b as [|v b IH]; intros inner cp f cl ex extra tr.
  - cbn. rewrite <- app_assoc. by destruct extra.
  - cbn [length]. replace (2 + S (length b) + extra)%nat
      with (S (2 + length b + extra)) by lia.
    cbn [Async.rrun Async.rstep try_recv ch buf]. unfold set_ch.
    cbn [ch cap chclosed w failed closed exitCh].
    rewrite IH. by rewrite <- app_assoc.
Qed.

(** On a closed queue [drain] never comes back: the receive is always
    ready, so the [default] branch is never taken. *)
Lemma drain_spins_on_closed_queue fuel : forall s tr,
  chclosed (ch s) = true -> buf (ch s) = [] ->
  rrun fuel s RDrain tr = (s, RDrain, tr ++ replicate fuel Tau).
Proof.
  induction fuel as [|fuel IH]; intros s tr Hc Hb.
  - cbn. by rewrite app_nil_r.
  - cbn [Async.rrun Async.rstep]. unfold try_recv. rewrite Hb, Hc.
    rewrite IH by done. by rewrite <- app_assoc.
Qed.

(** *** A call among other goroutines *)

Lemma wstep_keeps_outer p s upper fr s' st' l :
  past_entry p fr ->
  wstep s (upper ++ [fr]) = (s', Running st', l) ->
  exists upper' fr', st' = upper' ++ [fr'] /\ past_entry p fr'.
Proof.
  intros Hfr Hstep. destruct upper as [|top upper].
  - destruct Hfr as [Ha Hpc].
    destruct fr as [a pcv]. cbn in Ha, Hpc, Hstep. subst a.
    destruct pcv; try done; cbn in Hstep; unfold goto in Hstep;
      repeat case_match; simplify_eq;
      try (by eexists [], _; split; [reflexivity | split; cbn; done]).
    by eexists [_], _; split; [reflexivity | split; cbn; done].
  - cbn in Hstep. unfold goto in Hstep.
    destruct (pc top) eqn:Et; repeat case_match; simplify_eq;
      try (by eexists (_ :: upper), _; split; [reflexivity | done]);
      try (by eexists (_ :: _ :: upper), _; split; [reflexivity | done]).
    all: destruct upper as [|u upper]; cbn in *; simplify_eq;
      try (by eexists (_ :: upper), _; split; [reflexivity | done]).
    all: destruct Hfr as [Ha Hpc].
    all: eexists [], _; split; [reflexivity |]; split; cbn; try done.
    all: unfold ret_n; by rewrite Ha.
Qed.

Lemma wstep_outer_returns p s upper fr s' r l :
  past_entry p fr ->
  wstep s (upper ++ [fr]) = (s', Returned r, l) ->
  r = (len p, None).
Proof.
  intros Hfr Hstep. destruct upper as [|top upper].
  - destruct Hfr as [Ha Hpc].
    destruct fr as [a pcv]. cbn in Ha, Hpc, Hstep. subst a.
    destruct pcv; try done; cbn in Hstep; unfold goto in Hstep;
      repeat case_match; simplify_eq; done.
  - cbn in Hstep. unfold goto in Hstep.
    destruct (pc top); repeat case_match; simplify_eq.
    by destruct upper.
Qed.

Lemma queued_path_outer p s st :
  queued_path sink_write p s st ->
  exists upper fr, st = upper ++ [fr] /\ past_entry p fr.
Proof.
  induction 1 as [s | s st s' st' l _ (upper & fr & -> & Hfr) Hstep | s s' st _ IH].
  - by exists [], (Frame p WLoadFailed).
  - eapply wstep_keeps_outer; eauto.
  - done.
Qed.

(** *** The claims on calls in sequence *)

(** C1. A fresh writer (queue capacity 500, loss counter 0, not closed)
    whose drain task takes no step receives [500 + k] calls of [Write]:
    the queue then holds exactly the first 500 records, the loss counter
    is [k], the inner writer has not been touched, and every call has
    returned [(len(data), nil)].  [k] is a value of the [int32] counter. *)
Theorem stalled_drain_drops_overflow (inner : Sink) (ps : list bytes) (k : nat) :
  length ps = (500 + k)%nat -> Z.of_nat k < 2 ^ 31 ->
  Writes (NewAsyncLogWriter inner) ps =
    Some (Writer inner (Chan (take 500 ps) 500 false) (Z.of_nat k) 0 false,
          accepted ps).
Proof.
  intros Hlen Hk. unfold NewAsyncLogWriter, make_chan.
  rewrite <- (take_drop 500 ps) at 1.
  assert (H1 : length (take 500 ps) = 500%nat) by (rewrite length_take; lia).
  assert (H2 : length (drop 500 ps) = k) by (rewrite length_drop; lia).
  rewrite (Writes_app _ _ _ _ _ (Writes_fill (take 500 ps) inner [] 500%nat 0 false
             ltac:(lia) ltac:(cbn [length]; lia))).
  cbn [app]. rewrite Writes_overflow; try lia.
  rewrite H2, Z.add_0_l. unfold accepted.
  by rewrite <- map_app, take_drop.
Qed.

(** C3. The drain task is writing [v] and the inner writer returns an
    error, on a writer that has not been closed.  The task stores the
    DISABLED value [-1], takes every queued record out without writing
    it, closes [exitCh] and is over: it has no further step.  Every later
    call of [Write] returns [(len(data), nil)] and leaves the writer, the
    inner one included, as it was. *)
Theorem sink_error_disables_writer s v w' n e extra ps :
  is_open s ->
  sink_write (w s) v = (w', (n, Some e)) ->
  let s' := Writer w' (Chan [] (cap (ch s)) false) (-1) 0 true in
  rrun (4 + length (buf (ch s)) + extra) s (RWrite v) [] =
    (s', RDone,
     [LSink v (n, Some e); LDisable] ++ map LDiscard (buf (ch s)) ++ [Tau; LExit])
  /\ rstep s' RDone = None
  /\ Writes s' ps = Some (s', accepted ps).
Proof.
  intros [Hc Ho] Hw s'. split; [|split]; [| done | by apply Writes_disabled].
  destruct s as [inner [b cp clo] f cl ex]. cbn in Hc, Ho, Hw |- *.
  subst cl clo. rewrite Hw. cbn [snd]. unfold set_w, set_failed.
  cbn [w ch failed closed exitCh].
  apply (rrun_drain b w' cp (-1) 0 ex extra [LSink v (n, Some e); LDisable]).
Qed.

(** Every reset is a successful compare-and-swap: the count it reports
    is the value the counter held at that step, and the counter is 0
    after it. *)
Lemma reset_reports_exact_count s st s' t k :
  wstep s st = (s', t, LReset k) -> failed s = k /\ failed s' = 0.
Proof.
  intros H. destruct st as [|[a pcv] rest]; [done|].
  destruct pcv; cbn in H; unfold goto in H; repeat case_match; simplify_eq.
  split; [lia | done].
Qed.

(** C2. A writer that is not closed holds the loss count [k > 0], and a
    call of [Write] finds room in the queue.  The call queues its data,
    resets the counter to 0 and then calls [Write] once more, with the
    text "Too many logs, k logs lost": that is the only such call.  No
    drop is counted before the reset, and the counter afterwards counts
    the drops made after it: none when the notice was queued, one when
    the notice itself found the queue full.  The call returns
    [(len(data), nil)] and the inner writer is not touched.  Under any
    interleaving, a reset reports the exact value the counter held, and
    a call that was not a bypass returns [(len(data), nil)] whatever the
    call for the notice returned. *)
Theorem loss_notice_on_next_enqueue s p k :
  is_open s -> failed s = k -> 0 < k ->
  (length (buf (ch s)) < cap (ch s))%nat ->
  (exists s' tr tr2,
      Write s p = Some (Done s' (len p, None) tr)
      /\ calls_of tr = [notice k]
      /\ tr = [Tau; Tau; LEnqueue p; LReset k] ++ tr2
      /\ Z.of_nat (drops_of tr2) = failed s'
      /\ w s' = w s
      /\ ((buf (ch s') = buf (ch s) ++ [p; notice k] /\ failed s' = 0) \/
          (buf (ch s') = buf (ch s) ++ [p] /\ failed s' = 1 /\
           cap (ch s) = S (length (buf (ch s))))))
  /\ (forall s1 st s2 t k',
        wstep s1 st = (s2, t, LReset k') -> failed s1 = k' /\ failed s2 = 0)
  /\ (forall s1 st s2 r l,
        queued_path sink_write p s1 st ->
        wstep s1 st = (s2, Returned r, l) -> r = (len p, None)).
Proof.
  intros [Hc Ho] Hf Hk Hr. split; [|split].
  - rewrite (Write_report s p k) by (try done; lia).
    destruct (Nat.ltb_spec (S (length (buf (ch s)))) (cap (ch s))).
    + eexists _, _, _. split; [reflexivity|]. cbn. split; [done|].
      split; [done|]. split; [done|]. split; [done|]. by left.
    + eexists _, _, _. split; [reflexivity|]. cbn. split; [done|].
      split; [done|]. split; [done|]. split; [done|]. right.
      repeat split; try done. lia.
  - intros s1 st s2 t k'. apply reset_reports_exact_count.
  - intros s1 st s2 r l Hq Hstep.
    destruct (queued_path_outer _ _ _ Hq) as (upper & fr & -> & Hfr).
    eapply wstep_outer_returns; eauto.
Qed.

(** *** Every schedule *)

Lemma count_if_snoc f tr l :
  count_if f (tr ++ [l]) = (count_if f tr + if f l then 1 else 0)%nat.
Proof.
  unfold count_if. rewrite List.filter_app, length_app. cbn.
  by destruct (f l).
Qed.

(** A caller of [Write] changes neither the closed flag, nor whether the
    queue is closed, nor [exitCh], and adds nothing to a closed queue. *)
Lemma pstep_frame s t s' t' l :
  pstep s t = (s', t', l) ->
  closed s' = closed s /\ chclosed (ch s') = chclosed (ch s) /\
  exitCh s' = exitCh s /\
  is_set_closed l = false /\ is_close_ch l = false /\ l <> LWaited /\
  (chclosed (ch s) = true -> buf (ch s) = [] -> buf (ch s') = []).
Proof.
  intros H. destruct t as [st| |]; cbn in H; simplify_eq; [|done..].
  destruct st as [|[a pcv] rest]; cbn in H; simplify_eq; [done|].
  destruct pcv; cbn in H; unfold goto, try_send, try_recv in H;
    repeat case_match; simplify_eq; cbn; try done.
  all: repeat split; try done; congruence.
Qed.

Lemma closer_ok_mono s s' t :
  (closed s = 1 -> closed s' = 1) ->
  (chclosed (ch s) = true -> chclosed (ch s') = true) ->
  closer_ok s t -> closer_ok s' t.
Proof.
  intros H1 H2. destruct t as [[]| |]; cbn; naive_solver.
Qed.

Lemma elem_of_snoc (l x : label) tr : x ∈ tr ++ [l] <-> x ∈ tr \/ x = l.
Proof. rewrite elem_of_app. set_solver. Qed.

Lemma drain_step_invariant c tr s' (dr' : rpc) l :
  invariant c tr ->
  rstep (shared c) (drain c) = Some (s', dr', l) ->
  invariant (Config s' dr' (producers c) (closers c)) (tr ++ [l]).
Proof.
  intros [Hcl Hch Hcs Hex Hw Hd] Hstep.
  destruct c as [s dr prods clos]. cbn in *.
  assert (closed s' = closed s /\ chclosed (ch s') = chclosed (ch s) /\
          is_set_closed l = false /\ is_close_ch l = false /\ l <> LWaited)
    as (E1 & E2 & L1 & L2 & L3).
  { destruct dr; cbn in Hstep; unfold try_recv in Hstep;
      repeat case_match; simplify_eq; done. }
  constructor; cbn.
  - rewrite count_if_snoc, L1, E1, Nat.add_0_r. done.
  - rewrite count_if_snoc, L2, E1, E2, Nat.add_0_r. done.
  - eapply Forall_impl; [done|]. intros t. apply closer_ok_mono; congruence.
  - destruct dr; cbn in Hstep; unfold try_recv in Hstep;
      repeat case_match; simplify_eq; cbn; try done.
    all: split; intros; try done.
    all: try (apply Hex in H; done).
    all: try (destruct Hex as [Hex _]; by specialize (Hex ltac:(done))).
  - rewrite elem_of_snoc. intros [Hin | Heq]; [|congruence].
    destruct (Hw Hin) as [He Hc]. split; [|congruence].
    destruct Hex as [Hex _]. specialize (Hex He). subst dr. done.
  - destruct dr; cbn in Hstep; unfold try_recv in Hstep;
      repeat case_match; simplify_eq; cbn; rewrite ?elem_of_snoc; try done;
      try tauto; try (by left; right); try (by right).
    all: try (by left; left).
    all: try (by destruct Hd; [left; left | right]).
Qed.

Lemma write_step_invariant c tr i t s' t' l :
  invariant c tr ->
  producers c !! i = Some t ->
  pstep (shared c) t = (s', t', l) ->
  invariant (Config s' (drain c) (<[i := t']> (producers c)) (closers c))
            (tr ++ [l]).
Proof.
  intros [Hcl Hch Hcs Hex Hw Hd] _ Hstep.
  destruct c as [s dr prods clos]. cbn in *.
  destruct (pstep_frame _ _ _ _ _ Hstep) as (E1 & E2 & E3 & L1 & L2 & L3 & Hb).
  constructor; cbn.
  - rewrite count_if_snoc, L1, E1, Nat.add_0_r. done.
  - rewrite count_if_snoc, L2, E1, E2, Nat.add_0_r. done.
  - eapply Forall_impl; [done|]. intros u. apply closer_ok_mono; congruence.
  - by rewrite E3.
  - rewrite elem_of_snoc, E2, E3. intros [Hin | Heq]; [auto | congruence].
  - destruct dr; try done; rewrite elem_of_snoc, ?E2.
    + by left.
    + destruct Hd as [?|[? ?]]; [by left; left | right; auto].
    + destruct Hd as [?|[? ?]]; [by left; left | right; auto].
Qed.

Lemma close_step_invariant c tr i t s' t' l :
  invariant c tr ->
  closers c !! i = Some t ->
  cstep (shared c) t = (s', t', l) ->
  invariant (Config s' (drain c) (producers c) (<[i := t']> (closers c)))
            (tr ++ [l]).
Proof.
  intros [Hcl Hch Hcs Hex Hw Hd] Hi Hstep.
  destruct c as [s dr prods clos]. cbn in *.
  pose proof (Forall_lookup_1 _ _ _ _ Hcs Hi) as Ht.
  assert (Hquiet : forall u, closer_ok s u ->
            invariant (Config s dr prods (<[i := u]> clos)) (tr ++ [Tau])).
  { intros u Hu. constructor; cbn; rewrite ?count_if_snoc, ?elem_of_snoc; cbn;
      rewrite ?Nat.add_0_r; try done.
    - by apply Forall_insert.
    - intros [Hin | Heq]; [auto | done].
    - destruct dr; try done; rewrite ?elem_of_snoc; tauto. }
  destruct t as [[]| |]; cbn in Hstep, Ht; unfold close_chan in Hstep;
    split_step Hstep; try (by apply Hquiet).
  - (* the compare-and-swap succeeds *)
    assert (closed s = 0) as Hz by lia.
    destruct Hcl as [[_ Hn]|[? _]]; [|lia].
    destruct Hch as [[Hc Hm]|(_ & _ & ?)]; [|lia].
    constructor; cbn; rewrite ?count_if_snoc, ?elem_of_snoc; cbn.
    + right. split; [done | lia].
    + left. split; [done | lia].
    + apply Forall_insert; [|done].
      eapply Forall_impl; [done|]. intros u. by apply closer_ok_mono.
    + done.
    + intros [Hin | Heq]; [auto | done].
    + destruct dr; try done; rewrite ?elem_of_snoc; tauto.
  - (* the compare-and-swap fails *)
    apply Hquiet. split; [done|]. destruct Hcl as [[? _]|[? _]]; lia.
  - (* close(w.ch) *)
    destruct Hch as [[Hc Hm]|(? & _ & _)]; [|congruence].
    constructor; cbn; rewrite ?count_if_snoc, ?elem_of_snoc; cbn;
      rewrite ?Nat.add_0_r; try done.
    + right. repeat split; [lia | done].
    + apply Forall_insert; [|done].
      eapply Forall_impl; [done|]. intros u. by apply closer_ok_mono.
    + intros [Hin | Heq]; [|done]. by destruct (Hw Hin).
    + destruct dr; try done; rewrite ?elem_of_snoc; try tauto.
      all: destruct Hd as [?|[? ?]]; [by left; left | by right].
  - (* <-w.exitCh is ready *)
    destruct Ht as [Ht1 Ht2].
    constructor; cbn; rewrite ?count_if_snoc, ?elem_of_snoc; cbn;
      rewrite ?Nat.add_0_r; try done.
    all: try (by apply Forall_insert).
    all: try (destruct dr; try done; rewrite ?elem_of_snoc; tauto).
Qed.

Lemma invariant_tau c tr : invariant c tr -> invariant c (tr ++ [Tau]).
Proof.
  intros [Hcl Hch Hcs Hex Hw Hd].
  constructor; rewrite ?count_if_snoc, ?elem_of_snoc; cbn;
    rewrite ?Nat.add_0_r; try done.
  - intros [Hin | Heq]; [auto | done].
  - destruct (drain c); try done; rewrite ?elem_of_snoc; tauto.
Qed.

Lemma step_invariant k c tr c' l :
  invariant c tr -> step k c = (c', l) -> invariant c' (tr ++ [l]).
Proof.
  intros Hinv Hstep. destruct k as [|i|i]; cbn in Hstep.
  - destruct (rstep (shared c) (drain c)) as [[[s' dr'] l']|] eqn:E;
      simplify_eq; [by eapply drain_step_invariant | by apply invariant_tau].
  - destruct (producers c !! i) as [t|] eqn:E; simplify_eq;
      [| by apply invariant_tau].
    destruct (pstep (shared c) t) as [[s' t'] l'] eqn:E'. simplify_eq.
    by eapply write_step_invariant.
  - destruct (closers c !! i) as [t|] eqn:E; simplify_eq;
      [| by apply invariant_tau].
    destruct (cstep (shared c) t) as [[s' t'] l'] eqn:E'. simplify_eq.
    by eapply close_step_invariant.
Qed.

Lemma exec_invariant sched : forall c tr,
  invariant c tr ->
  invariant (fst (exec sched c tr)) (snd (exec sched c tr)).
Proof.
  induction sched as [|k sched IH]; intros c tr Hinv; [done|].
  cbn [Async.exec]. destruct (step k c) as [c' l] eqn:E.
  apply IH. by eapply step_invariant.
Qed.

Lemma start_invariant (inner : Sink) ps nc : invariant (start inner ps nc) [].
Proof.
  constructor; cbn; try (by left); try done.
  - apply Forall_forall. by intros t [-> _]%elem_of_replicate.
  - by rewrite elem_of_nil.
Qed.

(** C8, as amended. In every execution of a fresh writer with any
    callers of [Write] and of [Close], under every schedule: the closed
    flag is set at most once and the queue closed at most once, by the
    one caller whose compare-and-swap succeeded; the flag is set first,
    so a closed queue implies a set flag; a caller comes back from the
    wait on [exitCh] only when the queue is closed and the drain task is
    over, with the queue empty unless the writer was disabled; and every
    call of [Close] that has returned has returned [nil] with the flag
    set. *)
Theorem Close_sets_flag_closes_queue_waits (inner : Sink) ps nc sched :
  let c := fst (exec sched (start inner ps nc) []) in
  let tr := snd (exec sched (start inner ps nc) []) in
  (count_if is_set_closed tr <= 1)%nat
  /\ (count_if is_close_ch tr <= count_if is_set_closed tr)%nat
  /\ (chclosed (ch (shared c)) = true -> closed (shared c) = 1)
  /\ (LWaited ∈ tr ->
       closed (shared c) = 1 /\ chclosed (ch (shared c)) = true /\
       drain c = RDone /\ (LDisable ∉ tr -> buf (ch (shared c)) = []))
  /\ (forall i err,
       closers c !! i = Some (CReturned err) ->
       err = None /\ closed (shared c) = 1).
Proof.
  intros c tr.
  destruct (exec_invariant sched _ _ (start_invariant inner ps nc))
    as [Hcl Hch Hcs Hex Hw Hd].
  fold c tr in Hcl, Hch, Hcs, Hex, Hw, Hd.
  split; [|split; [|split; [|split]]].
  - destruct Hcl as [[_ ->]|[_ ->]]; lia.
  - destruct Hcl as [[? Hn]|[? Hn]], Hch as [[? Hm]|(? & Hm & ?)]; lia.
  - destruct Hch as [[? _]|(_ & _ & ?)]; [congruence | done].
  - intros Hin. destruct (Hw Hin) as [He Hc].
    destruct Hex as [Hex _]. specialize (Hex He).
    destruct Hch as [[? _]|(_ & _ & ?)]; [congruence|].
    repeat split; try done.
    intros Hno. rewrite Hex in Hd. by destruct Hd as [?|[? _]].
  - intros i err Hi. apply (Forall_lookup_1 _ _ _ _ Hcs Hi).
Qed.

(** *** The compare-and-swap loop *)

(** The caller at line 61 holds [f] and the counter holds another value
    that is not [-1]: the compare-and-swap fails, the reload is thrown
    away, and the caller is back at line 61 with [f]. *)
Lemma cas_retry_is_stale s a f rest :
  failed s <> f -> failed s <> -1 ->
  wstep s (Frame a (WCas f) :: rest) =
    (s, Running (Frame a (WReload f) :: rest), Tau)
  /\ wstep s (Frame a (WReload f) :: rest) =
    (s, Running (Frame a (WCas f) :: rest), Tau).
Proof.
  intros H1 H2. cbn. unfold goto. cbn.
  destruct (Z.eqb_spec (failed s) f); [done|].
  by destruct (Z.eqb_spec (failed s) (-1)).
Qed.

(** Alone, such a caller never leaves the loop. *)
Lemma cas_loop_spins n : forall c i a f rest tr q,
  failed (shared c) <> f -> failed (shared c) <> -1 ->
  (q = WCas f \/ q = WReload f) ->
  producers c !! i = Some (Running (Frame a q :: rest)) ->
  let c' := fst (exec (replicate n (PWrite i)) c tr) in
  shared c' = shared c /\ drain c' = drain c /\ closers c' = closers c /\
  exists q', (q' = WCas f \/ q' = WReload f) /\
    producers c' = <[i := Running (Frame a q' :: rest)]> (producers c).
Proof.
  induction n as [|n IH]; intros c i a f rest tr q H1 H2 Hq Hi.
  - cbn. repeat split; try done. exists q. split; [done|].
    by rewrite list_insert_id.
  - cbn [replicate Async.exec Async.step]. rewrite Hi. cbn [Async.pstep].
    destruct (cas_retry_is_stale (shared c) a f rest H1 H2) as [E1 E2].
    assert (exists q1, (q1 = WCas f \/ q1 = WReload f) /\
              wstep (shared c) (Frame a q :: rest) =
                (shared c, Running (Frame a q1 :: rest), Tau))
      as (q1 & Hq1 & ->).
    { destruct Hq as [-> | ->]; eauto. }
    set (c1 := Config _ _ _ _).
    destruct (IH c1 i a f rest (tr ++ [Tau]) q1) as (Es & Ed & Ec & q' & Hq' & Ep);
      try done.
    { subst c1. cbn. apply list_lookup_insert_eq. by eapply lookup_lt_Some. }
    cbn zeta. rewrite Es, Ed, Ec, Ep. subst c1. cbn.
    repeat split; try done. exists q'. split; [done|].
    by rewrite list_insert_insert_eq.
Qed.

End Facts.

(** C9. The schedule [overtaken] leads a fresh writer to a state where
    call 503 has queued its record and is about to compare-and-swap with
    the count 3 it loaded, while the counter holds 4, another call having
    dropped its record in between.  From there call 503 does not return,
    however many steps it takes: each failed compare-and-swap is retried with
    3 again, and nothing it does changes the writer. *)
Theorem cas_retry_never_returns_alone (n : nat) :
  producers overtaken_config !! 503%nat = Some (Running [Frame dot (WCas 3)])
  /\ failed (shared overtaken_config) = 4
  /\ closed (shared overtaken_config) = 0
  /\ let c' := fst (exec keep_write (replicate n (PWrite 503)) overtaken_config []) in
     shared c' = shared overtaken_config /\
     (producers c' !! 503%nat = Some (Running [Frame dot (WCas 3)]) \/
      producers c' !! 503%nat = Some (Running [Frame dot (WReload 3)])).
Proof.
  assert (H : producers overtaken_config !! 503%nat =
                Some (Running [Frame dot (WCas 3)]) /\
              failed (shared overtaken_config) = 4 /\
              closed (shared overtaken_config) = 0)
    by (vm_compute; repeat split; reflexivity).
  revert H. generalize overtaken_config. intros c (E & F & C).
  split; [exact E|]. split; [exact F|]. split; [exact C|].
  destruct (cas_loop_spins keep_write n c 503 dot 3 [] [] (WCas 3))
    as (Es & _ & _ & q' & Hq' & Ep); [lia | lia | by left | exact E |].
  cbn zeta. split; [exact Es|]. rewrite Ep.
  rewrite list_lookup_insert_eq by (by eapply lookup_lt_Some).
  destruct Hq' as [-> | ->]; auto.
Qed.

(** C1 at 502 calls: two are dropped. *)
Lemma stalled_drain_drops_overflow_witness :
  Writes keep_write (NewAsyncLogWriter []) (replicate 502 dot) =
    Some (Writer [] (Chan (take 500 (replicate 502 dot)) 500 false) 2 0 false,
          accepted (replicate 502 dot)).
Proof.
  apply (stalled_drain_drops_overflow keep_write [] (replicate 502 dot) 2);
    [reflexivity | lia].
Defined.

(** C2 on an empty queue with three losses pending. *)
Lemma loss_notice_on_next_enqueue_witness :
  let s := Writer ([] : list bytes) (Chan [] 500 false) 3 0 false in
  (exists s' tr tr2,
      Write keep_write s dot = Some (Done s' (len dot, None) tr)
      /\ calls_of tr = [notice 3]
      /\ tr = [Tau; Tau; LEnqueue dot; LReset 3] ++ tr2
      /\ Z.of_nat (drops_of tr2) = failed s'
      /\ w s' = w s
      /\ ((buf (ch s') = buf (ch s) ++ [dot; notice 3] /\ failed s' = 0) \/
          (buf (ch s') = buf (ch s) ++ [dot] /\ failed s' = 1 /\
           cap (ch s) = S (length (buf (ch s))))))
  /\ (forall s1 st s2 t k',
        wstep keep_write s1 st = (s2, t, LReset k') ->
        failed s1 = k' /\ failed s2 = 0)
  /\ (forall s1 st s2 r l,
        queued_path keep_write dot s1 st ->
        wstep keep_write s1 st = (s2, Returned r, l) -> r = (len dot, None)).
Proof.
  apply (loss_notice_on_next_enqueue keep_write
           (Writer [] (Chan [] 500 false) 3 0 false) dot 3);
    [split; reflexivity | reflexivity | lia | cbn; lia].
Defined.

(** C3 with two records queued behind the one that fails. *)
Lemma sink_error_disables_writer_witness :
  let s := Writer ([] : list bytes) (Chan [dot; dot] 500 false) 0 0 false in
  let s' := Writer ([] : list bytes) (Chan [] 500 false) (-1) 0 true in
  rrun broken_write 6 s (RWrite dot) [] =
    (s', RDone,
     [LSink dot (0, Some (ErrOther 5)); LDisable; LDiscard dot; LDiscard dot;
      Tau; LExit])
  /\ rstep broken_write s' RDone = None
  /\ Writes broken_write s' [dot; dot] = Some (s', accepted [dot; dot]).
Proof.
  apply (sink_error_disables_writer broken_write
           (Writer [] (Chan [dot; dot] 500 false) 0 0 false)
           dot [] 0 (ErrOther 5) 0%nat [dot; dot]);
    [split; reflexivity | reflexivity].
Defined.

(** C8, as stated, fails: after the first step of [Close] on a fresh
    writer the closed flag is 1 while the queue is still open and the
    drain task still waits for records. *)
Lemma Close_does_not_set_flag_last :
  ~ (forall sched,
       flag_set_last (fst (exec keep_write sched (start [] [] 1) []))).
Proof.
  intros H. specialize (H [PClose 0]). cbv in H.
  by destruct (H eq_refl) as [? _].
Qed.

End AsyncFacts.

(** ** File names and time stamps *)

Module NamingFacts.
Import Naming.
Local Open Scope string_scope.

Local Arguments String.append : simpl nomatch.

(** *** Strings *)

Lemma append_assoc (a b c : string) : (a ++ b) ++ c = a ++ (b ++ c).
Proof. induction a as [|x a IH]; cbn; [done | by rewrite IH]. Qed.

Lemma append_nil_r (a : string) : a ++ "" = a.
Proof. induction a as [|x a IH]; cbn; [done | by rewrite IH]. Qed.

Lemma length_append (a b : string) :
  String.length (a ++ b) = (String.length a + String.length b)%nat.
Proof. induction a as [|x a IH]; cbn; [done | by rewrite IH]. Qed.

Lemma substring_all (a : string) : substring 0 (String.length a) a = a.
Proof. induction a as [|x a IH]; cbn; [done | by rewrite IH]. Qed.

Lemma substring_append_l (a b : string) :
  substring 0 (String.length a) (a ++ b) = a.
Proof.
  induction a as [|x a IH]; cbn; [by destruct b | by rewrite IH].
Qed.

Lemma append_neq_self (a b : string) : b <> "" -> a ++ b <> a.
Proof.
  intros Hb E. apply (f_equal String.length) in E.
  rewrite length_append in E. destruct b; [done | cbn in E; lia].
Qed.

Lemma ascii_compare_refl (c : ascii) : Ascii.compare c c = Eq.
Proof. apply N.compare_refl. Qed.

Lemma compare_refl (s : string) : String.compare s s = Eq.
Proof.
  induction s as [|c s IH]; cbn; [done | by rewrite ascii_compare_refl].
Qed.

Lemma compare_app_prefix (p a b : string) :
  String.compare (p ++ a) (p ++ b) = String.compare a b.
Proof.
  induction p as [|c p IH]; cbn; [done | by rewrite ascii_compare_refl].
Qed.

Lemma cmp_then_match (c d : comparison) :
  match c with Eq => d | Lt => Lt | Gt => Gt end = cmp_then c d.
Proof. by destruct c. Qed.

Lemma cmp_then_assoc (a b c : comparison) :
  cmp_then (cmp_then a b) c = cmp_then a (cmp_then b c).
Proof. by destruct a. Qed.

Lemma cmp_then_Eq_r (a : comparison) : cmp_then a Eq = a.
Proof. by destruct a. Qed.

(** Two strings of one length in front: they decide, and what follows
    is looked at only when they are equal. *)
Lemma compare_app_same_length (a1 a2 b1 b2 : string) :
  String.length a1 = String.length a2 ->
  String.compare (a1 ++ b1) (a2 ++ b2) =
    cmp_then (String.compare a1 a2) (String.compare b1 b2).
Proof.
  revert a2. induction a1 as [|c a1 IH]; intros [|d a2] Hlen; try done.
  cbn in *. destruct (Ascii.compare c d); try done. apply IH. lia.
Qed.

Lemma string_lt_le (a b : string) :
  String.compare a b = Lt -> String.le a b /\ a <> b.
Proof.
  intros H. split.
  - unfold String.le, String.leb. by rewrite H.
  - intros ->. by rewrite compare_refl in H.
Qed.

(** *** Extensions *)

Lemma ext_scan_suffix (path e : string) :
  ext_scan path = Some e -> exists b, path = b ++ e.
Proof.
  revert e. induction path as [|c path IH]; intros e; cbn; [done|].
  destruct (ext_scan path) as [e'|].
  - intros [= <-]. destruct (IH e' eq_refl) as [b ->]. by exists (String c b).
  - destruct (Ascii.eqb c "/").
    + intros [= <-]. exists (String c path). by rewrite append_nil_r.
    + destruct (Ascii.eqb c "."); [|done]. intros [= <-]. by exists "".
Qed.

(** [splitLogFilename] cuts the name in two. *)
Lemma splitLogFilename_join (logfilename : string) :
  fst (splitLogFilename logfilename) ++ snd (splitLogFilename logfilename) =
    logfilename.
Proof.
  unfold splitLogFilename, Ext. cbn.
  destruct (ext_scan logfilename) as [e|] eqn:E; cbn.
  - destruct (ext_scan_suffix _ _ E) as [b ->].
    rewrite length_append, Nat.add_sub, substring_append_l. done.
  - by rewrite Nat.sub_0_r, substring_all, append_nil_r.
Qed.

Lemma newBackupFilename_split (logfilename : string) (now : Time) :
  newBackupFilename logfilename now =
    fst (splitLogFilename logfilename) ++ "-" ++ Format now ++
    snd (splitLogFilename logfilename).
Proof. done. Qed.

(** *** Time stamps *)

Lemma digit_compare (x y : Z) :
  Ascii.compare (digit x) (digit y) = (x mod 10 ?= y mod 10)%Z.
Proof.
  unfold digit.
  assert (Hx := Z.mod_pos_bound x 10 ltac:(lia)).
  assert (Hy := Z.mod_pos_bound y 10 ltac:(lia)).
  generalize dependent (x mod 10)%Z. generalize dependent (y mod 10)%Z.
  intros b Hb a Ha.
  assert (a = 0 \/ a = 1 \/ a = 2 \/ a = 3 \/ a = 4 \/ a = 5 \/ a = 6 \/
          a = 7 \/ a = 8 \/ a = 9)%Z as Ea by lia.
  assert (b = 0 \/ b = 1 \/ b = 2 \/ b = 3 \/ b = 4 \/ b = 5 \/ b = 6 \/
          b = 7 \/ b = 8 \/ b = 9)%Z as Eb by lia.
  clear Ha Hb.
  repeat (destruct Ea as [->|Ea]); try subst a;
    repeat (destruct Eb as [->|Eb]); try subst b; reflexivity.
Qed.

Lemma zpad_length (w : nat) : forall x, String.length (zpad w x) = w.
Proof.
  induction w as [|w IH]; intros x; cbn; [done|].
  rewrite length_append, IH. cbn. lia.
Qed.

Lemma compare_digits (a b : Z) (R : comparison) :
  (0 <= a)%Z -> (0 <= b)%Z ->
  cmp_then (a / 10 ?= b / 10)%Z (cmp_then (a mod 10 ?= b mod 10)%Z R) =
    cmp_then (a ?= b)%Z R.
Proof.
  intros Ha Hb.
  assert (Ea := Z.div_mod a 10 ltac:(lia)).
  assert (Eb := Z.div_mod b 10 ltac:(lia)).
  assert (Ma := Z.mod_pos_bound a 10 ltac:(lia)).
  assert (Mb := Z.mod_pos_bound b 10 ltac:(lia)).
  destruct (Z.compare_spec (a / 10) (b / 10)),
           (Z.compare_spec (a mod 10) (b mod 10)),
           (Z.compare_spec a b); cbn; try done; lia.
Qed.

(** Numbers in the same number of digits compare as their digits do. *)
Lemma zpad_compare (w : nat) : forall (x y : Z) (r1 r2 : string),
  (0 <= x)%Z -> (0 <= y)%Z ->
  String.compare (zpad w x ++ r1) (zpad w y ++ r2) =
    cmp_then (x mod 10 ^ Z.of_nat w ?= y mod 10 ^ Z.of_nat w)%Z
             (String.compare r1 r2).
Proof.
  induction w as [|w IH]; intros x y r1 r2 Hx Hy.
  - cbn. by rewrite !Z.mod_1_r.
  - cbn [zpad]. rewrite !append_assoc.
    rewrite IH by (apply Z.div_pos; lia). cbn [append String.compare].
    rewrite digit_compare.
    rewrite cmp_then_match.
    rewrite Nat2Z.inj_succ, Z.pow_succ_r by lia.
    set (m := (10 ^ Z.of_nat w)%Z). assert (0 < m)%Z by (subst m; lia).
    rewrite <- (compare_digits (x mod (10 * m)) (y mod (10 * m)))
      by (apply Z.mod_pos_bound; lia).
    assert (D : forall z, (0 <= z)%Z ->
              ((z mod (10 * m)) / 10 = (z / 10) mod m /\
               (z mod (10 * m)) mod 10 = z mod 10)%Z).
    { intros z Hz. rewrite Z.rem_mul_r by lia.
      assert (Hr := Z.mod_pos_bound z 10 ltac:(lia)).
      split; symmetry.
      - apply (Z.div_unique_pos _ _ _ (z mod 10)); lia.
      - apply (Z.mod_unique_pos _ _ ((z / 10) mod m)); lia. }
    destruct (D x Hx) as [-> ->]. destruct (D y Hy) as [-> ->]. done.
Qed.

Lemma appendInt_zpad (x : Z) (w : nat) :
  (0 <= x < 10 ^ Z.of_nat w)%Z -> appendInt x w = zpad w x.
Proof.
  intros Hx. unfold appendInt.
  destruct (Z.ltb_spec x 0); [lia|].
  rewrite Z.abs_eq by lia.
  destruct (Z.ltb_spec x (10 ^ Z.of_nat w)); [done | lia].
Qed.

(** The text of a time stamp, for a time of the clock. *)
Lemma Format_civil (t : Time) :
  civil t ->
  Format t =
    zpad 4 (year t) ++ "-" ++ zpad 2 (month t) ++ "-" ++ zpad 2 (day t) ++
    "-" ++ zpad 2 (hour t) ++ zpad 2 (minute t) ++ zpad 2 (second t).
Proof.
  intros (Hy & Hm & Hd & Hh & Hmi & Hs). unfold Format.
  rewrite !appendInt_zpad by (cbn; lia). done.
Qed.

(** Time stamps of times of the clock compare as the times do: the
    order of the names is the order in time. *)
Lemma Format_compare (t1 t2 : Time) (r1 r2 : string) :
  civil t1 -> civil t2 ->
  String.compare (Format t1 ++ r1) (Format t2 ++ r2) =
    cmp_then (time_compare t1 t2) (String.compare r1 r2).
Proof.
  intros H1 H2. rewrite !Format_civil by done.
  destruct H1 as (Hy1 & Hm1 & Hd1 & Hh1 & Hmi1 & Hs1).
  destruct H2 as (Hy2 & Hm2 & Hd2 & Hh2 & Hmi2 & Hs2).
  unfold time_compare. rewrite !append_assoc.
  repeat (rewrite zpad_compare by lia;
          rewrite !Z.mod_small by (cbn; lia);
          rewrite ?cmp_then_assoc;
          try (f_equal; []);
          cbn [append String.compare Ascii.compare N_of_ascii N_of_digits];
          rewrite ?N.compare_refl).
  done.
Qed.

(** The names of two archives of one log file compare as the times they
    were made at. *)
Lemma newBackupFilename_compare (logfilename sfx : string) (t1 t2 : Time) :
  civil t1 -> civil t2 ->
  String.compare (newBackupFilename logfilename t1 ++ sfx)
                 (newBackupFilename logfilename t2 ++ sfx) =
    time_compare t1 t2.
Proof.
  intros H1 H2. unfold newBackupFilename.
  rewrite !append_assoc, compare_app_prefix. cbn [append String.compare].
  rewrite ascii_compare_refl, Format_compare by done.
  by rewrite compare_refl, cmp_then_Eq_r.
Qed.

End NamingFacts.

(** ** Patterns *)

Module GlobFacts.
Import Naming Glob NamingFacts.
Local Open Scope string_scope.

Local Arguments String.append : simpl nomatch.

Lemma plain_app (a b : string) : plain (a ++ b) = plain a && plain b.
Proof.
  induction a as [|c a IH]; cbn; [done|]. rewrite IH. by destruct (is_meta c).
Qed.

Lemma no_separator_app (a b : string) :
  no_separator (a ++ b) = no_separator a && no_separator b.
Proof.
  induction a as [|c a IH]; cbn; [done|]. rewrite IH.
  by destruct (Ascii.eqb c "/").
Qed.

Lemma lits_app (a b : string) : lits (a ++ b) = (lits a ++ lits b)%list.
Proof. induction a as [|c a IH]; cbn; [done | by rewrite IH]. Qed.

(** A text without special characters stands for itself. *)
Lemma parse_plain (s rest : string) :
  plain s = true ->
  parse_from PTop (s ++ rest) =
    match parse_from PTop rest with
    | Some toks => Some (lits s ++ toks)%list
    | None => None
    end.
Proof.
  induction s as [|c s IH]; cbn.
  - intros _. by destruct (parse_from PTop rest).
  - unfold is_meta. intros H.
    destruct (Ascii.eqb c "*"), (Ascii.eqb c "?"), (Ascii.eqb c "["),
      (Ascii.eqb c "\"); try done.
    cbn in H. rewrite (IH H). by destruct (parse_from PTop rest).
Qed.

(** The pattern of [getBackFiles]. *)
Lemma parse_archive_pattern (base ext suffix : string) :
  plain base = true -> plain ext = true -> plain suffix = true ->
  parse (base ++ "-*" ++ ext ++ suffix) =
    Some (lits (base ++ "-") ++ TStar :: lits (ext ++ suffix))%list.
Proof.
  intros Hb He Hs. unfold parse.
  change "-*" with ("-" ++ "*"). rewrite !append_assoc.
  rewrite <- (append_assoc base "-").
  rewrite parse_plain by (rewrite plain_app, Hb; done).
  change ("*" ++ ext ++ suffix) with (String "*" (ext ++ suffix)).
  cbn [parse_from pscan]. cbn [Ascii.eqb Bool.eqb].
  rewrite <- (append_nil_r (ext ++ suffix)) at 1.
  rewrite parse_plain by (rewrite plain_app, He, Hs; done).
  cbn. by rewrite app_nil_r.
Qed.

Lemma matches_lits_exact (s name : string) :
  matches (lits s) name = true <-> name = s.
Proof.
  revert name. induction s as [|c s IH]; intros [|d name]; cbn; try done.
  rewrite andb_true_iff, IH, Ascii.eqb_eq. split; [by intros [-> ->] |].
  by intros [= -> ->].
Qed.

Lemma matches_lits_prefix (s : string) (toks : list token) (name : string) :
  matches (lits s ++ toks) name = true <->
  exists rest, name = s ++ rest /\ matches toks rest = true.
Proof.
  revert name. induction s as [|c s IH]; intros name; cbn.
  - split; [by exists name | by intros (? & -> & ?)].
  - destruct name as [|d name].
    + split; [done | by intros (? & ? & ?)].
    + rewrite andb_true_iff, IH, Ascii.eqb_eq. split.
      * intros [-> (rest & -> & H)]. by exists rest.
      * intros (rest & [= -> ->] & H). split; [done | by exists rest].
Qed.

Lemma star_spec (k : string -> bool) (name : string) :
  star k name = true <->
  exists mid rest,
    name = mid ++ rest /\ no_separator mid = true /\ k rest = true.
Proof.
  induction name as [|c name IH]; cbn.
  - rewrite orb_false_r. split.
    + intros H. by exists "", "".
    + intros (mid & rest & E & _ & H). destruct mid, rest; try done.
  - rewrite orb_true_iff, andb_true_iff, IH. split.
    + intros [H | [Hc (mid & rest & -> & Hm & H)]].
      * by exists "", (String c name).
      * exists (String c mid), rest. cbn. by rewrite Hc, Hm.
    + intros (mid & rest & E & Hm & H). destruct mid as [|d mid].
      * cbn in E. subst rest. by left.
      * cbn in E, Hm. injection E as -> ->. apply andb_true_iff in Hm as [Hc Hm].
        right. split; [done|]. by exists mid, rest.
Qed.

(** What the pattern of [getBackFiles] matches: the names that start
    and end as the pattern does, with no separator in between. *)
Lemma matches_archive (pre post name : string) :
  matches (lits pre ++ TStar :: lits post) name = true <->
  exists mid, name = pre ++ mid ++ post /\ no_separator mid = true.
Proof.
  rewrite matches_lits_prefix. cbn [matches]. split.
  - intros (rest & -> & (mid & rest' & -> & Hm & ->%matches_lits_exact)%star_spec).
    by exists mid.
  - intros (mid & -> & Hm). exists (mid ++ post). split; [done|].
    apply star_spec. exists mid, post. by rewrite matches_lits_exact.
Qed.

(** Time stamps have no separator in them. *)
Lemma digit_no_separator (x : Z) : Ascii.eqb (digit x) "/" = false.
Proof.
  unfold digit.
  assert (Hx := Z.mod_pos_bound x 10 ltac:(lia)).
  generalize dependent (x mod 10)%Z. intros a Ha.
  assert (a = 0 \/ a = 1 \/ a = 2 \/ a = 3 \/ a = 4 \/ a = 5 \/ a = 6 \/
          a = 7 \/ a = 8 \/ a = 9)%Z as Ea by lia.
  clear Ha. repeat (destruct Ea as [->|Ea]); try subst a; reflexivity.
Qed.

Lemma zpad_no_separator (w : nat) : forall x, no_separator (zpad w x) = true.
Proof.
  induction w as [|w IH]; intros x; cbn; [done|].
  rewrite no_separator_app, IH. cbn. by rewrite digit_no_separator.
Qed.

Lemma Format_no_separator (t : Time) :
  civil t -> no_separator (Format t) = true.
Proof.
  intros H. rewrite Format_civil by done.
  rewrite !no_separator_app, !zpad_no_separator. done.
Qed.

(** *** Directories *)

Lemma ext_scan_None (s : string) : ext_scan s = None -> no_separator s = true.
Proof.
  induction s as [|c s IH]; cbn; [done|].
  destruct (ext_scan s); [done|].
  destruct (Ascii.eqb c "/"); [done|].
  destruct (Ascii.eqb c "."); [done|]. intros _. by apply IH.
Qed.

Lemma ext_scan_no_separator (s e : string) :
  ext_scan s = Some e -> no_separator e = true.
Proof.
  revert e. induction s as [|c s IH]; intros e; cbn; [done|].
  destruct (ext_scan s) as [e'|] eqn:E.
  - intros [= <-]. by apply IH.
  - destruct (Ascii.eqb c "/") eqn:Ec; [by intros [= <-]|].
    destruct (Ascii.eqb c "."); [|done]. intros [= <-]. cbn.
    by rewrite Ec, ext_scan_None.
Qed.

(** An extension has no separator in it. *)
Lemma Ext_no_separator (path : string) : no_separator (Ext path) = true.
Proof.
  unfold Ext. destruct (ext_scan path) as [e|] eqn:E; [|done].
  by eapply ext_scan_no_separator.
Qed.

Lemma dir_scan_no_separator (s : string) :
  no_separator s = true -> dir_scan s = None.
Proof.
  induction s as [|c s IH]; cbn; [done|].
  destruct (Ascii.eqb c "/"); [done|]. cbn. intros H. by rewrite IH.
Qed.

Lemma dir_scan_app (base s : string) :
  no_separator s = true -> dir_scan (base ++ s) = dir_scan base.
Proof.
  intros H. induction base as [|c base IH]; cbn.
  - by apply dir_scan_no_separator.
  - by rewrite IH.
Qed.

(** An archive and its compressed form are in the directory of the log
    file. *)
Lemma Dir_archive (logfilename sfx : string) (t : Time) :
  civil t -> no_separator sfx = true ->
  Dir (newBackupFilename logfilename t ++ sfx) = Dir logfilename.
Proof.
  intros Ht Hs. unfold Dir.
  rewrite <- (splitLogFilename_join logfilename) at 2.
  rewrite newBackupFilename_split, !append_assoc.
  rewrite !dir_scan_app; [done | apply Ext_no_separator |].
  cbn [splitLogFilename snd].
  change ("-" ++ Format t ++ Ext logfilename ++ sfx)
    with (String "-" (Format t ++ Ext logfilename ++ sfx)).
  cbn [no_separator Ascii.eqb Bool.eqb negb andb].
  by rewrite !no_separator_app, Format_no_separator, Ext_no_separator, Hs.
Qed.

End GlobFacts.

(** ** The file log writer *)

Module FileLogFacts.
Import Naming Glob FileLog NamingFacts GlobFacts.
Local Open Scope Z_scope.

Lemma gz_name_differs (logFile : string) : logFile +:+ ".gz" <> logFile.
Proof. by apply append_neq_self. Qed.

(** Runs the calls of the environment as far as they go. *)
Ltac io_red :=
  cbv beta iota zeta delta
    [bind ret attempt update lookup_file absent missing_dir
     os_Create os_Open os_Remove os_Rename os_OpenFile os_MkdirAll
     file_Write file_Stat file_Close handle_error safeClose logError hal_Now
     gzip_Copy gzip_Close fileSize openLogFile
     files dirs fails partial clock reads stderr events
     set_files set_dirs set_reads set_stderr set_events
     fst snd hname hopen name_of].

Ltac io_red_in H :=
  cbv beta iota zeta delta
    [bind ret attempt update lookup_file absent missing_dir
     os_Create os_Open os_Remove os_Rename os_OpenFile os_MkdirAll
     file_Write file_Stat file_Close handle_error safeClose logError hal_Now
     gzip_Copy gzip_Close fileSize openLogFile
     files dirs fails partial clock reads stderr events
     set_files set_dirs set_reads set_stderr set_events
     fst snd hname hopen name_of] in H.

(** Closes a case of [compress]: the calls made are read off, and what
    is asked of them and of the files follows. *)
Ltac finish_compress :=
  eexists; (split; [rewrite <- ?app_assoc; reflexivity|]);
  cbn [app];
  rewrite ?lookup_insert_ne by done;
  rewrite ?lookup_delete_eq, ?lookup_insert_eq;
  repeat split; try done;
  try (intros ?; rewrite ?elem_of_cons, ?elem_of_nil; naive_solver);
  try (rewrite ?elem_of_cons, ?elem_of_nil; naive_solver);
  try (let He := fresh in
       intros He; rewrite ?elem_of_cons, ?elem_of_nil in He; naive_solver).

(** C5. What [compress] does to the archive [logFile], whatever the
    environment refuses.  The calls it makes come after those already
    made.  If it calls [os.Remove] on the archive at all, then the calls
    before were, in this order and each without error: the creation of
    the [.gz] file, the opening of the archive, the copy into the
    encoder and the [Close] of the encoder.  If it returns [nil] the
    archive is gone and the [.gz] file holds the encoding of all it
    held.  If it returns an error the archive is as it was before the
    call. *)
Theorem compress_removes_source_last
    (gzip_body gzip_tail : bytes -> bytes) (logFile : string) (wd : world) :
  let gzfile := logFile +:+ ".gz" in
  let err := fst (compress gzip_body gzip_tail logFile wd) in
  let wd' := snd (compress gzip_body gzip_tail logFile wd) in
  exists new,
    events wd' = events wd ++ new
    /\ (forall e, Ev OpRemove logFile e ∈ new ->
         exists closes,
           new = [Ev OpCreate gzfile None; Ev OpOpen logFile None;
                  Ev OpCopy logFile None; Ev OpGzClose gzfile None;
                  Ev OpRemove logFile e] ++ closes)
    /\ (err = None ->
         exists c, files wd !! logFile = Some c
           /\ files wd' !! logFile = None
           /\ files wd' !! gzfile = Some (gzip gzip_body gzip_tail c)
           /\ Ev OpRemove logFile None ∈ new)
    /\ (err <> None ->
         files wd' !! logFile = files wd !! logFile
         /\ Ev OpRemove logFile None ∉ new).
Proof.
  intros gzfile err wd'. subst err wd'.
  pose proof (gz_name_differs logFile) as Hne. fold gzfile in Hne.
  destruct wd as [fs ds fl pt ck rd se evs].
  unfold FileLog.compress. fold gzfile. io_red.
  (* os.Create *)
  destruct (fl OpCreate gzfile) as [e1|] eqn:F1; io_red; [finish_compress|].
  destruct (decide (Dir gzfile ∈ ds)) as [Hd|Hd]; io_red; [|finish_compress].
  (* os.Open *)
  rewrite lookup_insert_ne by done.
  destruct (fl OpOpen logFile) as [e2|] eqn:F2; io_red.
  { destruct (fl OpClose gzfile); io_red; finish_compress. }
  destruct (fs !! logFile) as [c|] eqn:Hc; io_red.
  2: { destruct (fl OpClose gzfile); io_red; finish_compress. }
  (* io.Copy *)
  rewrite !lookup_insert_ne by done. rewrite Hc. io_red.
  destruct (fl OpCopy logFile) as [e3|] eqn:F3; io_red.
  { destruct (fl OpClose logFile), (fl OpClose gzfile); io_red;
      finish_compress. }
  (* dest.Close *)
  destruct (fl OpGzClose gzfile) as [e4|] eqn:F4; io_red.
  { destruct (fl OpClose logFile), (fl OpClose gzfile); io_red;
      finish_compress. }
  (* os.Remove *)
  rewrite !lookup_insert_ne by done. rewrite Hc. io_red.
  destruct (fl OpRemove logFile) as [e5|] eqn:F5; io_red.
  { destruct (fl OpClose logFile), (fl OpClose gzfile); io_red;
      finish_compress. }
  destruct (fl OpClose logFile), (fl OpClose gzfile); io_red.
  all: eexists; (split; [rewrite <- ?app_assoc; reflexivity|]); cbn [app].
  all: split; [intros ?; rewrite ?elem_of_cons, ?elem_of_nil; naive_solver|].
  all: split; [|done].
  all: intros _; exists c; split; [done|].
  all: rewrite lookup_delete_eq, lookup_delete_ne by done.
  all: rewrite insert_insert_eq, lookup_insert_eq.
  all: split; [done|]; split; [done|].
  all: rewrite ?elem_of_cons; naive_solver.
Qed.

(** *** Listing and pruning the archives *)

Lemma elem_of_keys (m : gmap string bytes) (x : string) :
  x ∈ (map_to_list m).*1 <-> is_Some (m !! x).
Proof.
  rewrite list_elem_of_fmap. split.
  - intros ([k v] & -> & H%elem_of_map_to_list). by exists v.
  - intros [v H]. exists (x, v). split; [done|]. by apply elem_of_map_to_list.
Qed.

(** The names that [getBackFiles] lists, for the tokens of its
    pattern. *)
Lemma getBackFiles_unfold (logfilename suffix : string) (wd : world) :
  getBackFiles logfilename suffix wd =
    (match parse (fst (splitLogFilename logfilename) +:+ "-*" +:+
                  snd (splitLogFilename logfilename) +:+ suffix) with
     | None => ([], Some ErrBadPattern)
     | Some toks =>
         (sort_Strings (filter (fun name => matches toks name = true)
                               (map_to_list (files wd)).*1), None)
     end, wd).
Proof.
  unfold getBackFiles. destruct (splitLogFilename logfilename) as [base ext].
  unfold filepath_Glob, bind, ret. cbn [fst snd].
  by destruct (parse _).
Qed.

Lemma listing_elem (toks : list token) (fs : gmap string bytes) (x : string) :
  x ∈ sort_Strings (filter (fun name => matches toks name = true)
                           (map_to_list fs).*1) <->
  matches toks x = true /\ is_Some (fs !! x).
Proof.
  unfold sort_Strings. rewrite merge_sort_Permutation.
  by rewrite list_elem_of_filter, elem_of_keys.
Qed.

Lemma listing_NoDup (toks : list token) (fs : gmap string bytes) :
  NoDup (sort_Strings (filter (fun name => matches toks name = true)
                              (map_to_list fs).*1)).
Proof.
  unfold sort_Strings. rewrite merge_sort_Permutation.
  apply NoDup_filter, NoDup_fst_map_to_list.
Qed.

Lemma listing_sorted (l : list string) : StronglySorted String.le (sort_Strings l).
Proof. apply StronglySorted_merge_sort; apply _. Qed.

(** A sorted list without repetition is the listing of what it holds. *)
Lemma sort_Strings_unique (l k : list string) :
  NoDup l -> NoDup k -> StronglySorted String.le k ->
  (forall x, x ∈ l <-> x ∈ k) -> sort_Strings l = k.
Proof.
  intros Hl Hk Hs Hin. apply (StronglySorted_unique String.le).
  - apply listing_sorted.
  - done.
  - unfold sort_Strings. rewrite merge_sort_Permutation.
    by apply NoDup_Permutation.
Qed.

(** The loop of [cleanOldBackupFiles] on files that are there and that
    the environment lets it remove: they are removed, and nothing else
    changes but the record of the calls. *)
Lemma remove_front_ok (n : nat) : forall (rest : list string) (wd : world),
  (n <= length rest)%nat -> NoDup rest ->
  (forall x, x ∈ take n rest ->
     is_Some (files wd !! x) /\ fails wd OpRemove x = None) ->
  exists wd',
    remove_front n rest wd = (Cleaned None, wd')
    /\ (forall x, files wd' !! x =
                    if decide (x ∈ take n rest) then None else files wd !! x)
    /\ fails wd' = fails wd /\ dirs wd' = dirs wd
    /\ events wd' =
         events wd ++ map (fun x => Ev OpRemove x None) (take n rest).
Proof.
  induction n as [|n IH]; intros rest wd Hn Hnd Hok.
  - exists wd. cbn. rewrite app_nil_r. repeat split; done.
  - destruct rest as [|file rest]; [cbn in Hn; lia|].
    apply NoDup_cons in Hnd as [Hfile Hnd]. cbn [take] in Hok.
    destruct (Hok file ltac:(left)) as [[c Hc] Hf].
    destruct wd as [fs ds fl pt ck rd se evs]. cbn in Hc, Hf.
    assert (Hstep :
      remove_front (S n) (file :: rest) (World fs ds fl pt ck rd se evs) =
      remove_front n rest (World (delete file fs) ds fl pt ck rd se
                             (evs ++ [Ev OpRemove file None]))).
    { cbn [remove_front]. io_red. rewrite Hf, Hc. by io_red. }
    rewrite Hstep.
    edestruct (IH rest (World (delete file fs) ds fl pt ck rd se
                          (evs ++ [Ev OpRemove file None])))
      as (wd' & E & Hfiles & Hfl & Hds & Hev).
    { cbn in Hn. lia. }
    { done. }
    { intros x Hx. cbn. split.
      - rewrite lookup_delete_ne.
        + apply (Hok x). by right.
        + intros ->. apply Hfile. by eapply subseteq_take.
      - apply (Hok x). by right. }
    exists wd'. split; [exact E|]. split; [|split; [done|split; [done|]]].
    + intros x. rewrite Hfiles. cbn [files take].
      destruct (decide (x = file)) as [->|Hx].
      * rewrite lookup_delete_eq.
        destruct (decide (file ∈ file :: take n rest)) as [_|Hd];
          [by case_decide | exfalso; apply Hd; left].
      * rewrite lookup_delete_ne by done.
        do 2 case_decide; try done; set_solver.
    + rewrite Hev. cbn. by rewrite <- app_assoc.
Qed.

(** Names in ascending order, the first before the second and not the
    same: the first is strictly smaller. *)
Lemma le_neq_compare (a b : string) :
  String.le a b -> a <> b -> String.compare a b = Lt.
Proof.
  unfold String.le, String.leb. intros Hle Hne.
  destruct (String.compare a b) eqn:E; try done.
  by apply String.compare_eq_iff in E.
Qed.

(** C6. A pruning pass on a listing that succeeds, with [maxFiles] not
    negative and the environment letting the listed files be removed.
    The listing is in ascending order of names.  The pass removes, from
    the front of it, all but the last [maxFiles] names, and nothing
    else; the listing afterwards is what is left, at most [maxFiles]
    names, each greater than every name removed.  For archives named
    after times of the clock, greater means later: the ones left are the
    most recent.  When the base name and the extension have no pattern
    characters in them, the listing is exactly the existing files named
    base, dash, anything without a separator, extension, [.gz]. *)
Theorem cleanOldBackupFiles_keeps_newest
    (w : fileLogWriter) (logfilename : string) (wd : world)
    (listing : list string) :
  getCompressedFiles logfilename wd = ((listing, None), wd) ->
  0 <= maxFiles w ->
  (forall x, x ∈ listing -> fails wd OpRemove x = None) ->
  let k := (length listing - Z.to_nat (maxFiles w))%nat in
  let base := fst (splitLogFilename logfilename) in
  let ext := snd (splitLogFilename logfilename) in
  exists wd',
    cleanOldBackupFiles w logfilename wd = (Cleaned None, wd')
    /\ StronglySorted String.le listing
    /\ events wd' =
         events wd ++ map (fun x => Ev OpRemove x None) (take k listing)
    /\ (forall x, files wd' !! x =
           if decide (x ∈ take k listing) then None else files wd !! x)
    /\ getCompressedFiles logfilename wd' = ((drop k listing, None), wd')
    /\ length (drop k listing) =
         Nat.min (length listing) (Z.to_nat (maxFiles w))
    /\ (forall a b, a ∈ take k listing -> b ∈ drop k listing ->
           String.le a b /\ a <> b)
    /\ (forall t1 t2, civil t1 -> civil t2 ->
           newBackupFilename logfilename t1 +:+ ".gz" ∈ take k listing ->
           newBackupFilename logfilename t2 +:+ ".gz" ∈ drop k listing ->
           time_compare t1 t2 = Lt)
    /\ (plain base = true -> plain ext = true ->
         forall x, x ∈ listing <->
           is_Some (files wd !! x) /\
           exists mid, x = base +:+ "-" +:+ mid +:+ ext +:+ ".gz" /\
                       no_separator mid = true).
Proof.
  intros Hlist Hmax Hfl k base ext.
  unfold getCompressedFiles in *. rewrite getBackFiles_unfold in Hlist.
  fold base ext in Hlist.
  destruct (parse (base +:+ "-*" +:+ ext +:+ ".gz")) as [toks|] eqn:Hparse;
    [|done].
  injection Hlist as Hlist.
  assert (Hnd : NoDup listing) by (rewrite <- Hlist; apply listing_NoDup).
  assert (Hsorted : StronglySorted String.le listing)
    by (rewrite <- Hlist; apply listing_sorted).
  assert (Hin : forall x, x ∈ listing <->
            matches toks x = true /\ is_Some (files wd !! x))
    by (intros x; rewrite <- Hlist; apply listing_elem).
  assert (Hk : (k <= length listing)%nat) by (subst k; lia).
  destruct (remove_front_ok k listing wd Hk Hnd) as (wd' & E & Hfiles & _ & _ & Hev).
  { intros x Hx%subseteq_take. split; [by apply Hin | by apply Hfl]. }
  rewrite <- (take_drop k listing) in Hnd, Hsorted.
  apply NoDup_app in Hnd as (Hnd1 & Hdisj & Hnd2).
  assert (Horder : forall a b, a ∈ take k listing -> b ∈ drop k listing ->
            String.le a b /\ a <> b).
  { intros a b Ha Hb. split.
    - by eapply StronglySorted_app_1_elem_of.
    - intros ->. by eapply Hdisj. }
  exists wd'. split; [|split; [|split; [|split; [|split; [|split; [|split;
    [|split]]]]]]]; try done.
  - unfold cleanOldBackupFiles, getCompressedFiles, bind.
    rewrite getBackFiles_unfold. fold base ext. rewrite Hparse, Hlist.
    replace (Z.to_nat (Z.of_nat (length listing) - maxFiles w)) with k
      by (subst k; lia).
    exact E.
  - by rewrite <- (take_drop k listing).
  - rewrite getBackFiles_unfold. fold base ext. rewrite Hparse.
    do 2 f_equal. apply sort_Strings_unique.
    + apply NoDup_filter, NoDup_fst_map_to_list.
    + done.
    + by eapply StronglySorted_app_1_r.
    + intros x. rewrite list_elem_of_filter, elem_of_keys, Hfiles.
      assert (x ∈ listing <-> x ∈ take k listing \/ x ∈ drop k listing) as Hsplit
        by (by rewrite <- elem_of_app, take_drop).
      rewrite Hin in Hsplit. case_decide as Hx.
      * split; [by intros [_ [? ?]] | intros Hd; by destruct (Hdisj x)].
      * tauto.
  - rewrite length_drop. subst k. lia.
  - intros t1 t2 H1 H2 Ha Hb. destruct (Horder _ _ Ha Hb) as [Hle Hne].
    rewrite <- (newBackupFilename_compare logfilename ".gz") by done.
    by apply le_neq_compare.
  - intros Hb He x. rewrite Hin.
    unfold parse in Hparse.
    pose proof (parse_archive_pattern base ext ".gz" Hb He eq_refl) as Hp.
    unfold parse in Hp. rewrite Hparse in Hp. injection Hp as ->.
    rewrite matches_archive. split.
    + intros [(mid & -> & Hm) Hs]. split; [|exists mid; split; [|done]].
      * by rewrite !append_assoc in Hs |- *.
      * by rewrite !append_assoc.
    + intros [Hs (mid & -> & Hm)]. split; [exists mid; split; [|done]|].
      * by rewrite !append_assoc.
      * done.
Qed.

(** *** Writing and rotating *)

Lemma newBackupFilename_length (logfilename : string) (now : Time) :
  String.length (newBackupFilename logfilename now) =
    (String.length logfilename + 1 + String.length (Format now))%nat.
Proof.
  rewrite newBackupFilename_split.
  rewrite <- (splitLogFilename_join logfilename) at 3.
  rewrite !length_append. cbn. lia.
Qed.

(** An archive never has the name of its log file. *)
Lemma newBackupFilename_neq (logfilename : string) (now : Time) :
  newBackupFilename logfilename now <> logfilename.
Proof.
  intros E. apply (f_equal String.length) in E.
  rewrite newBackupFilename_length in E. lia.
Qed.

(** C4. A call of [Write] on an open file holding [c] that returns no
    error.  It has appended [p] and then read the size.  When the size
    is below [maxLen] that is all: no other call is made, no goroutine
    started, the writer is unchanged.  When the size has reached
    [maxLen] there is one rotation: after the append and the [Stat] come
    one [Close] of the file, one [Rename] of it to an archive name, and
    then only the calls of [openLogFile] on the original path;
    afterwards the archive holds all the bytes, the file at the original
    path is empty and is the open file of the writer, every other file
    is as before, and one goroutine was started. *)
Theorem Write_rotates_at_maxLen
    (w : fileLogWriter) (p : bytes) (wd : world) (h : handle) (c : bytes)
    (w' : fileLogWriter) (n : Z) (tasks : list task) (wd' : world) :
  f w = Some h -> hopen h = true -> files wd !! hname h = Some c ->
  Write w p wd = ((w', (n, None), tasks), wd') ->
  let fname := hname h in
  let bakFile := newBackupFilename fname (clock wd (reads wd)) in
  let archive := newBackupFilename fname (clock wd (S (reads wd))) in
  n = len p
  /\ (len c + len p < maxLen w ->
       w' = w /\ tasks = []
       /\ files wd' = <[fname := c ++ p]> (files wd)
       /\ events wd' =
            events wd ++ [Ev OpWrite fname None; Ev OpStat fname None])
  /\ (maxLen w <= len c + len p ->
       exists opens,
         events wd' =
           events wd ++
           [Ev OpWrite fname None; Ev OpStat fname None;
            Ev OpClose fname None; Ev (OpRename archive) fname None] ++ opens
         /\ (forall e, e ∈ opens ->
               ev_path e = fname /\ ev_op e = OpOpenFile \/ ev_op e = OpMkdirAll)
         /\ files wd' !! fname = Some []
         /\ files wd' !! archive = Some (c ++ p)
         /\ (forall x, x <> fname -> x <> archive ->
               files wd' !! x = files wd !! x)
         /\ w' = set_f w (Some (Handle fname true))
         /\ tasks = [Rotated bakFile fname]).
Proof.
  intros Hf Ho Hc HW fname bakFile archive. subst fname bakFile archive.
  destruct w as [pth fh mL mF], h as [nm op0], wd as [fs ds fl pt ck rd se evs].
  cbn in Hf, Ho, Hc |- *. subst fh op0.
  pose proof (newBackupFilename_neq nm (ck (S rd))) as Hne.
  assert (Hlen : len (c ++ p) = len c + len p)
    by (unfold len; rewrite length_app; lia).
  revert HW. unfold Write. io_red. cbn [f maxLen].

  rewrite Hc. io_red.
  destruct (fl OpWrite nm) as [e1|] eqn:F1; io_red; [by intros [=]|].
  repeat (rewrite lookup_insert_eq || rewrite Hc).
  cbn [from_option]. unfold id. io_red.
  destruct (fl OpStat nm) as [e2|] eqn:F2; io_red; [by intros [=]|].
  repeat (rewrite lookup_insert_eq || rewrite Hc).
  cbn [from_option]. unfold id. io_red.
  rewrite Hlen.
  destruct (Z.geb_spec (len c + len p) mL) as [Hge|Hlt].
  2: { intros [= <- <- <- <-]. split; [done|]. split; [|intros; lia].
       intros _. repeat split; try done. cbn. by rewrite <- app_assoc. }
  io_red.
  destruct (fl OpClose nm) as [e3|] eqn:F3; io_red; [by intros [=]|].
  generalize dependent (newBackupFilename nm (ck (S rd))). intros archive Hne.
  generalize (newBackupFilename nm (ck rd)). intros bakFile.
  destruct (fl (OpRename archive) nm) as [e4|] eqn:F4; io_red;
    [by intros [=]|].
  repeat (rewrite lookup_insert_eq || rewrite Hc).
  cbn [from_option]. io_red.
  (* openLogFile *)
  assert (Hfresh : (<[archive:=c ++ p]> (delete nm (<[nm:=c ++ p]> fs))) !! nm
                   = None)
    by (by rewrite lookup_insert_ne, lookup_delete_eq).
  destruct (fl OpOpenFile nm) as [e5|] eqn:F5; io_red.
  { destruct e5; io_red; try (by intros [=]).
    destruct (fl OpMkdirAll (Dir nm)); io_red; [by intros [=]|].
    rewrite F5. io_red. by intros [=]. }
  destruct (decide (Dir nm ∈ ds)) as [Hd|Hd]; io_red.
  - rewrite Hfresh. intros [= <- <- <- <-].
    split; [done|]. split; [intros; lia|]. intros _.
    eexists. split; [rewrite <- !app_assoc; reflexivity|]. cbn [app files].
    split; [intros e ->%list_elem_of_singleton; by left|].
    split; [by rewrite lookup_insert_eq|].
    split; [by rewrite lookup_insert_ne, lookup_insert_eq|].
    split; [|done].
    intros x Hx1 Hx2.
    by rewrite !lookup_insert_ne, lookup_delete_ne, lookup_insert_ne.
  - destruct (fl OpMkdirAll (Dir nm)); io_red; [by intros [=]|].
    rewrite F5. io_red.
    destruct (decide (Dir nm ∈ {[Dir nm]} ∪ ds)) as [_|Hd']; [|set_solver].
    io_red. rewrite Hfresh. intros [= <- <- <- <-].
    split; [done|]. split; [intros; lia|]. intros _.
    eexists. split; [rewrite <- !app_assoc; reflexivity|]. cbn [app files].
    split.
    { intros e. rewrite !elem_of_cons, elem_of_nil.
      intros [->|[->|[->|[]]]]; cbn; auto. }
    split; [by rewrite lookup_insert_eq|].
    split; [by rewrite lookup_insert_ne, lookup_insert_eq|].
    split; [|done].
    intros x Hx1 Hx2.
    by rewrite !lookup_insert_ne, lookup_delete_ne, lookup_insert_ne.
Qed.

(** A write that keeps the size below [maxLen], the environment
    refusing neither the append nor the [Stat]: nothing else happens. *)
Lemma Write_below_maxLen
    (w : fileLogWriter) (p : bytes) (wd : world) (h : handle) (c : bytes) :
  f w = Some h -> hopen h = true -> files wd !! hname h = Some c ->
  fails wd OpWrite (hname h) = None -> fails wd OpStat (hname h) = None ->
  len c + len p < maxLen w ->
  Write w p wd =
    ((w, (len p, None), []),
     set_events (set_files wd (<[hname h := c ++ p]> (files wd)))
       (events wd ++ [Ev OpWrite (hname h) None; Ev OpStat (hname h) None])).
Proof.
  intros Hf Ho Hc F1 F2 Hlt.
  destruct w as [pth fh mL mF], h as [nm op0], wd as [fs ds fl pt ck rd se evs].
  cbn in Hf, Ho, Hc, F1, F2, Hlt |- *. subst fh op0.
  assert (Hlen : len (c ++ p) = len c + len p)
    by (unfold len; rewrite length_app; lia).
  unfold Write. io_red. cbn [f maxLen]. rewrite Hc. io_red. rewrite F1. io_red.
  repeat (rewrite lookup_insert_eq || rewrite Hc).
  cbn [from_option]. unfold id. io_red. rewrite F2. io_red.
  repeat (rewrite lookup_insert_eq || rewrite Hc).
  cbn [from_option]. unfold id. io_red. rewrite Hlen.
  destruct (Z.geb_spec (len c + len p) mL) as [Hge|_]; [lia|].
  by rewrite <- app_assoc.
Qed.

(** Writes whose sizes add up to less than [maxLen]: every one is
    accepted, the file grows by all of them, and the only calls made are
    the appends and the [Stat]s; no rotation, no goroutine. *)
Lemma Writes_below_maxLen (ps : list bytes) :
  forall (w : fileLogWriter) (wd : world) (h : handle) (c : bytes),
  f w = Some h -> hopen h = true -> files wd !! hname h = Some c ->
  fails wd OpWrite (hname h) = None -> fails wd OpStat (hname h) = None ->
  len c + len (concat ps) < maxLen w ->
  exists wd',
    Writes w ps wd = ((w, Async.accepted ps, []), wd')
    /\ files wd' = <[hname h := c ++ concat ps]> (files wd)
    /\ events wd' =
         events wd ++
         flat_map (fun _ => [Ev OpWrite (hname h) None;
                             Ev OpStat (hname h) None]) ps.
Proof.
  induction ps as [|p ps IH]; intros w wd h c Hf Ho Hc F1 F2 Hlt.
  - exists wd. cbn. rewrite !app_nil_r. repeat split; try done.
    by rewrite insert_id.
  - cbn [concat] in Hlt.
    assert (Hlen : len (p ++ concat ps) = len p + len (concat ps))
      by (unfold len; rewrite length_app; lia).
    assert (0 <= len (concat ps)) by (unfold len; lia).
    cbn [Writes]. unfold bind.
    rewrite (Write_below_maxLen w p wd h c) by (try done; lia).
    edestruct (IH w (set_events (set_files wd (<[hname h:=c ++ p]> (files wd)))
                       (events wd ++ [Ev OpWrite (hname h) None;
                                      Ev OpStat (hname h) None]))
                 h (c ++ p)) as (wd' & E & Hfiles & Hev); try done.
    { cbn. by rewrite lookup_insert_eq. }
    { assert (len (c ++ p) = len c + len p)
        by (unfold len; rewrite length_app; lia). lia. }
    exists wd'. rewrite E. split; [done|]. split.
    + rewrite Hfiles. cbn. by rewrite insert_insert_eq, <- app_assoc.
    + rewrite Hev. cbn. by rewrite <- app_assoc.
Qed.

(** *** Recovery at construction *)

(** With nothing refused, [compress] on an archive that is there, in a
    directory that is there, replaces it by its compressed form. *)
Lemma compress_ok (gzip_body gzip_tail : bytes -> bytes)
    (logFile : string) (wd : world) (c : bytes) :
  (forall o x, fails wd o x = None) ->
  Dir (logFile +:+ ".gz") ∈ dirs wd ->
  files wd !! logFile = Some c ->
  exists wd',
    compress gzip_body gzip_tail logFile wd = (None, wd')
    /\ files wd' =
         delete logFile
           (<[logFile +:+ ".gz" := gzip gzip_body gzip_tail c]> (files wd))
    /\ stderr wd' = stderr wd /\ dirs wd' = dirs wd /\ fails wd' = fails wd.
Proof.
  intros Hfl Hd Hc.
  pose proof (gz_name_differs logFile) as Hne.
  destruct wd as [fs ds fl pt ck rd se evs]. cbn in Hfl, Hd, Hc.
  eexists. split.
  - unfold FileLog.compress. io_red. rewrite ?Hfl.
    destruct (decide (Dir (logFile +:+ ".gz") ∈ ds)) as [_|]; [|done].
    io_red. rewrite ?Hfl. rewrite !lookup_insert_ne by done. rewrite Hc.
    io_red. rewrite ?Hfl. rewrite !lookup_insert_ne by done. rewrite Hc.
    io_red. rewrite ?Hfl. rewrite !lookup_insert_ne by done. rewrite Hc.
    io_red. rewrite ?Hfl. io_red. reflexivity.
  - cbn. by rewrite !insert_insert_eq.
Qed.

(** With nothing refused, [openLogFile] opens the file, making the
    directory when it is missing; files that are there stay as they
    are. *)
Lemma openLogFile_ok (path : string) (wd : world) :
  (forall o x, fails wd o x = None) ->
  exists wd',
    openLogFile path wd = ((Some (Handle path true), None), wd')
    /\ (forall x c, files wd !! x = Some c -> files wd' !! x = Some c)
    /\ (forall x, x <> path -> files wd' !! x = files wd !! x)
    /\ is_Some (files wd' !! path)
    /\ Dir path ∈ dirs wd'
    /\ fails wd' = fails wd /\ stderr wd' = stderr wd.
Proof.
  intros Hfl. destruct wd as [fs ds fl pt ck rd se evs]. cbn in Hfl.
  assert (Hkeep : forall x c, fs !! x = Some c ->
            match fs !! path with Some _ => fs | None => <[path:=[]]> fs end
              !! x = Some c).
  { intros x c Hx. destruct (fs !! path) eqn:E; [done|].
    rewrite lookup_insert_ne; [done | congruence]. }
  assert (Hother : forall x, x <> path ->
            match fs !! path with Some _ => fs | None => <[path:=[]]> fs end
              !! x = fs !! x).
  { intros x Hx. destruct (fs !! path) eqn:E; [done|].
    by rewrite lookup_insert_ne. }
  assert (Hthere : is_Some
            (match fs !! path with Some _ => fs | None => <[path:=[]]> fs end
               !! path)).
  { destruct (fs !! path) eqn:E; [by rewrite E|].
    by rewrite lookup_insert_eq. }
  unfold openLogFile. io_red. rewrite ?Hfl.
  destruct (decide (Dir path ∈ ds)) as [Hd|Hd]; io_red.
  - eexists. split; [reflexivity|]. cbn. repeat split; done.
  - rewrite ?Hfl. io_red. rewrite ?Hfl.
    destruct (decide (Dir path ∈ {[Dir path]} ∪ ds)) as [_|]; [|set_solver].
    io_red. eexists. split; [reflexivity|]. cbn. repeat split; try done.
    set_solver.
Qed.

(** C7. Construction in a world where nothing is refused, for a path
    whose base name and extension have no pattern characters, with an
    uncompressed archive of that path, named after a time of the clock,
    already there.  The file is opened; then one goroutine is started
    for each existing file named base, dash, anything without a
    separator, extension, and for nothing else: the archive is one of
    them.  When its goroutine runs, with no call of [Write], the archive
    is replaced by its compressed form and nothing is reported. *)
Theorem NewFileLogWriter_recovers_archive
    (gzip_body gzip_tail : bytes -> bytes)
    (path : string) (mL mF : Z) (wd : world) (t : Time) (c : bytes) :
  (forall o x, fails wd o x = None) ->
  plain (fst (splitLogFilename path)) = true ->
  plain (snd (splitLogFilename path)) = true ->
  civil t ->
  let base := fst (splitLogFilename path) in
  let ext := snd (splitLogFilename path) in
  let archive := newBackupFilename path t in
  files wd !! archive = Some c ->
  exists w tasks wd1,
    NewFileLogWriter path mL mF wd = ((Some w, None, tasks), wd1)
    /\ f w = Some (Handle path true)
    /\ NoDup tasks
    /\ (forall tk, tk ∈ tasks -> exists x, tk = Recover x)
    /\ (forall x, Recover x ∈ tasks <->
           is_Some (files wd1 !! x) /\
           exists mid, x = base +:+ "-" +:+ mid +:+ ext /\
                       no_separator mid = true)
    /\ Recover archive ∈ tasks
    /\ exists wd2,
         run_task gzip_body gzip_tail w (Recover archive) wd1 = (tt, wd2)
         /\ files wd2 !! archive = None
         /\ files wd2 !! (archive +:+ ".gz") =
              Some (gzip gzip_body gzip_tail c)
         /\ stderr wd2 = stderr wd1.
Proof.
  intros Hfl Hb He Ht base ext archive Hc.
  destruct (openLogFile_ok path wd Hfl)
    as (wd1 & Hopen & Hkeep & _ & _ & Hdir & Hfl1 & _).
  pose proof (parse_archive_pattern base ext "" Hb He eq_refl) as Hparse.
  set (toks := (lits (base +:+ "-") ++ TStar :: lits (ext +:+ ""))%list) in *.
  set (listing := sort_Strings (filter (fun name => matches toks name = true)
                                       (map_to_list (files wd1)).*1)).
  assert (Hin : forall x, x ∈ listing <->
            is_Some (files wd1 !! x) /\
            exists mid, x = base +:+ "-" +:+ mid +:+ ext /\
                        no_separator mid = true).
  { intros x. subst listing toks. rewrite listing_elem, matches_archive.
    rewrite append_nil_r. split.
    - intros [(mid & -> & Hm) Hs]. rewrite !append_assoc in Hs |- *.
      split; [done|]. by exists mid.
    - intros [Hs (mid & -> & Hm)]. split; [|done].
      exists mid. by rewrite !append_assoc. }
  assert (Harch : archive ∈ listing).
  { apply Hin. split; [by rewrite (Hkeep _ _ Hc)|].
    exists (Format t). split; [done|]. by apply Format_no_separator. }
  exists (FileLogWriter path (Some (Handle path true)) mL mF),
    (Recover <$> listing), wd1.
  split; [|split; [done|split; [|split; [|split; [|split]]]]].
  - unfold NewFileLogWriter, bind. rewrite Hopen.
    unfold recoverPartialCompressFiles, getUncompressedFiles, bind.
    rewrite getBackFiles_unfold. fold base ext. rewrite Hparse. done.
  - apply (NoDup_fmap_2 _). subst listing. apply listing_NoDup.
  - intros tk (x & -> & _)%list_elem_of_fmap. by exists x.
  - intros x. by rewrite (list_elem_of_fmap_inj Recover).
  - by apply list_elem_of_fmap_2.
  - destruct (compress_ok gzip_body gzip_tail archive wd1 c)
      as (wd2 & E & Hfiles & Hse & _ & _).
    + by rewrite Hfl1.
    + subst archive. rewrite Dir_archive; done.
    + by apply Hkeep.
    + exists wd2. split; [|split; [|split]]; try done.
      * unfold FileLog.run_task, bind. by rewrite E.
      * by rewrite Hfiles, lookup_delete_eq.
      * rewrite Hfiles, lookup_delete_ne, lookup_insert_eq; [done|].
        intros E'. by apply (gz_name_differs archive).
Qed.

(** *** The archive name is computed twice *)

(** Two readings of the clock give one archive name exactly when they
    agree to the second. *)
Lemma newBackupFilename_same_iff (logfilename : string) (t1 t2 : Time) :
  civil t1 -> civil t2 ->
  newBackupFilename logfilename t1 = newBackupFilename logfilename t2 <->
  time_compare t1 t2 = Eq.
Proof.
  intros H1 H2.
  rewrite <- (newBackupFilename_compare logfilename "" t1 t2 H1 H2).
  rewrite !append_nil_r. split.
  - intros ->. apply compare_refl.
  - apply String.compare_eq_iff.
Qed.

(** C10. The log file holds five bytes, the writer rotates at ten, and
    six bytes are written while the clock passes from 03:04:59 to
    03:05:00 between its two readings.  The call succeeds.  The file was
    renamed to the name of the second reading, and the goroutine was
    given the name of the first, which no file has.  When the goroutine
    runs, [compress] creates an empty [.gz] file under the first name,
    fails to open the archive and reports it; the archive the rename made
    stays uncompressed. *)
Theorem rotation_reads_clock_twice :
  let r := Write app_writer (to_bytes "world!") (five_bytes turning_clock) in
  let w' := fst (fst (fst r)) in
  let tasks := snd (fst r) in
  let wd' := snd r in
  let after := snd (run_tasks plain_body plain_tail w' tasks wd') in
  let first := "/var/log/app-2024-01-02-030459.log"%string in
  let second := "/var/log/app-2024-01-02-030500.log"%string in
  snd (fst (fst r)) = (6, None)
  /\ newBackupFilename app_log (turning_clock 0) = first
  /\ newBackupFilename app_log (turning_clock 1) = second
  /\ tasks = [Rotated first app_log]
  /\ files wd' !! first = None
  /\ files wd' !! second = Some (to_bytes "helloworld!")
  /\ stderr after = [ErrNotExist]
  /\ files after !! second = Some (to_bytes "helloworld!")
  /\ files after !! (second +:+ ".gz") = None
  /\ files after !! (first +:+ ".gz") = Some [].
Proof. vm_compute. repeat split; reflexivity. Qed.

(** *** The claims at concrete worlds *)

(** C4 with the clock standing still: the sixth byte written brings the
    size to eleven, and the file is rotated. *)
Lemma Write_rotates_at_maxLen_witness :
  let wd := five_bytes steady_clock in
  let r := Write app_writer (to_bytes "world!") wd in
  let w' := fst (fst (fst r)) in
  let tasks := snd (fst r) in
  let wd' := snd r in
  let archive := newBackupFilename app_log (clock wd (S (reads wd))) in
  6 = len (to_bytes "world!")
  /\ (len (to_bytes "hello") + len (to_bytes "world!") < maxLen app_writer ->
       w' = app_writer /\ tasks = []
       /\ files wd' = <[app_log := to_bytes "hello" ++ to_bytes "world!"]> (files wd)
       /\ events wd' =
            events wd ++ [Ev OpWrite app_log None; Ev OpStat app_log None])
  /\ (maxLen app_writer <= len (to_bytes "hello") + len (to_bytes "world!") ->
       exists opens,
         events wd' =
           events wd ++
           [Ev OpWrite app_log None; Ev OpStat app_log None;
            Ev OpClose app_log None; Ev (OpRename archive) app_log None] ++ opens
         /\ (forall e, e ∈ opens ->
               ev_path e = app_log /\ ev_op e = OpOpenFile \/ ev_op e = OpMkdirAll)
         /\ files wd' !! app_log = Some []
         /\ files wd' !! archive = Some (to_bytes "hello" ++ to_bytes "world!")
         /\ (forall x, x <> app_log -> x <> archive ->
               files wd' !! x = files wd !! x)
         /\ w' = set_f app_writer (Some (Handle app_log true))
         /\ tasks = [Rotated (newBackupFilename app_log (clock wd (reads wd)))
                             app_log]).
Proof.
  apply (Write_rotates_at_maxLen app_writer (to_bytes "world!")
           (five_bytes steady_clock) (Handle app_log true) (to_bytes "hello"));
    [reflexivity | reflexivity | reflexivity | vm_compute; reflexivity].
Defined.

(** C6 with three compressed archives and [maxFiles] two: the oldest is
    removed. *)
Lemma cleanOldBackupFiles_keeps_newest_witness :
  let listing := ["/var/log/app-2024-01-01-000000.log.gz";
                  "/var/log/app-2024-01-02-000000.log.gz";
                  "/var/log/app-2024-01-03-000000.log.gz"]%string in
  let wd := three_archives in
  let k := 1%nat in
  exists wd',
    cleanOldBackupFiles app_writer app_log wd = (Cleaned None, wd')
    /\ StronglySorted String.le listing
    /\ events wd' =
         events wd ++ map (fun x => Ev OpRemove x None) (take k listing)
    /\ (forall x, files wd' !! x =
           if decide (x ∈ take k listing) then None else files wd !! x)
    /\ getCompressedFiles app_log wd' = ((drop k listing, None), wd')
    /\ length (drop k listing) = Nat.min (length listing) 2
    /\ (forall a b, a ∈ take k listing -> b ∈ drop k listing ->
           String.le a b /\ a <> b)
    /\ (forall t1 t2, civil t1 -> civil t2 ->
           newBackupFilename app_log t1 +:+ ".gz" ∈ take k listing ->
           newBackupFilename app_log t2 +:+ ".gz" ∈ drop k listing ->
           time_compare t1 t2 = Lt)
    /\ (plain "/var/log/app" = true -> plain ".log" = true ->
         forall x, x ∈ listing <->
           is_Some (files wd !! x) /\
           exists mid, x = "/var/log/app" +:+ "-" +:+ mid +:+ ".log" +:+ ".gz" /\
                       no_separator mid = true).
Proof.
  apply (cleanOldBackupFiles_keeps_newest app_writer app_log three_archives
           ["/var/log/app-2024-01-01-000000.log.gz";
            "/var/log/app-2024-01-02-000000.log.gz";
            "/var/log/app-2024-01-03-000000.log.gz"]%string);
    [vm_compute; reflexivity | vm_compute; discriminate | reflexivity].
Defined.

(** C7 with an archive left over from 03:04:05. *)
Lemma NewFileLogWriter_recovers_archive_witness :
  let archive := "/var/log/app-2024-01-02-030405.log"%string in
  exists w tasks wd1,
    NewFileLogWriter app_log 10 2 three_archives = ((Some w, None, tasks), wd1)
    /\ f w = Some (Handle app_log true)
    /\ NoDup tasks
    /\ (forall tk, tk ∈ tasks -> exists x, tk = Recover x)
    /\ (forall x, Recover x ∈ tasks <->
           is_Some (files wd1 !! x) /\
           exists mid, x = "/var/log/app" +:+ "-" +:+ mid +:+ ".log" /\
                       no_separator mid = true)
    /\ Recover archive ∈ tasks
    /\ exists wd2,
         run_task plain_body plain_tail w (Recover archive) wd1 = (tt, wd2)
         /\ files wd2 !! archive = None
         /\ files wd2 !! (archive +:+ ".gz") =
              Some (gzip plain_body plain_tail (to_bytes "left over"))
         /\ stderr wd2 = stderr wd1.
Proof.
  apply (NewFileLogWriter_recovers_archive plain_body plain_tail app_log 10 2
           three_archives (MkTime 2024 1 2 3 4 5 0) (to_bytes "left over"));
    [reflexivity | reflexivity | reflexivity
    | unfold civil; cbn; lia | reflexivity].
Defined.

End FileLogFacts.

(** * Further properties of the asynchronous writer *)

Module AsyncMore.
Import Async AsyncTrace AsyncFacts.
Local Open Scope Z_scope.

Section Facts.
Context {Sink : Type}.
Variable sink_write : Sink -> bytes -> Sink * wresult.

Abbreviation Write := (Write sink_write).
Abbreviation Writes := (Writes sink_write).
Abbreviation wstep := (wstep sink_write).
Abbreviation rstep := (rstep sink_write).
Abbreviation rrun := (rrun sink_write).
Abbreviation pstep := (pstep sink_write).
Abbreviation step := (step sink_write).
Abbreviation exec := (exec sink_write).
Abbreviation sink_run := (sink_run sink_write).
Abbreviation delivery := (delivery sink_write).
Abbreviation step_effect := (step_effect sink_write).

Implicit Types (s : @asyncLogWriter Sink) (p : bytes) (c : @config Sink).

Local Arguments Nat.ltb : simpl never.

(** *** A call on its own *)

(** X1. A call of [Write] on a writer that is not closed, whatever the
    counter and the queue hold, and with no other goroutine running: it
    returns [(len(p), nil)] within ten steps and without calling the
    inner writer.  A disabled writer is left as it was; a full queue is
    left as it was and the counter is incremented; otherwise the record
    is in the queue right behind those that were there. *)
Theorem Write_open_accepts s p :
  closed s <> 1 -> chclosed (ch s) = false ->
  exists s' tr,
    Write s p = Some (Done s' (len p, None) tr)
    /\ (length tr <= 10)%nat
    /\ delivered tr = []
    /\ w s' = w s /\ closed s' = closed s /\ exitCh s' = exitCh s
    /\ chclosed (ch s') = false
    /\ (failed s = -1 -> s' = s)
    /\ (failed s <> -1 -> (cap (ch s) <= length (buf (ch s)))%nat ->
          s' = set_failed s (wrap32 (failed s + 1)))
    /\ (failed s <> -1 -> (length (buf (ch s)) < cap (ch s))%nat ->
          exists rest, buf (ch s') = buf (ch s) ++ p :: rest).
Proof.
  intros Hc Ho.
  destruct (decide (failed s = -1)) as [Hf|Hf].
  { rewrite Write_disabled by done. eexists _, _. split; [reflexivity|].
    cbn. repeat split; try done; try lia. }
  destruct (Nat.le_gt_cases (cap (ch s)) (length (buf (ch s)))) as [Hfull|Hroom].
  { rewrite Write_drop by done. eexists _, _. split; [reflexivity|].
    cbn. repeat split; try done; try lia. }
  destruct (Z_le_gt_dec (failed s) 0) as [Hle|Hgt].
  { rewrite Write_enqueue by done. eexists _, _. split; [reflexivity|].
    cbn. repeat split; try done; try lia. intros _ _. by exists []. }
  rewrite (Write_report _ s p (failed s)) by (try done; lia).
  destruct (S (length (buf (ch s))) <? cap (ch s))%nat.
  - eexists _, _. split; [reflexivity|].
    cbn. repeat split; try done; try lia. intros _ _. by exists [notice (failed s)].
  - eexists _, _. split; [reflexivity|].
    cbn. repeat split; try done; try lia. intros _ _. by exists [].
Qed.

Lemma sink_run_snoc (inner : Sink) ps p :
  fst (sink_run inner (ps ++ [p])) =
    fst (sink_write (fst (sink_run inner ps)) p).
Proof.
  revert inner. induction ps as [|q ps IH]; intros inner; cbn.
  - by destruct (sink_write inner p).
  - destruct (sink_write inner q) as [inner' r]. specialize (IH inner').
    destruct (AsyncTrace.sink_run _ inner' (ps ++ [p])) as [a rs].
    destruct (AsyncTrace.sink_run _ inner' ps) as [b rs']. done.
Qed.

(** X2. Calls of [Write] on a closed writer, one after the other: each goes
    to the inner writer at once, in the order of the calls, and returns
    what the inner writer returned, its error included.  The queue and
    the counter are not touched. *)
Theorem Writes_closed_bypass s ps :
  closed s = 1 ->
  Writes s ps =
    Some (set_w s (fst (sink_run (w s) ps)), snd (sink_run (w s) ps)).
Proof.
  intros Hc. revert s Hc. induction ps as [|p ps IH]; intros s Hc.
  - by destruct s.
  - cbn [Async.Writes AsyncTrace.sink_run]. rewrite Write_bypass by done.
    destruct (sink_write (w s) p) as [inner' r]. cbn [fst snd].
    rewrite IH by done. cbn [w set_w].
    by destruct (AsyncTrace.sink_run _ inner' ps).
Qed.

(** *** The drain task on its own *)

Lemma rrun_flush b : forall (inner : Sink) cp cl f cd ex extra tr,
  Forall (fun r => snd r = None) (snd (sink_run inner b)) ->
  exists tr',
    rrun (2 * length b + 2 + extra)
         (Writer inner (Chan b cp cl) f cd ex) RRecv tr =
      (Writer (fst (sink_run inner b)) (Chan [] cp cl) f cd
              (if cl then true else ex),
       if cl then RDone else RRecv, tr ++ tr')
    /\ written tr' = b /\ discarded tr' = [] /\ LDisable ∉ tr'.
Proof.
  induction b as [|v b IH]; intros inner cp cl f cd ex extra tr Hok.
  - destruct cl; cbn.
    + exists [Tau; LExit]. repeat split; try done.
      * rewrite <- app_assoc. by destruct extra.
      * rewrite !elem_of_cons, elem_of_nil. naive_solver.
    + exists []. rewrite app_nil_r. repeat split; try done.
      apply not_elem_of_nil.
  - cbn [length]. replace (2 * S (length b) + 2 + extra)%nat
      with (S (S (2 * length b + 2 + extra))) by lia.
    cbn [AsyncTrace.sink_run] in Hok |- *.
    cbn [Async.rrun Async.rstep try_recv ch buf]. unfold set_ch.
    cbn [ch cap chclosed w failed closed exitCh].
    destruct (sink_write inner v) as [inner' [n e]] eqn:E.
    destruct (AsyncTrace.sink_run _ inner' b) as [inner'' rs] eqn:E'.
    cbn [fst snd] in Hok |- *. apply Forall_cons in Hok as [He Hok].
    cbn in He. subst e. unfold set_w. cbn [w ch failed closed exitCh].
    destruct (IH inner' cp cl f cd ex extra
                ((tr ++ [LRecv v]) ++ [LSink v (n, None)])) as (tr' & -> & Hw & Hd & Hn).
    { by rewrite E'. }
    rewrite E'. cbn [fst].
    exists ([LRecv v; LSink v (n, None)] ++ tr'). rewrite <- !app_assoc.
    split; [done|]. cbn [app].
    change (written (LRecv v :: LSink v (n, None) :: tr')) with (v :: written tr').
    change (discarded (LRecv v :: LSink v (n, None) :: tr')) with (discarded tr').
    rewrite Hw, Hd. repeat split; try done.
    rewrite !not_elem_of_cons. done.
Qed.

(** X3. The drain task, from its receive, on a queue holding [b], with an
    inner writer that accepts each of these records and no other
    goroutine running: it writes them all, in the order of the queue,
    and discards none.  On an open queue it then waits at its receive;
    on a closed one it closes [exitCh] and is over. *)
Theorem run_writes_queue_in_order s extra :
  Forall (fun r => snd r = None) (snd (sink_run (w s) (buf (ch s)))) ->
  exists tr,
    rrun (2 * length (buf (ch s)) + 2 + extra) s RRecv [] =
      (Writer (fst (sink_run (w s) (buf (ch s))))
              (Chan [] (cap (ch s)) (chclosed (ch s))) (failed s) (closed s)
              (if chclosed (ch s) then true else exitCh s),
       if chclosed (ch s) then RDone else RRecv, tr)
    /\ written tr = buf (ch s) /\ discarded tr = [] /\ (LDisable ∉ tr)
    /\ (chclosed (ch s) = false ->
          rstep (Writer (fst (sink_run (w s) (buf (ch s))))
                        (Chan [] (cap (ch s)) false) (failed s) (closed s)
                        (exitCh s)) RRecv = None).
Proof.
  intros Hok. destruct s as [inner [b cp cl] f cd ex].
  cbn [w ch buf cap chclosed failed closed exitCh] in Hok |- *.
  destruct (rrun_flush b inner cp cl f cd ex extra [] Hok)
    as (tr' & E & Hw & Hd & Hn).
  exists tr'. by rewrite E.
Qed.

(** *** Every schedule: what reaches the inner writer *)

Lemma enqueued_snoc tr l :
  enqueued (tr ++ [l]) =
    enqueued tr ++ match l with LEnqueue p => [p] | _ => [] end.
Proof. unfold enqueued. rewrite omap_app. by destruct l. Qed.

Lemma written_snoc tr l :
  written (tr ++ [l]) =
    written tr ++ match l with LSink p _ => [p] | _ => [] end.
Proof. unfold written. rewrite omap_app. by destruct l. Qed.

Lemma discarded_snoc tr l :
  discarded (tr ++ [l]) =
    discarded tr ++ match l with LDiscard p => [p] | _ => [] end.
Proof. unfold discarded. rewrite omap_app. by destruct l. Qed.

Lemma delivered_snoc tr l :
  delivered (tr ++ [l]) =
    delivered tr ++ match l with
                    | LSink p _ | LBypass p _ => [p]
                    | _ => []
                    end.
Proof. unfold delivered. rewrite omap_app. by destruct l. Qed.

Lemma wstep_effect s st s' t l (dr : rpc) :
  wstep s st = (s', t, l) -> step_effect s s' dr dr l.
Proof.
  intros H. destruct st as [|[a pcv] rest]; cbn in H; simplify_eq; [done|].
  destruct pcv; cbn in H; unfold goto, try_send, try_recv in H;
    split_step H; cbn; try done.
  all: try (by rewrite Heqp).
  all: repeat split; try done; try congruence.
  all: destruct (buf (ch s)); by simplify_eq.
Qed.

Lemma pstep_effect s t s' t' l (dr : rpc) :
  pstep s t = (s', t', l) -> step_effect s s' dr dr l.
Proof.
  destruct t as [st| |]; cbn; [apply wstep_effect | |]; by intros [= <- <- <-].
Qed.

Lemma rstep_effect s (dr dr' : rpc) s' l :
  rstep s dr = Some (s', dr', l) -> step_effect s s' dr dr' l.
Proof.
  intros H. destruct dr; cbn in H; unfold try_recv in H;
    split_step H; cbn; try done.
  all: repeat split; try done; try congruence.
  all: destruct (buf (ch s)); by simplify_eq.
Qed.

Lemma cstep_effect s (t t' : cstatus) s' l (dr : rpc) :
  cstep s t = (s', t', l) -> step_effect s s' dr dr l.
Proof.
  intros H. destruct t as [[]| |]; cbn in H; unfold close_chan in H;
    split_step H; cbn; done.
Qed.

(** A caller that is not inside [drain] discards nothing, and gets
    inside only by storing the DISABLED value. *)
Lemma pstep_quiet s t s' t' l :
  pstep s t = (s', t', l) -> ~ draining t ->
  (forall v, l <> LDiscard v) /\ (l <> LDisable -> ~ draining t').
Proof.
  intros H Hq. destruct t as [st| |]; cbn in H; simplify_eq; [|done..].
  destruct st as [|[a pcv] rest]; cbn in H; simplify_eq;
    [by split; [|intros _ ?]|].
  assert (Hrest : forall fr, fr ∈ rest -> pc fr <> WDrain).
  { intros fr Hin Hpc. apply Hq. exists fr. split; [by right | done]. }
  assert (Htop : pcv <> WDrain).
  { intros ->. apply Hq. eexists. split; [by left | done]. }
  destruct pcv; try done; cbn in H; unfold goto, try_send in H;
    split_step H; (split; [done|]); intros Hl; try done; cbn;
    try (by intros []).
  all: intros (fr & Hin & Hpc).
  all: repeat (apply elem_of_cons in Hin as [->|Hin]; [by cbn in Hpc|]).
  all: try (by eapply Hrest).
  all: try (by apply elem_of_nil in Hin).
  all: try (eapply Hrest; [right; exact Hin | done]).
Qed.

Lemma effect_keeps (inner : Sink) s dr prods clos tr s' dr' prods' clos' l :
  delivery inner (Config s dr prods clos) tr ->
  step_effect s s' dr dr' l ->
  (LDisable ∉ tr ++ [l] ->
     discarded (tr ++ [l]) = [] /\ Forall (fun t => ~ draining t) prods') ->
  delivery inner (Config s' dr' prods' clos') (tr ++ [l]).
Proof.
  intros [Hsub Hall _ Hsink] He Hq. cbn in Hsub, Hall, Hsink.
  constructor; cbn [shared drain producers]; [| | exact Hq |].
  - rewrite written_snoc, enqueued_snoc.
    destruct l; cbn in He; rewrite ?app_nil_r;
      try (destruct He as (Hb & Hw & Hd); rewrite ?Hb, ?Hd; exact Hsub).
    + destruct He as (Hb & Hw & ->). rewrite Hb, !app_assoc.
      apply sublist_app; [|done]. by rewrite <- !app_assoc.
    + destruct He as (Hb & Hw & -> & ->). by rewrite Hb in Hsub.
    + destruct He as (Hb & Hw & -> & Hd). rewrite Hb, Hd.
      by rewrite <- app_assoc.
    + destruct He as (Hb & Hw & ->). rewrite Hb in Hsub.
      etrans; [|exact Hsub].
      do 2 (apply sublist_app; [done|]). by apply sublist_cons.
  - rewrite written_snoc, enqueued_snoc, discarded_snoc.
    destruct l; cbn in He; rewrite ?app_nil_r;
      try (destruct He as (Hb & Hw & Hd); rewrite ?Hb, ?Hd; exact Hall).
    + destruct He as (Hb & Hw & ->). intros Hd.
      by rewrite (Hall Hd), Hb, <- !app_assoc.
    + destruct He as (Hb & Hw & -> & ->). intros Hd.
      by rewrite (Hall Hd), Hb.
    + destruct He as (Hb & Hw & -> & Hd). intros Hd'.
      by rewrite (Hall Hd'), Hb, Hd, <- !app_assoc.
    + intros Hd. by destruct (discarded tr).
  - rewrite delivered_snoc.
    destruct l; cbn in He; rewrite ?app_nil_r;
      try (destruct He as (Hb & Hw & Hd); by rewrite Hw).
    + destruct He as (Hb & Hw & Hd). by rewrite sink_run_snoc, <- Hsink, Hw.
    + destruct He as (Hb & Hw & Hd). by rewrite sink_run_snoc, <- Hsink, Hw.
Qed.

Lemma step_delivery (inner : Sink) k c tr c' l :
  invariant c tr -> delivery inner c tr ->
  step k c = (c', l) -> delivery inner c' (tr ++ [l]).
Proof.
  intros Hinv Hdl Hstep. pose proof (dl_quiet _ _ _ _ Hdl) as Hq.
  destruct c as [s dr prods clos]. cbn in Hq.
  assert (Hsame : l = Tau -> c' = Config s dr prods clos ->
            delivery inner c' (tr ++ [l])).
  { intros -> ->. eapply effect_keeps; [exact Hdl | done |].
    rewrite elem_of_snoc, discarded_snoc, app_nil_r. intros Hn.
    apply Hq. tauto. }
  destruct k as [|i|i]; cbn in Hstep.
  - destruct (rstep s dr) as [[[s1 dr1] l1]|] eqn:E; simplify_eq;
      [|by apply Hsame].
    eapply effect_keeps; [exact Hdl | by apply rstep_effect |].
    rewrite elem_of_snoc, discarded_snoc. intros Hn.
    destruct Hq as [Hd Hp]; [tauto|]. split; [|done].
    rewrite Hd. destruct l; try done.
    pose proof (inv_drain _ _ Hinv) as Hdr. cbn in Hdr.
    destruct dr; cbn in E; unfold try_recv in E; split_step E; tauto.
  - destruct (prods !! i) as [t|] eqn:Ei; simplify_eq; [|by apply Hsame].
    destruct (pstep s t) as [[s1 t1] l1] eqn:E. simplify_eq.
    eapply effect_keeps; [exact Hdl | by eapply pstep_effect |].
    rewrite elem_of_snoc, discarded_snoc. intros Hn.
    destruct Hq as [Hd Hp]; [tauto|].
    destruct (pstep_quiet _ _ _ _ _ E) as [Hl Ht].
    { exact (Forall_lookup_1 _ _ _ _ Hp Ei). }
    split.
    + rewrite Hd. destruct l; try done. by destruct (Hl p).
    + apply Forall_insert; [done|]. apply Ht. intros ->. apply Hn. by right.
  - destruct (clos !! i) as [t|] eqn:Ei; simplify_eq; [|by apply Hsame].
    destruct (cstep s t) as [[s1 t1] l1] eqn:E. simplify_eq.
    eapply effect_keeps; [exact Hdl | by eapply cstep_effect |].
    rewrite elem_of_snoc, discarded_snoc. intros Hn.
    destruct Hq as [Hd Hp]; [tauto|]. split; [|done].
    rewrite Hd. destruct l; try done.
    destruct t as [[]| |]; cbn in E; unfold close_chan in E; split_step E.
Qed.

Lemma exec_delivery (inner : Sink) sched : forall c tr,
  invariant c tr -> delivery inner c tr ->
  invariant (fst (exec sched c tr)) (snd (exec sched c tr)) /\
  delivery inner (fst (exec sched c tr)) (snd (exec sched c tr)).
Proof.
  induction sched as [|k sched IH]; intros c tr Hinv Hdl; [done|].
  cbn [Async.exec]. destruct (step k c) as [c' l] eqn:E.
  apply IH; [by eapply step_invariant | by eapply step_delivery].
Qed.

Lemma start_delivery (inner : Sink) ps nc : delivery inner (start inner ps nc) [].
Proof.
  constructor; cbn; try done.
  intros _. split; [done|]. apply Forall_forall.
  intros t (p & -> & _)%list_elem_of_fmap (fr & Hin & Hpc).
  apply list_elem_of_singleton in Hin as ->. done.
Qed.

(** X4. A fresh writer, any callers of [Write] and of [Close], any schedule.
    The records the drain task has written, the one it holds and the
    ones in the queue are, in this order, records that were queued, in
    the order they were queued.  Before the writer is disabled none is
    discarded, so these are all the records queued; and once a caller of
    [Close] is back from its wait, every record that was queued has been
    written.  The inner writer has seen exactly the calls of the drain
    task and of the callers on the closed writer. *)
Theorem queued_records_are_written_in_order (inner : Sink) ps nc sched :
  let c := fst (exec sched (start inner ps nc) []) in
  let tr := snd (exec sched (start inner ps nc) []) in
  sublist (written tr ++ in_flight (drain c) ++ buf (ch (shared c)))
          (enqueued tr)
  /\ (LDisable ∉ tr ->
        discarded tr = [] /\
        enqueued tr = written tr ++ in_flight (drain c) ++ buf (ch (shared c)))
  /\ (LDisable ∉ tr -> LWaited ∈ tr -> written tr = enqueued tr)
  /\ w (shared c) = fst (sink_run inner (delivered tr)).
Proof.
  intros c tr.
  destruct (exec_delivery inner sched _ _ (start_invariant inner ps nc)
              (start_delivery inner ps nc)) as [Hinv [Hsub Hall Hq Hsink]].
  fold c tr in Hinv, Hsub, Hall, Hq, Hsink.
  split; [done|]. split; [|split; [|done]].
  - intros Hn. destruct (Hq Hn) as [Hd _]. split; [done | by apply Hall].
  - intros Hn Hw. destruct (Hq Hn) as [Hd _]. rewrite (Hall Hd).
    destruct Hinv as [_ _ _ Hex Hwt Hdr].
    destruct (Hwt Hw) as [He _]. apply Hex in He. rewrite He in Hdr |- *.
    destruct Hdr as [?|[-> _]]; [done|]. cbn. by rewrite app_nil_r.
Qed.

(** *** Every schedule: the loss counter *)

Lemma drops_snoc tr l :
  drops_of (tr ++ [l]) =
    (drops_of tr + match l with LDrop => 1 | _ => 0 end)%nat.
Proof.
  unfold drops_of. rewrite omap_app, length_app. by destruct l.
Qed.

Lemma reported_snoc tr l :
  reported (tr ++ [l]) =
    reported tr + match l with LReset k => k | _ => 0 end.
Proof.
  unfold reported, resets. rewrite omap_app.
  assert (Hsum : forall (a b : list Z),
            foldr Z.add 0 (a ++ b) = foldr Z.add 0 a + foldr Z.add 0 b).
  { intros a b. induction a as [|x a IH]; cbn; [done | lia]. }
  rewrite Hsum. destruct l; cbn; lia.
Qed.

(** What a step labelled [l] has done to the counter. *)
Lemma pstep_failed s t s' t' l :
  pstep s t = (s', t', l) ->
  match l with
  | LDrop => failed s' = wrap32 (failed s + 1)
  | LReset k => failed s = k /\ failed s' = 0
  | LDisable => True
  | _ => failed s' = failed s
  end.
Proof.
  intros H. destruct t as [st| |]; cbn in H; simplify_eq; [|done..].
  destruct st as [|[a pcv] rest]; cbn in H; simplify_eq; [done|].
  destruct pcv; cbn in H; unfold goto, try_send, try_recv in H;
    split_step H; cbn; try done.
  split; [lia | done].
Qed.

Lemma rstep_failed s (dr dr' : rpc) s' l :
  rstep s dr = Some (s', dr', l) ->
  match l with
  | LDrop | LReset _ => False
  | LDisable => True
  | _ => failed s' = failed s
  end.
Proof.
  intros H. destruct dr; cbn in H; unfold try_recv in H; by split_step H.
Qed.

Lemma cstep_failed s (t t' : cstatus) s' l :
  cstep s t = (s', t', l) ->
  match l with
  | LDrop | LReset _ | LDisable => False
  | _ => failed s' = failed s
  end.
Proof.
  intros H. destruct t as [[]| |]; cbn in H; unfold close_chan in H;
    by split_step H.
Qed.

Lemma counter_keeps c tr c' l :
  accounted c tr ->
  match l with
  | LDrop => failed (shared c') = wrap32 (failed (shared c) + 1)
  | LReset k => failed (shared c) = k /\ failed (shared c') = 0
  | LDisable => True
  | _ => failed (shared c') = failed (shared c)
  end ->
  accounted c' (tr ++ [l]).
Proof.
  unfold accounted. intros Hacc He.
  rewrite elem_of_snoc, drops_snoc, reported_snoc. intros Hn Hlt.
  destruct Hacc as (H0 & Hr & Hsum); [tauto | destruct l; lia |].
  destruct l; rewrite ?Nat.add_0_r, ?Z.add_0_r in *; try (by rewrite He).
  - rewrite He, wrap32_small by lia. lia.
  - destruct He as [<- ->]. lia.
  - destruct Hn. by right.
Qed.

Lemma step_accounted k c tr c' l :
  accounted c tr -> step k c = (c', l) -> accounted c' (tr ++ [l]).
Proof.
  intros Hacc Hstep. eapply counter_keeps; [exact Hacc|].
  destruct c as [s dr prods clos]. destruct k as [|i|i]; cbn in Hstep.
  - destruct (rstep s dr) as [[[s1 dr1] l1]|] eqn:E; simplify_eq; [|done].
    apply rstep_failed in E. by destruct l.
  - destruct (prods !! i) as [t|] eqn:Ei; simplify_eq; [|done].
    destruct (pstep s t) as [[s1 t1] l1] eqn:E. simplify_eq.
    by apply pstep_failed in E.
  - destruct (clos !! i) as [t|] eqn:Ei; simplify_eq; [|done].
    destruct (cstep s t) as [[s1 t1] l1] eqn:E. simplify_eq.
    apply cstep_failed in E. by destruct l.
Qed.

Lemma exec_accounted sched : forall c tr,
  accounted c tr -> accounted (fst (exec sched c tr)) (snd (exec sched c tr)).
Proof.
  induction sched as [|k sched IH]; intros c tr Hacc; [done|].
  cbn [Async.exec]. destruct (step k c) as [c' l] eqn:E.
  apply IH. by eapply step_accounted.
Qed.

(** X5. A fresh writer, any callers of [Write] and of [Close], any schedule.
    As long as the writer has not been disabled and fewer than [2^31]
    records were dropped, every drop is accounted for once: the number
    of drops is the counter plus the counts that the resets have taken
    out of it for their notices; the counter is never negative. *)
Theorem every_drop_is_counted_once (inner : Sink) ps nc sched :
  let c := fst (exec sched (start inner ps nc) []) in
  let tr := snd (exec sched (start inner ps nc) []) in
  LDisable ∉ tr -> Z.of_nat (drops_of tr) < 2 ^ 31 ->
  0 <= failed (shared c)
  /\ Z.of_nat (drops_of tr) = failed (shared c) + reported tr.
Proof.
  intros c tr Hn Hlt.
  assert (Hstart : accounted (start inner ps nc) []).
  { intros _ _. cbn. lia. }
  by destruct (exec_accounted sched _ _ Hstart Hn Hlt) as (H0 & _ & Hsum).
Qed.

(** *** Every schedule: [Close] against the other goroutines *)

Lemma step_error_after_close k c c' l :
  error_after_close c -> step k c = (c', l) ->
  error_after_close c' /\ l <> LWaited /\
  forall i, closers c !! i = Some (CRunning CWait) ->
            closers c' !! i = Some (CRunning CWait).
Proof.
  intros (Hc & Hx & Hd) Hstep. destruct c as [s dr prods clos].
  cbn in Hc, Hx, Hd. unfold error_after_close.
  destruct k as [|i|i]; cbn in Hstep.
  - destruct (rstep s dr) as [[[s1 dr1] l1]|] eqn:E; simplify_eq; [|done].
    destruct Hd as [-> | ->]; cbn in E; unfold try_recv in E.
    + simplify_eq. cbn. repeat split; try done. by right.
    + rewrite Hc in E. destruct (buf (ch s)); simplify_eq; cbn;
        repeat split; try done; by right.
  - destruct (prods !! i) as [t|] eqn:Ei; simplify_eq; [|done].
    destruct (pstep s t) as [[s1 t1] l1] eqn:E. simplify_eq.
    destruct (pstep_frame _ _ _ _ _ _ E) as (_ & E2 & E3 & _ & _ & L3 & _).
    cbn. rewrite E2, E3. done.
  - destruct (clos !! i) as [t|] eqn:Ei; simplify_eq; [|done].
    destruct (cstep s t) as [[s1 t1] l1] eqn:E. simplify_eq. cbn.
    destruct t as [[]| |]; cbn in E; unfold close_chan in E;
      rewrite ?Hc, ?Hx in E; split_step E; cbn; repeat split; try done.
    all: intros j Hj; destruct (decide (j = i)) as [->|Hne];
      [| by rewrite list_lookup_insert_ne].
    all: rewrite list_lookup_insert_eq by (by eapply lookup_lt_Some).
    all: congruence.
Qed.

Lemma exec_error_after_close sched : forall c tr,
  error_after_close c -> LWaited ∉ tr ->
  error_after_close (fst (exec sched c tr))
  /\ (LWaited ∉ snd (exec sched c tr))
  /\ forall i, closers c !! i = Some (CRunning CWait) ->
               closers (fst (exec sched c tr)) !! i = Some (CRunning CWait).
Proof.
  induction sched as [|k sched IH]; intros c tr He Hn; [done|].
  cbn [Async.exec]. destruct (step k c) as [c' l] eqn:E.
  destruct (step_error_after_close _ _ _ _ He E) as (He' & Hl & Hc).
  destruct (IH c' (tr ++ [l])) as (H1 & H2 & H3); [done | |].
  { rewrite elem_of_snoc. intros [?|?]; [done | congruence]. }
  split; [done|]. split; [done|]. intros i Hi. apply H3, Hc, Hi.
Qed.

(** X6. A fresh writer, any callers, any schedule, up to a state where the
    queue is closed and the drain task is handling an error of the inner
    writer (before or inside [drain]).  Whatever the schedule from there
    on, the drain task stays inside [handleInnerWriteError]: the receive
    of [drain] on the closed queue is always ready, so [drain] does not
    come back.  [exitCh] is never closed, no caller of [Close] comes
    back from its wait, and the callers waiting stay where they are. *)
Theorem Close_waits_forever_after_late_error
    (inner : Sink) ps nc sched1 sched2 :
  let c1 := fst (exec sched1 (start inner ps nc) []) in
  let tr1 := snd (exec sched1 (start inner ps nc) []) in
  let c2 := fst (exec sched2 c1 tr1) in
  let tr2 := snd (exec sched2 c1 tr1) in
  chclosed (ch (shared c1)) = true -> handling_error (drain c1) ->
  handling_error (drain c2)
  /\ chclosed (ch (shared c2)) = true
  /\ exitCh (shared c2) = false
  /\ (LWaited ∉ tr2)
  /\ (forall i, closers c1 !! i = Some (CRunning CWait) ->
                closers c2 !! i = Some (CRunning CWait)).
Proof.
  intros c1 tr1 c2 tr2 Hc Hd.
  destruct (exec_invariant sink_write sched1 _ _ (start_invariant inner ps nc))
    as [_ _ _ Hex Hw _].
  fold c1 tr1 in Hex, Hw.
  assert (Hx : exitCh (shared c1) = false).
  { destruct (exitCh (shared c1)) eqn:E; [|done].
    destruct Hex as [Hex _]. specialize (Hex eq_refl).
    destruct Hd as [Hd|Hd]; congruence. }
  assert (Hn : LWaited ∉ tr1).
  { intros Hin. destruct (Hw Hin) as [E _]. congruence. }
  destruct (exec_error_after_close sched2 c1 tr1) as ((H1 & H2 & H3) & H4 & H5);
    done.
Qed.

(** X7. A fresh writer, any callers, any schedule, up to a state where a
    caller of [Write] has passed the test of the closed flag and is at
    its send while the queue is closed ([Close] has overtaken it): its
    next step is a send on a closed channel, and it panics. *)
Theorem Write_overtaken_by_Close_panics
    (inner : Sink) ps nc sched i p f rest :
  let c := fst (exec sched (start inner ps nc) []) in
  producers c !! i = Some (Running (Frame p (WSelect f) :: rest)) ->
  chclosed (ch (shared c)) = true ->
  closed (shared c) = 1
  /\ step (PWrite i) c =
       (Config (shared c) (drain c) (<[i := Panicked]> (producers c))
               (closers c), Tau).
Proof.
  intros c Hi Hc.
  destruct (exec_invariant sink_write sched _ _ (start_invariant inner ps nc))
    as [_ Hch _ _ _ _].
  fold c in Hch. split.
  - destruct Hch as [[? _]|(_ & _ & ?)]; [congruence | done].
  - unfold Async.step. rewrite Hi. cbn. unfold try_send. by rewrite Hc.
Qed.

(** *** A whole life of the writer *)

Lemma exec_app sched1 sched2 : forall c tr,
  exec (sched1 ++ sched2) c tr =
    exec sched2 (fst (exec sched1 c tr)) (snd (exec sched1 c tr)).
Proof.
  induction sched1 as [|k sched1 IH]; intros c tr; [done|].
  cbn [app Async.exec]. destruct (step k c) as [c' l]. apply IH.
Qed.

Lemma step_PWrite_middle s (dr : rpc) done t rest clos :
  step (PWrite (length done)) (Config s dr (done ++ t :: rest) clos) =
    (Config (fst (fst (pstep s t))) dr (done ++ snd (fst (pstep s t)) :: rest)
            clos,
     snd (pstep s t)).
Proof.
  unfold Async.step. cbn [producers shared drain closers].
  rewrite list_lookup_middle by done.
  destruct (pstep s t) as [[s' t'] l]. cbn [fst snd].
  rewrite insert_app_r_alt by done. by rewrite Nat.sub_diag.
Qed.

(** The four steps of a call that finds a healthy writer with room in
    its queue. *)
Lemma exec_one_call s p done (dr : rpc) rest clos tr sched :
  closed s = 0 -> failed s = 0 -> chclosed (ch s) = false ->
  (length (buf (ch s)) < cap (ch s))%nat ->
  exec (replicate 4 (PWrite (length done)) ++ sched)
       (Config s dr (done ++ Running [Frame p WEntry] :: rest) clos) tr =
  exec sched
       (Config (set_ch s (Chan (buf (ch s) ++ [p]) (cap (ch s)) false)) dr
               (done ++ Returned (len p, None) :: rest) clos)
       (tr ++ [Tau; Tau; LEnqueue p; Tau]).
Proof.
  intros Hc Hf Ho Hr.
  assert (E1 : pstep s (Running [Frame p WEntry]) =
               (s, Running [Frame p WLoadFailed], Tau)).
  { cbn. by rewrite Hc. }
  assert (E2 : pstep s (Running [Frame p WLoadFailed]) =
               (s, Running [Frame p (WSelect 0)], Tau)).
  { cbn. by rewrite Hf. }
  assert (E3 : pstep s (Running [Frame p (WSelect 0)]) =
               (set_ch s (Chan (buf (ch s) ++ [p]) (cap (ch s)) false),
                Running [Frame p (WReturn (len p, None))], LEnqueue p)).
  { cbn. by rewrite try_send_room. }
  cbn [replicate app Async.exec].
  rewrite step_PWrite_middle, E1. cbn [fst snd].
  rewrite step_PWrite_middle, E2. cbn [fst snd].
  rewrite step_PWrite_middle, E3. cbn [fst snd].
  rewrite step_PWrite_middle. cbn [Async.pstep Async.wstep pc fst snd].
  by rewrite <- !app_assoc.
Qed.

(** Calls that find room in the queue of a healthy writer, each running
    its four steps before the next starts. *)
Lemma exec_calls_in_turn todo : forall done b tr (dr : rpc) clos (inner : Sink),
  (length b + length todo <= 500)%nat ->
  exec (calls_in_turn (length done) (length todo))
       (Config (Writer inner (Chan b 500 false) 0 0 false) dr
               (done ++ map (fun p => Running [Frame p WEntry]) todo) clos) tr
  = (Config (Writer inner (Chan (b ++ todo) 500 false) 0 0 false) dr
            (done ++ map (fun p => Returned (len p, None)) todo) clos,
     tr ++ flat_map (fun p => [Tau; Tau; LEnqueue p; Tau]) todo).
Proof.
  induction todo as [|p todo IH]; intros done b tr dr clos inner Hlen.
  - cbn. by rewrite !app_nil_r.
  - cbn [length] in Hlen |- *. unfold calls_in_turn.
    cbn [seq flat_map map].
    rewrite exec_one_call by (cbn; try done; lia).
    unfold set_ch. cbn [w ch buf cap failed closed exitCh].
    specialize (IH (done ++ [Returned (len p, None)]) (b ++ [p])
                  (tr ++ [Tau; Tau; LEnqueue p; Tau]) dr clos inner).
    replace (length (done ++ [Returned (len p, None)])) with (S (length done))
      in IH by (rewrite length_app; cbn; lia).
    rewrite <- !app_assoc in IH. cbn [app] in IH.
    unfold calls_in_turn in IH.
    rewrite IH by (rewrite length_app; cbn; lia).
    done.
Qed.

(** The drain task running alone on a closed queue that the inner
    writer accepts. *)
Lemma exec_drain_flush b : forall (inner : Sink) cp f cd ex prods clos tr,
  Forall (fun r => snd r = None) (snd (sink_run inner b)) ->
  exists tr',
    exec (replicate (2 * length b + 2) PDrain)
         (Config (Writer inner (Chan b cp true) f cd ex) RRecv prods clos) tr =
      (Config (Writer (fst (sink_run inner b)) (Chan [] cp true) f cd true)
              RDone prods clos, tr ++ tr')
    /\ written tr' = b /\ enqueued tr' = [] /\ LDisable ∉ tr'.
Proof.
  induction b as [|v b IH]; intros inner cp f cd ex prods clos tr Hok.
  - exists [Tau; LExit]. cbn. rewrite <- app_assoc. split; [done|].
    split; [done|]. split; [done|].
    rewrite !not_elem_of_cons. repeat split; try done.
    apply not_elem_of_nil.
  - cbn [length]. replace (2 * S (length b) + 2)%nat
      with (S (S (2 * length b + 2))) by lia.
    cbn [AsyncTrace.sink_run] in Hok |- *.
    cbn [replicate Async.exec Async.step shared drain producers closers
         Async.rstep try_recv ch buf]. unfold set_ch.
    cbn [ch cap chclosed w failed closed exitCh].
    destruct (sink_write inner v) as [inner' [n e]] eqn:E.
    destruct (AsyncTrace.sink_run _ inner' b) as [inner'' rs] eqn:E'.
    cbn [fst snd] in Hok |- *. apply Forall_cons in Hok as [He Hok].
    cbn in He. subst e. unfold set_w. cbn [w ch failed closed exitCh].
    destruct (IH inner' cp f cd ex prods clos
                ((tr ++ [LRecv v]) ++ [LSink v (n, None)]))
      as (tr' & -> & Hw & He & Hn).
    { by rewrite E'. }
    rewrite E'. cbn [fst].
    exists ([LRecv v; LSink v (n, None)] ++ tr'). rewrite <- !app_assoc.
    split; [done|]. cbn [app].
    change (written (LRecv v :: LSink v (n, None) :: tr')) with (v :: written tr').
    change (enqueued (LRecv v :: LSink v (n, None) :: tr')) with (enqueued tr').
    rewrite Hw. split; [done|]. split; [done|].
    rewrite !not_elem_of_cons. done.
Qed.

Lemma calls_trace (qs : list bytes) :
  written (flat_map (fun p => [Tau; Tau; LEnqueue p; Tau]) qs) = [] /\
  enqueued (flat_map (fun p => [Tau; Tau; LEnqueue p; Tau]) qs) = qs /\
  LDisable ∉ flat_map (fun p => [Tau; Tau; LEnqueue p; Tau]) qs.
Proof.
  induction qs as [|q qs (IH1 & IH2 & IH3)]; cbn [flat_map app].
  - repeat split; try done. apply not_elem_of_nil.
  - change (written (Tau :: Tau :: LEnqueue q :: Tau :: ?l)) with (written l).
    change (enqueued (Tau :: Tau :: LEnqueue q :: Tau :: ?l))
      with (q :: enqueued l).
    rewrite IH2. repeat split; try done.
    rewrite !not_elem_of_cons. done.
Qed.

(** X8. At most 500 records are written to a fresh writer, one call after
    the other; then [Close] is called; the inner writer accepts every
    record.  With the drain task running after [Close] has closed the
    queue, every call of [Write] has returned [(len(p), nil)], [Close]
    has returned [nil], the drain task is over, and the inner writer has
    received exactly the records written, in the order of the calls. *)
Theorem Close_flushes_what_was_written (inner : Sink) (ps : list bytes) :
  (length ps <= 500)%nat ->
  Forall (fun r => snd r = None) (snd (sink_run inner ps)) ->
  let sched := calls_in_turn 0 (length ps) ++ [PClose 0; PClose 0] ++
               replicate (2 * length ps + 2) PDrain ++ [PClose 0] in
  let c := fst (exec sched (start inner ps 1) []) in
  let tr := snd (exec sched (start inner ps 1) []) in
  producers c = map (fun p => Returned (len p, None)) ps
  /\ closers c = [CReturned None]
  /\ drain c = RDone
  /\ shared c =
       Writer (fst (sink_run inner ps)) (Chan [] 500 true) 0 1 true
  /\ written tr = ps /\ enqueued tr = ps /\ (LDisable ∉ tr) /\ LWaited ∈ tr.
Proof.
  intros Hlen Hok sched c tr. subst c tr sched.
  rewrite exec_app.
  change (start inner ps 1)
    with (Config (Writer inner (Chan [] 500 false) 0 0 false) RRecv
                 (map (fun p => Running [Frame p WEntry]) ps) [CRunning CCas]).
  pose proof (exec_calls_in_turn ps [] [] [] RRecv [CRunning CCas] inner) as E1.
  cbn [length app] in E1. rewrite E1 by (cbn; lia). clear E1.
  cbn [fst snd]. rewrite exec_app.
  cbn [Async.exec Async.step closers shared drain producers lookup list_lookup
       Async.cstep closed Z.eqb set_closed w ch failed exitCh
       close_chan chclosed set_ch buf cap insert list_insert fst snd].
  rewrite exec_app.
  destruct (exec_drain_flush ps inner 500%nat 0 1 false
              (map (fun p => Returned (len p, None)) ps) [CRunning CWait]
              ((flat_map (fun p => [Tau; Tau; LEnqueue p; Tau]) ps
                ++ [LSetClosed]) ++ [LCloseCh]) Hok)
    as (tr' & E2 & Hw & He & Hn).
  unfold set_ch, set_closed. cbn [w ch failed closed exitCh buf cap chclosed].
  rewrite E2. clear E2. cbn [fst snd].
  cbn [Async.exec Async.step closers shared drain producers lookup list_lookup
       Async.cstep exitCh insert list_insert fst snd].
  destruct (calls_trace ps) as (H1 & H2 & H3).
  repeat split; try done.
  - unfold written in *. rewrite !omap_app, H1, Hw. cbn. by rewrite app_nil_r.
  - unfold enqueued in *. rewrite !omap_app, H2, He. cbn. by rewrite !app_nil_r.
  - rewrite !not_elem_of_app, !not_elem_of_cons. repeat split; try done.
    all: apply not_elem_of_nil.
  - rewrite !elem_of_app, elem_of_cons. right. by left.
Qed.

End Facts.

(** A trace in which no step is labelled [LDisable]. *)
Lemma count_disable_0 (tr : list label) :
  count_if is_disable tr = 0%nat -> LDisable ∉ tr.
Proof.
  unfold count_if. intros H Hin.
  assert (LDisable ∈ List.filter is_disable tr) as Hf.
  { apply list_elem_of_In, List.filter_In. split; [by apply list_elem_of_In | done]. }
  destruct (List.filter is_disable tr); [by apply elem_of_nil in Hf | done].
Qed.

(** *** The properties at concrete writers *)

(** A call on a writer with one record queued and nothing lost. *)
Lemma Write_open_accepts_witness :
  let s := Writer ([] : list bytes) (Chan [dot] 500 false) 0 0 false in
  exists s' tr,
    Write keep_write s dot = Some (Done s' (len dot, None) tr)
    /\ (length tr <= 10)%nat
    /\ delivered tr = []
    /\ w s' = w s /\ closed s' = closed s /\ exitCh s' = exitCh s
    /\ chclosed (ch s') = false
    /\ (failed s = -1 -> s' = s)
    /\ (failed s <> -1 -> (cap (ch s) <= length (buf (ch s)))%nat ->
          s' = set_failed s (wrap32 (failed s + 1)))
    /\ (failed s <> -1 -> (length (buf (ch s)) < cap (ch s))%nat ->
          exists rest, buf (ch s') = buf (ch s) ++ dot :: rest).
Proof.
  apply (Write_open_accepts keep_write
           (Writer [] (Chan [dot] 500 false) 0 0 false) dot);
    [cbn; lia | reflexivity].
Defined.

(** Two calls after [Close] has returned. *)
Lemma Writes_closed_bypass_witness :
  let s := Writer ([] : list bytes) (Chan [] 500 true) 0 1 true in
  Writes keep_write s [dot; dot] =
    Some (set_w s (fst (sink_run keep_write (w s) [dot; dot])),
          snd (sink_run keep_write (w s) [dot; dot])).
Proof.
  apply (Writes_closed_bypass keep_write
           (Writer [] (Chan [] 500 true) 0 1 true) [dot; dot]).
  reflexivity.
Defined.

(** The drain task on a closed queue of two records. *)
Lemma run_writes_queue_in_order_witness :
  let s := Writer ([] : list bytes) (Chan [dot; dot] 500 true) 0 1 false in
  exists tr,
    rrun keep_write (2 * length (buf (ch s)) + 2 + 0) s RRecv [] =
      (Writer (fst (sink_run keep_write (w s) (buf (ch s))))
              (Chan [] (cap (ch s)) (chclosed (ch s))) (failed s) (closed s)
              (if chclosed (ch s) then true else exitCh s),
       if chclosed (ch s) then RDone else RRecv, tr)
    /\ written tr = buf (ch s) /\ discarded tr = [] /\ (LDisable ∉ tr)
    /\ (chclosed (ch s) = false ->
          rstep keep_write
                (Writer (fst (sink_run keep_write (w s) (buf (ch s))))
                        (Chan [] (cap (ch s)) false) (failed s) (closed s)
                        (exitCh s)) RRecv = None).
Proof.
  apply (run_writes_queue_in_order keep_write
           (Writer [] (Chan [dot; dot] 500 true) 0 1 false) 0).
  cbn. repeat constructor.
Defined.

(** 502 calls in turn with the drain task stalled: two drops. *)
Lemma every_drop_is_counted_once_witness :
  let c := fst (exec keep_write (calls_in_turn 0 502)
                     (start [] (replicate 502 dot) 0) []) in
  let tr := snd (exec keep_write (calls_in_turn 0 502)
                      (start [] (replicate 502 dot) 0) []) in
  0 <= failed (shared c)
  /\ Z.of_nat (drops_of tr) = failed (shared c) + reported tr.
Proof.
  apply (every_drop_is_counted_once keep_write [] (replicate 502 dot) 0
           (calls_in_turn 0 502)).
  - apply count_disable_0. vm_compute. reflexivity.
  - vm_compute. reflexivity.
Defined.

(** The inner writer fails on the record that [Close] is waiting for. *)
Lemma Close_waits_forever_after_late_error_witness :
  let c1 := fst (exec broken_write late_error (start [] [dot] 1) []) in
  let tr1 := snd (exec broken_write late_error (start [] [dot] 1) []) in
  let c2 := fst (exec broken_write [PDrain; PDrain; PClose 0] c1 tr1) in
  let tr2 := snd (exec broken_write [PDrain; PDrain; PClose 0] c1 tr1) in
  handling_error (drain c2)
  /\ chclosed (ch (shared c2)) = true
  /\ exitCh (shared c2) = false
  /\ (LWaited ∉ tr2)
  /\ (forall i, closers c1 !! i = Some (CRunning CWait) ->
                closers c2 !! i = Some (CRunning CWait)).
Proof.
  apply (Close_waits_forever_after_late_error broken_write [] [dot] 1
           late_error [PDrain; PDrain; PClose 0]).
  - vm_compute. reflexivity.
  - left. vm_compute. reflexivity.
Defined.

(** One caller of [Write] and one of [Close]. *)
Lemma Write_overtaken_by_Close_panics_witness :
  let c := fst (exec keep_write close_overtakes (start [] [dot] 1) []) in
  closed (shared c) = 1
  /\ step keep_write (PWrite 0) c =
       (Config (shared c) (drain c) (<[0%nat := Panicked]> (producers c))
               (closers c), Tau).
Proof.
  apply (Write_overtaken_by_Close_panics keep_write [] [dot] 1
           close_overtakes 0 dot 0 []).
  - vm_compute. reflexivity.
  - vm_compute. reflexivity.
Defined.

(** Two records and then [Close]. *)
Lemma Close_flushes_what_was_written_witness :
  let ps := [dot; dot] in
  let sched := calls_in_turn 0 (length ps) ++ [PClose 0; PClose 0] ++
               replicate (2 * length ps + 2) PDrain ++ [PClose 0] in
  let c := fst (exec keep_write sched (start [] ps 1) []) in
  let tr := snd (exec keep_write sched (start [] ps 1) []) in
  producers c = map (fun p => Returned (len p, None)) ps
  /\ closers c = [CReturned None]
  /\ drain c = RDone
  /\ shared c =
       Writer (fst (sink_run keep_write [] ps)) (Chan [] 500 true) 0 1 true
  /\ written tr = ps /\ enqueued tr = ps /\ (LDisable ∉ tr) /\ LWaited ∈ tr.
Proof.
  apply (Close_flushes_what_was_written keep_write [] [dot; dot]);
    [cbn; lia | cbn; repeat constructor].
Defined.

End AsyncMore.

(** * Further properties of the file log writer *)

Module FileLogMore.
Import Naming Glob FileLog FileWorlds NamingFacts GlobFacts FileLogFacts.
Local Open Scope Z_scope.

(** *** Opening the log file *)

(** X9. The directory of the log file is missing, and the environment lets
    it be made and the file be opened: [openLogFile] fails to open the
    file, makes the directory and opens the file at the second attempt.
    A file that is there keeps its content. *)
Theorem openLogFile_makes_missing_directory (path : string) (wd : world) :
  Dir path ∉ dirs wd ->
  fails wd OpOpenFile path = None -> fails wd OpMkdirAll (Dir path) = None ->
  exists wd',
    openLogFile path wd = ((Some (Handle path true), None), wd')
    /\ dirs wd' = {[Dir path]} ∪ dirs wd
    /\ files wd' = match files wd !! path with
                   | Some _ => files wd
                   | None => <[path := []]> (files wd)
                   end
    /\ events wd' =
         events wd ++ [Ev OpOpenFile path (Some ErrNotExist);
                       Ev OpMkdirAll (Dir path) None;
                       Ev OpOpenFile path None].
Proof.
  intros Hd F1 F2. destruct wd as [fs ds fl pt ck rd se evs].
  cbn in Hd, F1, F2. unfold openLogFile. io_red. rewrite F1.
  destruct (decide (Dir path ∈ ds)) as [|_]; [done|]. io_red.
  rewrite F2. io_red. rewrite F1.
  destruct (decide (Dir path ∈ {[Dir path]} ∪ ds)) as [_|]; [|set_solver].
  io_red. eexists. split; [reflexivity|]. cbn.
  repeat split; try done. by rewrite <- !app_assoc.
Qed.

(** Closes a case of [openLogFile]: the calls made are read off. *)
Ltac finish_open :=
  split; [done|]; split; [done|]; cbn [events dirs];
  eexists; (split; [rewrite <- ?app_assoc; reflexivity|]); cbn [app];
  repeat split; intros; rewrite ?elem_of_cons, ?elem_of_nil in *;
  naive_solver.

(** X10. [openLogFile] returns an error: no file is open and no file has
    changed.  The error is the one of a call of [os.OpenFile] on the
    path; [os.MkdirAll] is only called after [os.OpenFile] has returned
    [ErrNotExist], and when it fails in its turn its error is not the
    one returned: [ErrNotExist] is. *)
Theorem openLogFile_error_is_of_OpenFile
    (path : string) (wd : world) (h : option handle) (e : error) (wd' : world) :
  openLogFile path wd = ((h, Some e), wd') ->
  h = None /\ files wd' = files wd
  /\ exists evs,
       events wd' = events wd ++ evs
       /\ Ev OpOpenFile path (Some e) ∈ evs
       /\ (forall r, Ev OpMkdirAll (Dir path) r ∈ evs ->
             Ev OpOpenFile path (Some ErrNotExist) ∈ evs)
       /\ (forall e', Ev OpMkdirAll (Dir path) (Some e') ∈ evs ->
             e = ErrNotExist /\ dirs wd' = dirs wd).
Proof.
  destruct wd as [fs ds fl pt ck rd se evs0].
  unfold openLogFile. io_red.
  destruct (fl OpOpenFile path) as [e1|] eqn:F1; io_red.
  - destruct e1; io_red; try (intros [= <- <- <-]; finish_open).
    destruct (fl OpMkdirAll (Dir path)) as [e2|] eqn:F2; io_red.
    + intros [= <- <- <-]. finish_open.
    + rewrite F1. io_red. intros [= <- <- <-]. finish_open.
  - destruct (decide (Dir path ∈ ds)) as [Hd|Hd]; io_red; [by intros [=]|].
    destruct (fl OpMkdirAll (Dir path)) as [e2|] eqn:F2; io_red.
    + intros [= <- <- <-]. finish_open.
    + rewrite F1.
      destruct (decide (Dir path ∈ {[Dir path]} ∪ ds)) as [_|]; [|set_solver].
      io_red. by intros [=].
Qed.

(** *** Compressing an archive that is not there *)

(** X11. [compress] is called for a file that does not exist, as happens
    when it is called twice for one archive: the [.gz] file is created,
    or emptied if it was there, before the archive is looked at, and
    stays so; the call returns [ErrNotExist]. *)
Theorem compress_missing_source_empties_gz
    (gzip_body gzip_tail : bytes -> bytes) (logFile : string) (wd : world) :
  files wd !! logFile = None ->
  Dir (logFile +:+ ".gz") ∈ dirs wd ->
  fails wd OpCreate (logFile +:+ ".gz") = None ->
  fails wd OpOpen logFile = None ->
  exists wd',
    compress gzip_body gzip_tail logFile wd = (Some ErrNotExist, wd')
    /\ files wd' = <[logFile +:+ ".gz" := []]> (files wd)
    /\ exists closes,
         events wd' =
           events wd ++ [Ev OpCreate (logFile +:+ ".gz") None;
                         Ev OpOpen logFile (Some ErrNotExist);
                         Ev OpClose (logFile +:+ ".gz") closes].
Proof.
  intros Hc Hd F1 F2.
  pose proof (gz_name_differs logFile) as Hne.
  destruct wd as [fs ds fl pt ck rd se evs]. cbn in Hc, Hd, F1, F2.
  unfold FileLog.compress. io_red. rewrite F1.
  destruct (decide (Dir (logFile +:+ ".gz") ∈ ds)) as [_|]; [|done].
  io_red. rewrite F2. rewrite lookup_insert_ne by done. rewrite Hc. io_red.
  destruct (fl OpClose (logFile +:+ ".gz")) as [e|]; io_red.
  all: eexists; split; [reflexivity|]; cbn; split; [done|].
  all: eexists; by rewrite <- !app_assoc.
Qed.

(** *** Pruning: the ends of the loop *)

(** The loop of [cleanOldBackupFiles] over files that are there and
    that the environment lets it remove: they are removed, and the loop
    goes on behind them. *)
Lemma remove_front_prefix (pre : list string) : forall (wd : world),
  NoDup pre ->
  (forall x, x ∈ pre -> is_Some (files wd !! x) /\ fails wd OpRemove x = None) ->
  exists wd',
    (forall k rest,
       remove_front (length pre + k) (pre ++ rest) wd = remove_front k rest wd')
    /\ (forall x, files wd' !! x =
                    if decide (x ∈ pre) then None else files wd !! x)
    /\ fails wd' = fails wd /\ dirs wd' = dirs wd /\ stderr wd' = stderr wd
    /\ events wd' = events wd ++ map (fun x => Ev OpRemove x None) pre.
Proof.
  induction pre as [|file pre IH]; intros wd Hnd Hok.
  - exists wd. cbn. rewrite app_nil_r. repeat split; done.
  - apply NoDup_cons in Hnd as [Hfile Hnd].
    destruct (Hok file ltac:(left)) as [[c Hc] Hf].
    destruct wd as [fs ds fl pt ck rd se evs]. cbn in Hc, Hf.
    assert (Hstep : forall k rest,
      remove_front (length (file :: pre) + k) ((file :: pre) ++ rest)
                   (World fs ds fl pt ck rd se evs) =
      remove_front (length pre + k) (pre ++ rest)
                   (World (delete file fs) ds fl pt ck rd se
                          (evs ++ [Ev OpRemove file None]))).
    { intros k rest. cbn [length Nat.add app remove_front]. io_red.
      rewrite Hf, Hc. by io_red. }
    edestruct (IH (World (delete file fs) ds fl pt ck rd se
                         (evs ++ [Ev OpRemove file None])))
      as (wd' & E & Hfiles & Hfl & Hds & Hse & Hev); [done | |].
    { intros x Hx. cbn. split.
      - rewrite lookup_delete_ne.
        + apply (Hok x). by right.
        + by intros ->.
      - apply (Hok x). by right. }
    exists wd'. split; [|split; [|split; [done|split; [done|split; [done|]]]]].
    + intros k rest. by rewrite Hstep, E.
    + intros x. rewrite Hfiles. cbn [files].
      destruct (decide (x = file)) as [->|Hx].
      * rewrite lookup_delete_eq.
        destruct (decide (file ∈ file :: pre)) as [_|Hd];
          [by case_decide | exfalso; apply Hd; left].
      * rewrite lookup_delete_ne by done.
        do 2 case_decide; try done; set_solver.
    + rewrite Hev. cbn. by rewrite <- app_assoc.
Qed.



(** *** Archive names *)

(** X14. The archives of one log file, named after two readings of the
    clock: their names compare as the readings do, to the second, with
    the same suffix added or without; so [sort.Strings] lists archives
    oldest first, and two names are the same exactly when the readings
    agree to the second. *)
Theorem archive_names_sort_by_time
    (logfilename sfx : string) (t1 t2 : Time) :
  civil t1 -> civil t2 ->
  String.compare (newBackupFilename logfilename t1 +:+ sfx)
                 (newBackupFilename logfilename t2 +:+ sfx) =
    time_compare t1 t2
  /\ (newBackupFilename logfilename t1 = newBackupFilename logfilename t2 <->
      time_compare t1 t2 = Eq).
Proof.
  intros H1 H2. split.
  - by apply newBackupFilename_compare.
  - by apply newBackupFilename_same_iff.
Qed.

(** X15. The pattern that [getBackFiles] builds for a log file, whose base
    name and extension have no pattern characters, and a suffix:
    every archive name that [newBackupFilename] makes for this log file,
    with the suffix, matches it; the log file itself does not; and the
    archive lies in the directory of the log file. *)
Theorem archive_names_match_listing_pattern
    (logfilename sfx : string) (t : Time) :
  civil t ->
  plain (fst (splitLogFilename logfilename)) = true ->
  plain (snd (splitLogFilename logfilename)) = true ->
  plain sfx = true -> no_separator sfx = true ->
  let pattern := fst (splitLogFilename logfilename) +:+ "-*" +:+
                 snd (splitLogFilename logfilename) +:+ sfx in
  Match pattern (newBackupFilename logfilename t +:+ sfx) = Some true
  /\ Match pattern logfilename = Some false
  /\ Dir (newBackupFilename logfilename t +:+ sfx) = Dir logfilename.
Proof.
  intros Ht Hb He Hs Hn pattern. subst pattern.
  set (base := fst (splitLogFilename logfilename)) in *.
  set (ext := snd (splitLogFilename logfilename)) in *.
  pose proof (parse_archive_pattern base ext sfx Hb He Hs) as Hp.
  unfold Match. rewrite Hp. split; [|split].
  - f_equal. apply matches_archive. exists (Format t). split.
    + rewrite newBackupFilename_split. fold base ext.
      by rewrite !append_assoc.
    + by apply Format_no_separator.
  - f_equal. apply not_true_is_false. rewrite matches_archive.
    intros (mid & E & _).
    rewrite <- (splitLogFilename_join logfilename) in E at 1. fold base ext in E.
    apply (f_equal String.length) in E. rewrite !length_append in E.
    cbn in E. lia.
  - by apply Dir_archive.
Qed.

(** *** Writing *)

(** X16. Writes whose sizes add up to less than [maxLen], on an open file
    and with neither the appends nor the [Stat]s refused: every call
    returns [(len(p), nil)], the file holds what it held and then the
    records in the order of the calls, no other file changes, and the
    writer never rotates: no other call to the environment, no
    goroutine. *)
Theorem small_writes_never_rotate (ps : list bytes)
    (w : fileLogWriter) (wd : world) (h : handle) (c : bytes) :
  f w = Some h -> hopen h = true -> files wd !! hname h = Some c ->
  fails wd OpWrite (hname h) = None -> fails wd OpStat (hname h) = None ->
  len c + len (concat ps) < maxLen w ->
  exists wd',
    Writes w ps wd = ((w, Async.accepted ps, []), wd')
    /\ files wd' = <[hname h := c ++ concat ps]> (files wd)
    /\ events wd' =
         events wd ++
         flat_map (fun _ => [Ev OpWrite (hname h) None;
                             Ev OpStat (hname h) None]) ps.
Proof. apply Writes_below_maxLen. Qed.

(** Runs the calls of the environment, leaving [openLogFile] as it
    is. *)
Ltac io_run :=
  cbv beta iota zeta delta
    [bind ret attempt update lookup_file absent missing_dir
     os_Create os_Open os_Remove os_Rename
     file_Write file_Stat file_Close handle_error safeClose logError hal_Now
     gzip_Copy gzip_Close fileSize
     files dirs fails partial clock reads stderr events
     set_files set_dirs set_reads set_stderr set_events
     fst snd hname hopen name_of].

(** A writer whose file is closed or missing appends nothing. *)
Lemma Write_without_file (w : fileLogWriter) (p : bytes) (wd : world) :
  f w = None \/ (exists nm, f w = Some (Handle nm false)) ->
  exists e wd',
    Write w p wd = ((w, (0, Some e), []), wd')
    /\ files wd' = files wd
    /\ events wd' = events wd ++ [Ev OpWrite (name_of (f w)) (Some e)].
Proof.
  intros Hf. destruct w as [pth fh mL mF].
  destruct wd as [fs ds fl pt ck rd se evs]. cbn in Hf.
  unfold Write. cbn [f].
  destruct Hf as [-> | [nm ->]]; io_red.
  - destruct (fl OpWrite "") as [e|]; io_red; by eexists _, _.
  - destruct (fl OpWrite nm) as [e|]; io_red; by eexists _, _.
Qed.

(** An error of [openLogFile] leaves no file open and the files as they
    were. *)
Lemma openLogFile_error (path : string) (wd : world) h e wd' :
  openLogFile path wd = ((h, Some e), wd') -> h = None /\ files wd' = files wd.
Proof.
  destruct wd as [fs ds fl pt ck rd se evs]. unfold openLogFile. io_red.
  destruct (fl OpOpenFile path) as [e1|] eqn:F1; io_red.
  - destruct e1; io_red; try (by intros [= <- <- <-]).
    destruct (fl OpMkdirAll (Dir path)) as [e2|] eqn:F2; io_red.
    + by intros [= <- <- <-].
    + rewrite F1. io_red. by intros [= <- <- <-].
  - destruct (decide (Dir path ∈ ds)) as [Hd|Hd]; io_red; [by intros [=]|].
    destruct (fl OpMkdirAll (Dir path)) as [e2|] eqn:F2; io_red.
    + by intros [= <- <- <-].
    + rewrite F1.
      destruct (decide (Dir path ∈ {[Dir path]} ∪ ds)) as [_|]; [|set_solver].
      io_red. by intros [=].
Qed.

(** X17. A call of [Write] that appends, finds the size at [maxLen] or
    above, and returns an error: the rotation failed, at the [Close],
    at the [Rename] or at the reopening.  The record was appended all
    the same, and is in the file or in the archive, and the count
    returned is [len(p)]; no goroutine was started.  The writer is left
    with a closed file or with none, so every later call of [Write]
    returns an error and appends nothing. *)
Theorem failed_rotation_stops_the_writer
    (w : fileLogWriter) (p : bytes) (wd : world) (h : handle) (c : bytes)
    (w' : fileLogWriter) (n : Z) (e : error) (tasks : list task)
    (wd' : world) :
  f w = Some h -> hopen h = true -> files wd !! hname h = Some c ->
  fails wd OpWrite (hname h) = None -> fails wd OpStat (hname h) = None ->
  maxLen w <= len c + len p ->
  Write w p wd = ((w', (n, Some e), tasks), wd') ->
  let archive := newBackupFilename (hname h) (clock wd (S (reads wd))) in
  n = len p /\ tasks = []
  /\ (files wd' !! hname h = Some (c ++ p) \/
      files wd' !! archive = Some (c ++ p))
  /\ (f w' = None \/ f w' = Some (Handle (hname h) false))
  /\ forall p2 wd2, exists e2 wd3,
       Write w' p2 wd2 = ((w', (0, Some e2), []), wd3)
       /\ files wd3 = files wd2
       /\ events wd3 = events wd2 ++ [Ev OpWrite (name_of (f w')) (Some e2)].
Proof.
  intros Hf Ho Hc F1 F2 Hge HW archive. subst archive.
  destruct w as [pth fh mL mF], h as [nm op0], wd as [fs ds fl pt ck rd se evs].
  cbn in Hf, Ho, Hc, F1, F2, Hge |- *. subst fh op0.
  pose proof (newBackupFilename_neq nm (ck (S rd))) as Hne.
  assert (Hlen : len (c ++ p) = len c + len p)
    by (unfold len; rewrite length_app; lia).
  assert (Hdead : forall h',
    h' = None \/ h' = Some (Handle nm false) ->
    (h' = None \/ h' = Some (Handle nm false)) /\
    forall p2 wd2, exists e2 wd3,
      Write (FileLogWriter pth h' mL mF) p2 wd2 =
        ((FileLogWriter pth h' mL mF, (0, Some e2), []), wd3)
      /\ files wd3 = files wd2
      /\ events wd3 = events wd2 ++ [Ev OpWrite (name_of h') (Some e2)]).
  { intros h' Hh. split; [done|]. intros p2 wd2.
    apply (Write_without_file (FileLogWriter pth h' mL mF)). cbn.
    destruct Hh as [-> | ->]; [by left | right; by eexists]. }
  revert HW. unfold Write. io_run. cbn [f maxLen].
  rewrite Hc. io_run. rewrite F1. io_run.
  repeat (rewrite lookup_insert_eq || rewrite Hc).
  cbn [from_option]. unfold id. io_run. rewrite F2. io_run.
  repeat (rewrite lookup_insert_eq || rewrite Hc).
  cbn [from_option]. unfold id. io_run.
  rewrite Hlen.
  destruct (Z.geb_spec (len c + len p) mL) as [_|Hlt]; [|lia].
  io_run.
  destruct (fl OpClose nm) as [e3|] eqn:F3; io_run.
  { intros [= <- <- <- <- <-]. split; [done|]. split; [done|]. cbn [files].
    split; [left; by rewrite lookup_insert_eq|]. apply Hdead. by right. }
  generalize dependent (newBackupFilename nm (ck (S rd))). intros archive Hne.
  generalize (newBackupFilename nm (ck rd)). intros bakFile.
  destruct (fl (OpRename archive) nm) as [e4|] eqn:F4; io_run.
  { intros [= <- <- <- <- <-]. split; [done|]. split; [done|]. cbn [files].
    split; [left; by rewrite lookup_insert_eq|]. apply Hdead. by right. }
  repeat (rewrite lookup_insert_eq || rewrite Hc).
  cbn [from_option]. io_run.
  match goal with
  | |- context [FileLog.openLogFile nm ?wd1] =>
      destruct (FileLog.openLogFile nm wd1) as [[h1 [e5|]] wd1'] eqn:Eo
  end.
  - destruct (openLogFile_error _ _ _ _ _ Eo) as [-> Hfs].
    intros [= <- <- <- <- <-]. split; [done|]. split; [done|].
    unfold files in Hfs.
    split; [right; rewrite Hfs; by rewrite lookup_insert_eq|].
    apply Hdead. by left.
  - by intros [=].
Qed.

(** *** Rotations when nothing is refused *)

(** A write that reaches [maxLen], in a world where nothing is refused
    and the directory of the log file is there. *)
Lemma Write_rotate_ok (w : fileLogWriter) (p : bytes) (wd : world)
    (nm : string) (c : bytes) :
  (forall o x, fails wd o x = None) ->
  f w = Some (Handle nm true) -> files wd !! nm = Some c ->
  Dir nm ∈ dirs wd -> maxLen w <= len c + len p ->
  let archive := newBackupFilename nm (clock wd (S (reads wd))) in
  Write w p wd =
    ((w, (len p, None),
      [Rotated (newBackupFilename nm (clock wd (reads wd))) nm]),
     World (<[nm := []]> (<[archive := c ++ p]> (files wd)))
           (dirs wd) (fails wd) (partial wd) (clock wd) (S (S (reads wd)))
           (stderr wd)
           (events wd ++
            [Ev OpWrite nm None; Ev OpStat nm None; Ev OpClose nm None;
             Ev (OpRename archive) nm None; Ev OpOpenFile nm None])).
Proof.
  intros Hfl Hf Hc Hd Hge archive. subst archive.
  destruct w as [pth fh mL mF], wd as [fs ds fl pt ck rd se evs].
  cbn in Hfl, Hf, Hc, Hd, Hge |- *. subst fh.
  pose proof (newBackupFilename_neq nm (ck (S rd))) as Hne.
  assert (Hlen : len (c ++ p) = len c + len p)
    by (unfold len; rewrite length_app; lia).
  unfold Write. io_red. cbn [f maxLen].
  rewrite Hc. io_red. rewrite !Hfl. io_red.
  repeat (rewrite lookup_insert_eq || rewrite Hc).
  cbn [from_option]. unfold id. io_red. rewrite ?Hfl. io_red.
  repeat (rewrite lookup_insert_eq || rewrite Hc).
  cbn [from_option]. unfold id. io_red.
  rewrite Hlen.
  destruct (Z.geb_spec (len c + len p) mL) as [_|Hlt]; [|lia].
  io_red. rewrite ?Hfl. io_red.
  generalize dependent (newBackupFilename nm (ck (S rd))). intros archive Hne.
  generalize (newBackupFilename nm (ck rd)). intros bakFile.
  rewrite ?Hfl. io_red.
  repeat (rewrite lookup_insert_eq || rewrite Hc).
  cbn [from_option]. io_red. rewrite ?Hfl. io_red.
  destruct (decide (Dir nm ∈ ds)) as [_|]; [|done]. io_red.
  assert (Hfresh : (<[archive:=c ++ p]> (delete nm (<[nm:=c ++ p]> fs))) !! nm
                   = None)
    by (by rewrite lookup_insert_ne, lookup_delete_eq).
  rewrite Hfresh, <- !app_assoc. cbn [app].
  assert (Hmap : <[nm:=[]]> (<[archive:=c ++ p]> (delete nm (<[nm:=c ++ p]> fs)))
                 = <[nm:=[]]> (<[archive:=c ++ p]> fs)).
  { apply map_eq. intros k.
    destruct (decide (k = nm)) as [->|Hk1].
    { by rewrite !lookup_insert_eq. }
    rewrite !(lookup_insert_ne _ nm) by done.
    destruct (decide (k = archive)) as [->|Hk2].
    { by rewrite !lookup_insert_eq. }
    by rewrite !lookup_insert_ne, lookup_delete_ne, lookup_insert_ne. }
  by rewrite Hmap.
Qed.

(** X18. Two writes that each reach [maxLen], one right after the other,
    with nothing refused and all four readings of the clock within one
    second.  Both calls succeed and both rotate, to the same archive
    name: the second [Rename] replaces the archive of the first.
    Afterwards the archive holds the second record only; what the log
    file held and the first record are in no file.  Both goroutines are
    given that one name. *)
Theorem rotations_within_a_second_share_an_archive
    (w : fileLogWriter) (p1 p2 : bytes) (wd : world) (nm : string) (c : bytes) :
  (forall o x, fails wd o x = None) ->
  f w = Some (Handle nm true) -> files wd !! nm = Some c ->
  Dir nm ∈ dirs wd ->
  maxLen w <= len c + len p1 -> maxLen w <= len p2 ->
  (forall i, (i < 4)%nat ->
     civil (clock wd (reads wd + i)) /\
     time_compare (clock wd (reads wd)) (clock wd (reads wd + i)) = Eq) ->
  let archive := newBackupFilename nm (clock wd (reads wd)) in
  exists wd',
    Writes w [p1; p2] wd =
      ((w, [(len p1, None); (len p2, None)],
        [Rotated archive nm; Rotated archive nm]), wd')
    /\ files wd' = <[nm := []]> (<[archive := p2]> (files wd))
    /\ reads wd' = (reads wd + 4)%nat.
Proof.
  intros Hfl Hf Hc Hd Hge1 Hge2 Hclk archive.
  assert (Hname : forall i, (i < 4)%nat ->
            newBackupFilename nm (clock wd (reads wd + i)) = archive).
  { intros i Hi. subst archive. symmetry.
    destruct (Hclk i Hi) as [Hci Hti]. destruct (Hclk 0%nat ltac:(lia)) as [Hc0 _].
    rewrite Nat.add_0_r in Hc0. by apply newBackupFilename_same_iff. }
  pose proof (newBackupFilename_neq nm (clock wd (reads wd))) as Hne.
  fold archive in Hne.
  pose proof (Hname 1%nat ltac:(lia)) as H1.
  pose proof (Hname 2%nat ltac:(lia)) as H2.
  pose proof (Hname 3%nat ltac:(lia)) as H3.
  rewrite Nat.add_1_r in H1.
  replace (reads wd + 2)%nat with (S (S (reads wd))) in H2 by lia.
  replace (reads wd + 3)%nat with (S (S (S (reads wd)))) in H3 by lia.
  cbn [Writes]. unfold bind, ret.
  rewrite (Write_rotate_ok w p1 wd nm c) by done.
  cbv beta iota zeta. rewrite H1. fold archive.
  rewrite (Write_rotate_ok w p2 _ nm []); cbn [fails files dirs clock reads];
    try done.
  2: { by rewrite lookup_insert_eq. }
  rewrite H2, H3. cbv beta iota zeta.
  eexists. split; [reflexivity|]. cbn [files reads app]. split; [|lia].
  apply map_eq. intros k.
  destruct (decide (k = nm)) as [->|Hk1].
  { by rewrite !lookup_insert_eq. }
  rewrite !(lookup_insert_ne _ nm) by done.
  destruct (decide (k = archive)) as [->|Hk2].
  { by rewrite !lookup_insert_eq. }
  by rewrite !lookup_insert_ne.
Qed.

(** A pruning pass in a world where nothing is refused, for a log file
    whose base name and extension have no pattern characters. *)
Lemma prune_ok (w : fileLogWriter) (logfilename : string) (wd : world) :
  (forall o x, fails wd o x = None) ->
  plain (fst (splitLogFilename logfilename)) = true ->
  plain (snd (splitLogFilename logfilename)) = true ->
  0 <= maxFiles w ->
  exists listing wd',
    getCompressedFiles logfilename wd = ((listing, None), wd)
    /\ cleanOldBackupFiles w logfilename wd = (Cleaned None, wd')
    /\ (forall x, files wd' !! x =
          if decide (x ∈ take (length listing - Z.to_nat (maxFiles w)) listing)
          then None else files wd !! x)
    /\ getCompressedFiles logfilename wd' =
         ((drop (length listing - Z.to_nat (maxFiles w)) listing, None), wd')
    /\ stderr wd' = stderr wd
    /\ (forall x, x ∈ listing <->
          is_Some (files wd !! x) /\
          exists mid, x = fst (splitLogFilename logfilename) +:+ "-" +:+ mid +:+
                          snd (splitLogFilename logfilename) +:+ ".gz" /\
                      no_separator mid = true).
Proof.
  intros Hfl Hb He Hmax.
  set (base := fst (splitLogFilename logfilename)) in *.
  set (ext := snd (splitLogFilename logfilename)) in *.
  pose proof (parse_archive_pattern base ext ".gz" Hb He eq_refl) as Hparse.
  set (toks := (lits (base +:+ "-") ++ TStar :: lits (ext +:+ ".gz"))%list) in *.
  set (listing := sort_Strings (filter (fun name => matches toks name = true)
                                       (map_to_list (files wd)).*1)).
  set (k := (length listing - Z.to_nat (maxFiles w))%nat).
  assert (Hnd : NoDup listing) by apply listing_NoDup.
  assert (Hsorted : StronglySorted String.le listing) by apply listing_sorted.
  assert (Hin : forall x, x ∈ listing <->
            matches toks x = true /\ is_Some (files wd !! x))
    by (intros x; apply listing_elem).
  rewrite <- (take_drop k listing) in Hnd, Hsorted.
  apply NoDup_app in Hnd as (Hnd1 & Hdisj & Hnd2).
  destruct (remove_front_prefix (take k listing) wd Hnd1)
    as (wd' & E & Hfiles & _ & _ & Hse & _).
  { intros x Hx%subseteq_take. split; [by apply Hin | by apply Hfl]. }
  exists listing, wd'.
  split; [|split; [|split; [done|split; [|split; [done|]]]]].
  - unfold getCompressedFiles. rewrite getBackFiles_unfold. fold base ext.
    by rewrite Hparse.
  - unfold cleanOldBackupFiles, getCompressedFiles, bind.
    rewrite getBackFiles_unfold. fold base ext. rewrite Hparse. fold listing.
    replace (Z.to_nat (Z.of_nat (length listing) - maxFiles w)) with k
      by (subst k; lia).
    specialize (E 0%nat (drop k listing)).
    rewrite take_drop, Nat.add_0_r, length_take in E.
    replace (k `min` length listing)%nat with k in E by (subst k; lia).
    by rewrite E.
  - unfold getCompressedFiles. rewrite getBackFiles_unfold. fold base ext.
    rewrite Hparse. do 2 f_equal. apply sort_Strings_unique.
    + apply NoDup_filter, NoDup_fst_map_to_list.
    + done.
    + by eapply StronglySorted_app_1_r.
    + intros x. rewrite list_elem_of_filter, elem_of_keys, Hfiles.
      assert (x ∈ listing <-> x ∈ take k listing \/ x ∈ drop k listing) as Hsplit
        by (by rewrite <- elem_of_app, take_drop).
      rewrite Hin in Hsplit. case_decide as Hx.
      * split; [by intros [_ [? ?]] | intros Hd; by destruct (Hdisj x)].
      * tauto.
  - intros x. rewrite Hin. subst toks. rewrite matches_archive. split.
    + intros [(mid & -> & Hm) Hs]. split; [|exists mid; split; [|done]].
      * by rewrite !append_assoc in Hs |- *.
      * by rewrite !append_assoc.
    + intros [Hs (mid & -> & Hm)]. split; [exists mid; split; [|done]|].
      * by rewrite !append_assoc.
      * done.
Qed.

(** A log file is never one of its own compressed archives. *)
Lemma log_file_is_no_archive (logfilename mid : string) :
  logfilename <>
    fst (splitLogFilename logfilename) +:+ "-" +:+ mid +:+
    snd (splitLogFilename logfilename) +:+ ".gz".
Proof.
  intros E. rewrite <- (splitLogFilename_join logfilename) in E at 1.
  apply (f_equal String.length) in E. rewrite !length_append in E.
  cbn in E. lia.
Qed.

(** X19. A write that reaches [maxLen] and the goroutine it starts, in a
    world where nothing is refused, for a log file whose base name and
    extension have no pattern characters, with [maxFiles] not negative
    and both readings of the clock within one second.  The write
    succeeds and rotates; the goroutine reports nothing.  Afterwards the
    log file is empty, the uncompressed archive is gone, at most
    [maxFiles] compressed archives are listed, the new one holds the
    encoding of all that the log file held if it is among them, and no
    file other than the log file, the archive and the compressed
    archives of this log file has changed. *)
Theorem rotation_and_goroutine_keep_retention
    (gzip_body gzip_tail : bytes -> bytes)
    (w : fileLogWriter) (p : bytes) (wd : world) (nm : string) (c : bytes) :
  (forall o x, fails wd o x = None) ->
  f w = Some (Handle nm true) -> files wd !! nm = Some c ->
  Dir nm ∈ dirs wd ->
  maxLen w <= len c + len p -> 0 <= maxFiles w ->
  plain (fst (splitLogFilename nm)) = true ->
  plain (snd (splitLogFilename nm)) = true ->
  civil (clock wd (reads wd)) -> civil (clock wd (S (reads wd))) ->
  time_compare (clock wd (reads wd)) (clock wd (S (reads wd))) = Eq ->
  let archive := newBackupFilename nm (clock wd (reads wd)) in
  exists wd1 wd2 kept,
    Write w p wd = ((w, (len p, None), [Rotated archive nm]), wd1)
    /\ run_task gzip_body gzip_tail w (Rotated archive nm) wd1 = (tt, wd2)
    /\ stderr wd2 = stderr wd
    /\ files wd2 !! nm = Some []
    /\ files wd2 !! archive = None
    /\ getCompressedFiles nm wd2 = ((kept, None), wd2)
    /\ (length kept <= Z.to_nat (maxFiles w))%nat
    /\ (archive +:+ ".gz" ∈ kept ->
          files wd2 !! (archive +:+ ".gz") =
            Some (gzip gzip_body gzip_tail (c ++ p)))
    /\ (forall x, x <> nm -> x <> archive ->
          (forall mid, x <> fst (splitLogFilename nm) +:+ "-" +:+ mid +:+
                            snd (splitLogFilename nm) +:+ ".gz") ->
          files wd2 !! x = files wd !! x).
Proof.
  intros Hfl Hf Hc Hd Hge Hmax Hb He Hc0 Hc1 Hsame archive.
  assert (Hname : newBackupFilename nm (clock wd (S (reads wd))) = archive).
  { symmetry. by apply newBackupFilename_same_iff. }
  pose proof (newBackupFilename_neq nm (clock wd (reads wd))) as Hne.
  pose proof (gz_name_differs archive) as Hgz.
  fold archive in Hne.
  pose proof (Write_rotate_ok w p wd nm c Hfl Hf Hc Hd Hge) as HW.
  cbv zeta in HW. rewrite Hname in HW. fold archive in HW.
  set (wd1 := World _ _ _ _ _ _ _ _) in HW.
  destruct (compress_ok gzip_body gzip_tail archive wd1 (c ++ p))
    as (wd2 & Ecomp & Hfiles2 & Hse2 & Hds2 & Hfl2).
  { done. }
  { subst wd1 archive. cbn [dirs]. rewrite Dir_archive; done. }
  { subst wd1. cbn [files].
    by rewrite lookup_insert_ne, lookup_insert_eq. }
  destruct (prune_ok w nm wd2) as (listing & wd3 & Hlist & Eprune & Hfiles3
                                    & Hkept & Hse3 & Hin); try done.
  { intros o x. rewrite Hfl2. apply Hfl. }
  set (k := (length listing - Z.to_nat (maxFiles w))%nat) in *.
  assert (Hnm : nm ∉ listing).
  { rewrite Hin. intros [_ (mid & E & _)]. by apply log_file_is_no_archive in E. }
  assert (Harch : archive ∉ listing).
  { rewrite Hin. intros [[? E] _]. by rewrite Hfiles2, lookup_delete_eq in E. }
  assert (Hgzname : archive +:+ ".gz" =
            fst (splitLogFilename nm) +:+ "-" +:+
            Format (clock wd (reads wd)) +:+ snd (splitLogFilename nm) +:+ ".gz").
  { subst archive. rewrite newBackupFilename_split. by rewrite !append_assoc. }
  assert (Hgznm : archive +:+ ".gz" <> nm).
  { rewrite Hgzname. intros E. symmetry in E.
    by apply log_file_is_no_archive in E. }
  exists wd1, wd3, (drop k listing).
  split; [done|]. split; [|split; [|split; [|split; [|split; [done|split;
    [|split]]]]]].
  - unfold run_task, bind. rewrite Ecomp, Eprune. done.
  - by rewrite Hse3, Hse2.
  - rewrite Hfiles3. case_decide as Hx; [by apply subseteq_take in Hx|].
    rewrite Hfiles2, lookup_delete_ne, lookup_insert_ne by done.
    subst wd1. cbn [files]. by rewrite lookup_insert_eq.
  - rewrite Hfiles3. case_decide; [done|]. by rewrite Hfiles2, lookup_delete_eq.
  - rewrite length_drop. subst k. lia.
  - intros Hk. rewrite Hfiles3. case_decide as Hx.
    + exfalso.
      assert (Hnd : NoDup listing).
      { pose proof Hlist as Hl. unfold getCompressedFiles in Hl.
        rewrite getBackFiles_unfold in Hl.
        destruct (parse _); [|done]. injection Hl as <-.
        apply listing_NoDup. }
      rewrite <- (take_drop k listing) in Hnd.
      apply NoDup_app in Hnd as (_ & Hdisj & _). by eapply Hdisj.
    + by rewrite Hfiles2, lookup_delete_ne, lookup_insert_eq.
  - intros x Hx1 Hx2 Hx3. rewrite Hfiles3. case_decide as Hx.
    + apply subseteq_take, Hin in Hx as [_ (mid & -> & _)]. by destruct (Hx3 mid).
    + assert (archive +:+ ".gz" <> x).
      { rewrite Hgzname. intros <-. by eapply Hx3. }
      rewrite Hfiles2, lookup_delete_ne, lookup_insert_ne by done.
      subst wd1. cbn [files]. by rewrite !lookup_insert_ne.
Qed.

(** *** Recovery for a log file without extension *)

(** X20. Construction for a log file whose name has no extension and no
    pattern characters, in a world where nothing is refused and in which
    a compressed archive of this log file, named after a time of the
    clock, is there.  The pattern of the recovery scan is the base name,
    a dash and a star, so the compressed archive matches it as well: a
    goroutine is started for it, and when it runs the compressed archive
    is compressed once more into a [.gz.gz] file and removed. *)
Theorem recovery_without_extension_recompresses
    (gzip_body gzip_tail : bytes -> bytes)
    (path : string) (mL mF : Z) (wd : world) (t : Time) (c : bytes) :
  (forall o x, fails wd o x = None) ->
  Ext path = "" -> plain path = true -> civil t ->
  let gz := newBackupFilename path t +:+ ".gz" in
  files wd !! gz = Some c ->
  exists w tasks wd1,
    NewFileLogWriter path mL mF wd = ((Some w, None, tasks), wd1)
    /\ Recover gz ∈ tasks
    /\ exists wd2,
         run_task gzip_body gzip_tail w (Recover gz) wd1 = (tt, wd2)
         /\ files wd2 !! gz = None
         /\ files wd2 !! (gz +:+ ".gz") = Some (gzip gzip_body gzip_tail c)
         /\ stderr wd2 = stderr wd1.
Proof.
  intros Hfl Hext Hp Ht gz Hc.
  assert (Hsplit : splitLogFilename path = (path, "")).
  { unfold splitLogFilename. rewrite Hext. cbn [String.length].
    by rewrite Nat.sub_0_r, substring_all. }
  destruct (openLogFile_ok path wd Hfl)
    as (wd1 & Hopen & Hkeep & _ & _ & Hdir & Hfl1 & _).
  pose proof (parse_archive_pattern path "" "" Hp eq_refl eq_refl) as Hparse.
  set (toks := (lits (path +:+ "-") ++ TStar :: lits ("" +:+ ""))%list) in *.
  set (listing := sort_Strings (filter (fun name => matches toks name = true)
                                       (map_to_list (files wd1)).*1)).
  assert (Hgz : gz = path +:+ "-" +:+ (Format t +:+ ".gz")).
  { subst gz. rewrite newBackupFilename_split, Hsplit. cbn [fst snd].
    by rewrite append_nil_r, !append_assoc. }
  assert (Harch : gz ∈ listing).
  { subst listing toks. rewrite listing_elem, matches_archive. split.
    - exists (Format t +:+ ".gz"). split.
      + by rewrite Hgz, append_nil_r, !append_assoc.
      + rewrite no_separator_app, Format_no_separator by done. done.
    - by rewrite (Hkeep _ _ Hc). }
  exists (FileLogWriter path (Some (Handle path true)) mL mF),
    (Recover <$> listing), wd1.
  split; [|split].
  - unfold NewFileLogWriter, bind. rewrite Hopen.
    unfold recoverPartialCompressFiles, getUncompressedFiles, bind.
    rewrite getBackFiles_unfold, Hsplit. cbn [fst snd]. by rewrite Hparse.
  - by apply list_elem_of_fmap_2.
  - destruct (compress_ok gzip_body gzip_tail gz wd1 c)
      as (wd2 & E & Hfiles & Hse & _ & _).
    + by rewrite Hfl1.
    + subst gz. rewrite append_assoc. rewrite Dir_archive; done.
    + by apply Hkeep.
    + exists wd2. split; [|split; [|split]]; try done.
      * unfold FileLog.run_task, bind. by rewrite E.
      * by rewrite Hfiles, lookup_delete_eq.
      * rewrite Hfiles, lookup_delete_ne, lookup_insert_eq; [done|].
        intros E'. by apply (gz_name_differs gz).
Qed.

(** *** What the writer leaves alone *)

(** Closes a case of a call that leaves the file [y] alone. *)
Ltac finish_frame :=
  cbn [files dirs];
  rewrite ?lookup_delete_ne, ?lookup_insert_ne by done; done.

(** X21. Whatever the environment refuses, [compress] changes no file other
    than the archive and its [.gz] file, and no directory. *)
Theorem compress_touches_only_its_two_files
    (gzip_body gzip_tail : bytes -> bytes) (logFile : string) (wd : world)
    (y : string) :
  y <> logFile -> y <> logFile +:+ ".gz" ->
  files (snd (compress gzip_body gzip_tail logFile wd)) !! y = files wd !! y
  /\ dirs (snd (compress gzip_body gzip_tail logFile wd)) = dirs wd.
Proof.
  intros Hy1 Hy2.
  assert (Hy1' : logFile <> y) by done.
  assert (Hy2' : logFile +:+ ".gz" <> y) by done.
  pose proof (gz_name_differs logFile) as Hne.
  destruct wd as [fs ds fl pt ck rd se evs].
  unfold FileLog.compress. io_red.
  destruct (fl OpCreate (logFile +:+ ".gz")) as [e1|] eqn:F1; io_red;
    [finish_frame|].
  destruct (decide (Dir (logFile +:+ ".gz") ∈ ds)) as [Hd|Hd]; io_red;
    [|finish_frame].
  rewrite lookup_insert_ne by done.
  destruct (fl OpOpen logFile) as [e2|] eqn:F2; io_red.
  { destruct (fl OpClose (logFile +:+ ".gz")); io_red; finish_frame. }
  destruct (fs !! logFile) as [c|] eqn:Hc; io_red.
  2: { destruct (fl OpClose (logFile +:+ ".gz")); io_red; finish_frame. }
  rewrite !lookup_insert_ne by done. rewrite Hc. io_red.
  destruct (fl OpCopy logFile) as [e3|] eqn:F3; io_red.
  { destruct (fl OpClose logFile), (fl OpClose (logFile +:+ ".gz")); io_red;
      finish_frame. }
  destruct (fl OpGzClose (logFile +:+ ".gz")) as [e4|] eqn:F4; io_red.
  { destruct (fl OpClose logFile), (fl OpClose (logFile +:+ ".gz")); io_red;
      finish_frame. }
  rewrite !lookup_insert_ne by done. rewrite Hc. io_red.
  destruct (fl OpRemove logFile) as [e5|] eqn:F5; io_red.
  { destruct (fl OpClose logFile), (fl OpClose (logFile +:+ ".gz")); io_red;
      finish_frame. }
  destruct (fl OpClose logFile), (fl OpClose (logFile +:+ ".gz")); io_red;
    finish_frame.
Qed.

(** The loop of [cleanOldBackupFiles], whatever the environment
    refuses: a file is as it was, or is gone and was in the listing. *)
Lemma remove_front_frame (n : nat) : forall (rest : list string) (wd : world)
    (y : string),
  (files (snd (remove_front n rest wd)) !! y = files wd !! y \/
   files (snd (remove_front n rest wd)) !! y = None /\ y ∈ rest)
  /\ dirs (snd (remove_front n rest wd)) = dirs wd.
Proof.
  induction n as [|n IH]; intros rest wd y; [by split; [left|]|].
  destruct rest as [|file rest]; [by split; [left|]|].
  destruct wd as [fs ds fl pt ck rd se evs].
  destruct (fl OpRemove file) as [e|] eqn:F.
  { assert (E : remove_front (S n) (file :: rest)
                  (World fs ds fl pt ck rd se evs) =
                (Cleaned (Some e),
                 World fs ds fl pt ck rd se
                       (evs ++ [Ev OpRemove file (Some e)]))).
    { cbn [remove_front]. io_red. rewrite F. by io_red. }
    rewrite E. by split; [left|]. }
  destruct (fs !! file) as [c|] eqn:Hc.
  2: { assert (E : remove_front (S n) (file :: rest)
                     (World fs ds fl pt ck rd se evs) =
                   (Cleaned (Some ErrNotExist),
                    World fs ds fl pt ck rd se
                          (evs ++ [Ev OpRemove file (Some ErrNotExist)]))).
       { cbn [remove_front]. io_red. rewrite F, Hc. by io_red. }
       rewrite E. by split; [left|]. }
  assert (E : remove_front (S n) (file :: rest)
                (World fs ds fl pt ck rd se evs) =
              remove_front n rest
                (World (delete file fs) ds fl pt ck rd se
                       (evs ++ [Ev OpRemove file None]))).
  { cbn [remove_front]. io_red. rewrite F, Hc. by io_red. }
  rewrite E.
  destruct (IH rest (World (delete file fs) ds fl pt ck rd se
                           (evs ++ [Ev OpRemove file None])) y)
    as [[E' | [E' Hin]] Hd].
  - split; [|done]. rewrite E'. cbn [files].
    destruct (decide (y = file)) as [->|Hy].
    + right. split; [by rewrite lookup_delete_eq | by left].
    + left. by rewrite lookup_delete_ne.
  - split; [|done]. right. split; [done | by right].
Qed.

(** X22. Whatever the environment refuses and whatever [maxFiles] is, a
    pruning pass changes the content of no file and makes none: a file
    is as it was before the pass, or it is gone and was in the listing
    of the compressed archives.  For a log file whose base name and
    extension have no pattern characters, the files of that listing are
    named base, dash, anything without a separator, extension, [.gz]:
    the log file and the archives not yet compressed are not among
    them. *)
Theorem pruning_only_removes_listed_archives
    (w : fileLogWriter) (logfilename : string) (wd : world) (y : string) :
  let wd' := snd (cleanOldBackupFiles w logfilename wd) in
  let listing := fst (fst (getCompressedFiles logfilename wd)) in
  let base := fst (splitLogFilename logfilename) in
  let ext := snd (splitLogFilename logfilename) in
  (files wd' !! y = files wd !! y \/ files wd' !! y = None /\ y ∈ listing)
  /\ dirs wd' = dirs wd
  /\ (plain base = true /\ plain ext = true /\ y ∈ listing ->
        exists mid, y = base +:+ "-" +:+ mid +:+ ext +:+ ".gz" /\
                    no_separator mid = true).
Proof.
  intros wd' listing base ext. subst wd' listing.
  unfold cleanOldBackupFiles, getCompressedFiles, bind.
  rewrite getBackFiles_unfold. fold base ext.
  destruct (parse (base +:+ "-*" +:+ ext +:+ ".gz")) as [toks|] eqn:Hparse;
    cbn [fst snd ret].
  - split; [|split].
    + apply (proj1 (remove_front_frame _ _ _ y)).
    + apply (proj2 (remove_front_frame _ _ _ y)).
    + intros (Hb & He & Hin). apply listing_elem in Hin as [Hm _].
      pose proof (parse_archive_pattern base ext ".gz" Hb He eq_refl) as Hp.
      rewrite Hparse in Hp. injection Hp as ->.
      apply matches_archive in Hm as (mid & -> & Hmid).
      exists mid. split; [|done]. by rewrite !append_assoc.
  - split; [by left|]. split; [done|].
    intros (_ & _ & Hin). by apply elem_of_nil in Hin.
Qed.

(** X23. Whatever the environment refuses, a call of [Write] changes no file
    other than the log file and the archive named after the second
    reading of the clock. *)
Theorem Write_touches_only_log_and_archive
    (w : fileLogWriter) (p : bytes) (wd : world) (y : string) :
  y <> name_of (f w) ->
  y <> newBackupFilename (name_of (f w)) (clock wd (S (reads wd))) ->
  files (snd (Write w p wd)) !! y = files wd !! y.
Proof.
  intros Hy1 Hy2.
  destruct w as [pth fh mL mF], wd as [fs ds fl pt ck rd se evs].
  cbn [f name_of clock reads] in Hy1, Hy2.
  assert (Hopen : forall nm wd1, y <> nm ->
            files (snd (openLogFile nm wd1)) !! y = files wd1 !! y).
  { intros nm [fs1 ds1 fl1 pt1 ck1 rd1 se1 evs1] Hnm.
    assert (Hnm' : nm <> y) by done.
    unfold openLogFile. io_red.
    destruct (fl1 OpOpenFile nm) as [e|] eqn:F1; io_red.
    - destruct e; io_red; try done.
      destruct (fl1 OpMkdirAll (Dir nm)); io_red; [done|].
      rewrite F1. by io_red.
    - destruct (decide (Dir nm ∈ ds1)); io_red.
      + destruct (fs1 !! nm); [done | finish_frame].
      + destruct (fl1 OpMkdirAll (Dir nm)); io_red; [done|].
        rewrite F1. destruct (decide (Dir nm ∈ {[Dir nm]} ∪ ds1)); io_red;
          [|done].
        destruct (fs1 !! nm); [done | finish_frame]. }
  unfold Write. cbn [f maxLen].
  destruct fh as [[nm [|]]|]; cbn [name_of hname] in Hy1, Hy2.
  2: { io_run. destruct (fl OpWrite nm); by io_run. }
  2: { io_run. destruct (fl OpWrite ""); by io_run. }
  assert (Hnm : nm <> y) by done.
  io_run. cbn [f maxLen]. io_run.
  destruct (fs !! nm) as [c|] eqn:Hc; io_run.
  2: { destruct (fl OpWrite nm); by io_run. }
  destruct (fl OpWrite nm) as [e1|] eqn:F1; io_run; [done|].
  repeat (rewrite lookup_insert_eq || rewrite Hc).
  cbn [from_option]. unfold id. io_run.
  destruct (fl OpStat nm) as [e2|] eqn:F2; io_run; [finish_frame|].
  repeat (rewrite lookup_insert_eq || rewrite Hc).
  cbn [from_option]. unfold id. io_run.
  destruct (len (c ++ p) >=? mL); io_run; [|finish_frame].
  destruct (fl OpClose nm) as [e3|] eqn:F3; io_run; [finish_frame|].
  generalize dependent (newBackupFilename nm (ck (S rd))). intros archive Hy2.
  assert (Hy2' : archive <> y) by done.
  generalize (newBackupFilename nm (ck rd)). intros bakFile.
  destruct (fl (OpRename archive) nm) as [e4|] eqn:F4; io_run;
    [finish_frame|].
  repeat (rewrite lookup_insert_eq || rewrite Hc).
  cbn [from_option]. io_run.
  match goal with
  | |- context [FileLog.openLogFile nm ?wd1] =>
      pose proof (Hopen nm wd1 Hy1) as Ho;
      destruct (FileLog.openLogFile nm wd1) as [[h1 [e5|]] wd1']
  end.
  all: cbn [snd] in Ho |- *; unfold files in Ho |- *; rewrite Ho.
  all: by rewrite lookup_insert_ne, lookup_delete_ne, lookup_insert_ne.
Qed.

(** *** The properties at concrete worlds *)

(** The log file in a world without any directory. *)
Lemma openLogFile_makes_missing_directory_witness :
  let wd := bare no_fault in
  exists wd',
    openLogFile app_log wd = ((Some (Handle app_log true), None), wd')
    /\ dirs wd' = {[Dir app_log]} ∪ dirs wd
    /\ files wd' = match files wd !! app_log with
                   | Some _ => files wd
                   | None => <[app_log := []]> (files wd)
                   end
    /\ events wd' =
         events wd ++ [Ev OpOpenFile app_log (Some ErrNotExist);
                       Ev OpMkdirAll (Dir app_log) None;
                       Ev OpOpenFile app_log None].
Proof.
  apply (openLogFile_makes_missing_directory app_log (bare no_fault));
    [apply not_elem_of_empty | reflexivity | reflexivity].
Defined.

(** The same when the directory cannot be made. *)
Lemma openLogFile_error_is_of_OpenFile_witness :
  let wd := bare no_mkdir in
  let wd' := snd (openLogFile app_log wd) in
  (None : option handle) = None /\ files wd' = files wd
  /\ exists evs,
       events wd' = events wd ++ evs
       /\ Ev OpOpenFile app_log (Some ErrNotExist) ∈ evs
       /\ (forall r, Ev OpMkdirAll (Dir app_log) r ∈ evs ->
             Ev OpOpenFile app_log (Some ErrNotExist) ∈ evs)
       /\ (forall e', Ev OpMkdirAll (Dir app_log) (Some e') ∈ evs ->
             ErrNotExist = ErrNotExist /\ dirs wd' = dirs wd).
Proof.
  apply (openLogFile_error_is_of_OpenFile app_log (bare no_mkdir) None
           ErrNotExist (snd (openLogFile app_log (bare no_mkdir)))).
  vm_compute. reflexivity.
Defined.

(** [compress] for an archive name that no file has. *)
Lemma compress_missing_source_empties_gz_witness :
  let logFile := "/var/log/app-2024-01-02-030459.log"%string in
  let wd := five_bytes steady_clock in
  exists wd',
    compress plain_body plain_tail logFile wd = (Some ErrNotExist, wd')
    /\ files wd' = <[logFile +:+ ".gz" := []]> (files wd)
    /\ exists closes,
         events wd' =
           events wd ++ [Ev OpCreate (logFile +:+ ".gz") None;
                         Ev OpOpen logFile (Some ErrNotExist);
                         Ev OpClose (logFile +:+ ".gz") closes].
Proof.
  apply (compress_missing_source_empties_gz plain_body plain_tail
           "/var/log/app-2024-01-02-030459.log" (five_bytes steady_clock));
    [reflexivity | vm_compute; reflexivity | reflexivity | reflexivity].
Defined.



(** The archives of 03:04:59 and of 03:05:00. *)
Lemma archive_names_sort_by_time_witness :
  String.compare (newBackupFilename app_log (turning_clock 0) +:+ ".gz")
                 (newBackupFilename app_log (turning_clock 1) +:+ ".gz") =
    time_compare (turning_clock 0) (turning_clock 1)
  /\ (newBackupFilename app_log (turning_clock 0) =
      newBackupFilename app_log (turning_clock 1) <->
      time_compare (turning_clock 0) (turning_clock 1) = Eq).
Proof.
  apply (archive_names_sort_by_time app_log ".gz"
           (turning_clock 0) (turning_clock 1));
    unfold civil; cbn; lia.
Defined.

(** The pattern of the compressed archives of [app_log]. *)
Lemma archive_names_match_listing_pattern_witness :
  let pattern := fst (splitLogFilename app_log) +:+ "-*" +:+
                 snd (splitLogFilename app_log) +:+ ".gz" in
  Match pattern (newBackupFilename app_log (steady_clock 0) +:+ ".gz") =
    Some true
  /\ Match pattern app_log = Some false
  /\ Dir (newBackupFilename app_log (steady_clock 0) +:+ ".gz") = Dir app_log.
Proof.
  apply (archive_names_match_listing_pattern app_log ".gz" (steady_clock 0));
    [unfold civil; cbn; lia | reflexivity..].
Defined.

(** Two records of two bytes behind the five that are there. *)
Lemma small_writes_never_rotate_witness :
  let ps := [to_bytes "ab"; to_bytes "cd"] in
  let wd := five_bytes steady_clock in
  exists wd',
    Writes app_writer ps wd = ((app_writer, Async.accepted ps, []), wd')
    /\ files wd' = <[app_log := to_bytes "hello" ++ concat ps]> (files wd)
    /\ events wd' =
         events wd ++
         flat_map (fun _ => [Ev OpWrite app_log None;
                             Ev OpStat app_log None]) ps.
Proof.
  apply (small_writes_never_rotate [to_bytes "ab"; to_bytes "cd"] app_writer
           (five_bytes steady_clock) (Handle app_log true) (to_bytes "hello"));
    [reflexivity | reflexivity | reflexivity | reflexivity | reflexivity
    | vm_compute; reflexivity].
Defined.

(** The rotation of [app_log] when no file can be renamed. *)
Lemma failed_rotation_stops_the_writer_witness :
  let wd := five_bytes_with no_rename in
  let p := to_bytes "world!" in
  let w' := set_f app_writer (Some (Handle app_log false)) in
  let wd' := snd (Write app_writer p wd) in
  let archive := newBackupFilename app_log (clock wd (S (reads wd))) in
  6 = len p /\ ([] : list task) = []
  /\ (files wd' !! app_log = Some (to_bytes "hello" ++ p) \/
      files wd' !! archive = Some (to_bytes "hello" ++ p))
  /\ (f w' = None \/ f w' = Some (Handle app_log false))
  /\ forall p2 wd2, exists e2 wd3,
       Write w' p2 wd2 = ((w', (0, Some e2), []), wd3)
       /\ files wd3 = files wd2
       /\ events wd3 = events wd2 ++ [Ev OpWrite (name_of (f w')) (Some e2)].
Proof.
  apply (failed_rotation_stops_the_writer app_writer (to_bytes "world!")
           (five_bytes_with no_rename) (Handle app_log true) (to_bytes "hello")
           (set_f app_writer (Some (Handle app_log false))) 6 (ErrOther 18) []
           (snd (Write app_writer (to_bytes "world!")
                       (five_bytes_with no_rename))));
    [reflexivity | reflexivity | reflexivity | reflexivity | reflexivity
    | vm_compute; discriminate | vm_compute; reflexivity].
Defined.

(** Six bytes and then ten, while the clock stands still. *)
Lemma rotations_within_a_second_share_an_archive_witness :
  let wd := five_bytes steady_clock in
  let p1 := to_bytes "world!" in
  let p2 := to_bytes "0123456789" in
  let archive := newBackupFilename app_log (clock wd (reads wd)) in
  exists wd',
    Writes app_writer [p1; p2] wd =
      ((app_writer, [(len p1, None); (len p2, None)],
        [Rotated archive app_log; Rotated archive app_log]), wd')
    /\ files wd' = <[app_log := []]> (<[archive := p2]> (files wd))
    /\ reads wd' = (reads wd + 4)%nat.
Proof.
  apply (rotations_within_a_second_share_an_archive app_writer
           (to_bytes "world!") (to_bytes "0123456789")
           (five_bytes steady_clock) app_log (to_bytes "hello"));
    [reflexivity | reflexivity | reflexivity | vm_compute; reflexivity
    | vm_compute; discriminate | vm_compute; discriminate
    | intros i _; split; [unfold civil; cbn; lia | reflexivity]].
Defined.

(** The rotation of [app_log] at 03:04:05 and its goroutine. *)
Lemma rotation_and_goroutine_keep_retention_witness :
  let wd := five_bytes steady_clock in
  let p := to_bytes "world!" in
  let archive := newBackupFilename app_log (clock wd (reads wd)) in
  exists wd1 wd2 kept,
    Write app_writer p wd = ((app_writer, (len p, None),
                              [Rotated archive app_log]), wd1)
    /\ run_task plain_body plain_tail app_writer (Rotated archive app_log) wd1
         = (tt, wd2)
    /\ stderr wd2 = stderr wd
    /\ files wd2 !! app_log = Some []
    /\ files wd2 !! archive = None
    /\ getCompressedFiles app_log wd2 = ((kept, None), wd2)
    /\ (length kept <= Z.to_nat (maxFiles app_writer))%nat
    /\ (archive +:+ ".gz" ∈ kept ->
          files wd2 !! (archive +:+ ".gz") =
            Some (gzip plain_body plain_tail (to_bytes "hello" ++ p)))
    /\ (forall x, x <> app_log -> x <> archive ->
          (forall mid, x <> fst (splitLogFilename app_log) +:+ "-" +:+ mid +:+
                            snd (splitLogFilename app_log) +:+ ".gz") ->
          files wd2 !! x = files wd !! x).
Proof.
  apply (rotation_and_goroutine_keep_retention plain_body plain_tail
           app_writer (to_bytes "world!") (five_bytes steady_clock) app_log
           (to_bytes "hello"));
    [reflexivity | reflexivity | reflexivity | vm_compute; reflexivity
    | vm_compute; discriminate | vm_compute; discriminate
    | reflexivity | reflexivity
    | unfold civil; cbn; lia | unfold civil; cbn; lia | reflexivity].
Defined.

(** A log file named [app] and its compressed archive of new year's
    day. *)
Lemma recovery_without_extension_recompresses_witness :
  let gz := newBackupFilename bare_log (MkTime 2024 1 1 0 0 0 0) +:+ ".gz" in
  exists w tasks wd1,
    NewFileLogWriter bare_log 10 2 bare_archive = ((Some w, None, tasks), wd1)
    /\ Recover gz ∈ tasks
    /\ exists wd2,
         run_task plain_body plain_tail w (Recover gz) wd1 = (tt, wd2)
         /\ files wd2 !! gz = None
         /\ files wd2 !! (gz +:+ ".gz") =
              Some (gzip plain_body plain_tail (to_bytes "zipped"))
         /\ stderr wd2 = stderr wd1.
Proof.
  apply (recovery_without_extension_recompresses plain_body plain_tail
           bare_log 10 2 bare_archive (MkTime 2024 1 1 0 0 0 0)
           (to_bytes "zipped"));
    [reflexivity | reflexivity | reflexivity | unfold civil; cbn; lia
    | reflexivity].
Defined.

(** The log file while the archive left over is compressed. *)
Lemma compress_touches_only_its_two_files_witness :
  let logFile := "/var/log/app-2024-01-02-030405.log"%string in
  files (snd (compress plain_body plain_tail logFile three_archives)) !! app_log
    = files three_archives !! app_log
  /\ dirs (snd (compress plain_body plain_tail logFile three_archives)) =
       dirs three_archives.
Proof.
  apply (compress_touches_only_its_two_files plain_body plain_tail
           "/var/log/app-2024-01-02-030405.log" three_archives app_log);
    discriminate.
Defined.

(** Another file while [app_log] rotates. *)
Lemma Write_touches_only_log_and_archive_witness :
  let wd := five_bytes steady_clock in
  files (snd (Write app_writer (to_bytes "world!") wd)) !! "/var/log/other.log"%string
    = files wd !! "/var/log/other.log"%string.
Proof.
  apply (Write_touches_only_log_and_archive app_writer (to_bytes "world!")
           (five_bytes steady_clock) "/var/log/other.log");
    vm_compute; discriminate.
Defined.

End FileLogMore.
